(** * Chronologicon Engine: ingestion pipeline and insight algorithms

    A shallow embedding of [jobs/ingestionProcessor.js] (the streaming
    ingestion job [processFile]), of the PostgreSQL schema it writes to
    ([init.sql]), of the queries of [database.service.js] that the insight
    service calls, and of [insight.service.js] ([findOverlappingEvents],
    [findTemporalGaps], [findEventInfluencePath]).

    Conventions.
    - Strings are [string]; an instant is the integer number of milliseconds
      since the epoch ([Date.prototype.getTime]), a [Z].
    - [Math.floor (x / 60000)] on an integer [x] is [x / 60000] on [Z]
      ([Z.div] rounds towards minus infinity, 60000 being positive), and
      [Math.round (x / 60000)] is [(x + 30000) / 60000].
    - A table is the list of its rows in insertion order; the primary key
      is enforced by the insert operations.
    - A JavaScript exception is a value of [JsError]; a function that may
      throw returns a sum. *)

From Stdlib Require Import Ascii ZArith Lia.
From stdpp Require Import base option strings list numbers pretty sorting gmap.

Local Open Scope Z_scope.

(** ** JavaScript strings *)

Module Js.

(** [s.split(sep)] for a one-character separator: never the empty array. *)
Fixpoint split (sep : ascii) (s : string) : list string :=
  match s with
  | EmptyString => [EmptyString]
  | String a s' =>
      if Ascii.eqb a sep then EmptyString :: split sep s'
      else match split sep s' with
           | [] => [String a EmptyString]
           | p :: ps => String a p :: ps
           end
  end.

(** [parts.join(sep)] *)
Fixpoint join (sep : string) (parts : list string) : string :=
  match parts with
  | [] => ""
  | [p] => p
  | p :: ps => p +:+ sep +:+ join sep ps
  end.

Definition in_range (lo hi : nat) (a : ascii) : bool :=
  let n := nat_of_ascii a in (lo <=? n)%nat && (n <=? hi)%nat.

Definition upper_char (a : ascii) : ascii :=
  if in_range 97 122 a then ascii_of_nat (nat_of_ascii a - 32) else a.

(** [s.toUpperCase()] on the UTF-8 text of [s], as far as a comparison
    with one of the literals [NULL] and [DESC] can tell: the letters a-z
    are mapped, and so is U+017F (the bytes C5 BF), whose upper case is S;
    it is the only character outside ASCII whose upper case is a part of
    one of these literals. *)
Fixpoint toUpperCase (s : string) : string :=
  match s with
  | EmptyString => EmptyString
  | String a s' =>
      match s' with
      | String b s'' =>
          if Ascii.eqb a "197" && Ascii.eqb b "191"
          then String "S" (toUpperCase s'')
          else String (upper_char a) (toUpperCase s')
      | EmptyString => String (upper_char a) EmptyString
      end
  end.

Definition lower_char (a : ascii) : ascii :=
  if in_range 65 90 a then ascii_of_nat (nat_of_ascii a + 32) else a.

Fixpoint toLowerCase (s : string) : string :=
  match s with
  | EmptyString => EmptyString
  | String a s' => String (lower_char a) (toLowerCase s')
  end.

(** Truthiness of a string-or-null value: [null] and [""] are falsy. *)
Definition truthy (v : option string) : bool :=
  match v with
  | Some (String _ _) => true
  | _ => false
  end.

(** [[0-9a-f]] under the [i] flag. *)
Definition is_hex (a : ascii) : bool :=
  in_range 48 57 a || in_range 97 102 a || in_range 65 70 a.

(** [[0-9a-f]{n}] at the head of [s]: the rest of [s] when it matches. *)
Fixpoint hex_run (n : nat) (s : string) : option string :=
  match n with
  | O => Some s
  | S n' =>
      match s with
      | String a s' => if is_hex a then hex_run n' s' else None
      | EmptyString => None
      end
  end.

Definition dash (s : string) : option string :=
  match s with
  | String "-" s' => Some s'
  | _ => None
  end.

(** Groups of hexadecimal digits separated by one dash. *)
Fixpoint hex_groups (gs : list nat) (s : string) : option string :=
  match gs with
  | [] => Some s
  | [g] => hex_run g s
  | g :: gs' =>
      match hex_run g s with
      | Some r =>
          match dash r with
          | Some r' => hex_groups gs' r'
          | None => None
          end
      | None => None
      end
  end.

End Js.

(** [UUID_REGEX.test(s)] for
    [/^[0-9a-f]{8}-[0-9a-f]{4}-[0-9a-f]{4}-[0-9a-f]{4}-[0-9a-f]{12}$/i]. *)
Definition UUID_REGEX_test (s : string) : bool :=
  match Js.hex_groups [8; 4; 4; 4; 12]%nat s with
  | Some EmptyString => true
  | _ => false
  end.

Definition FK_VIOLATION_CODE : string := "23503".

(** A thrown value: [new Error(message)] carries no [code]; an error of the
    [pg] driver carries the SQLSTATE in [code]. *)
Inductive JsError :=
  | Error (message : string)
  | DatabaseError (code message : string).

Definition error_message (e : JsError) : string :=
  match e with
  | Error m => m
  | DatabaseError _ m => m
  end.

Definition error_code (e : JsError) : option string :=
  match e with
  | Error _ => None
  | DatabaseError c _ => Some c
  end.

(** ** The schema of [init.sql] *)

(** The [metadata] object [{ originalSourceFile, lineNumber, researchValue }]. *)
Module Metadata.
Record t := {
  originalSourceFile : string;
  lineNumber : nat;
  researchValue : string;
}.
End Metadata.

(** A row of [historical_events]; [staging_events] has the same columns.
    It is also the parameter array [queryParams] of the two inserts. *)
Record Row := {
  event_id : string;
  event_name : string;
  description : string;
  start_date : Z;
  end_date : Z;
  duration_minutes : Z;
  parent_event_id : option string;
  metadata : Metadata.t;
}.

Inductive Status := PENDING | PROCESSING | COMPLETED | FAILED.

(** A row of [ingestion_jobs] (the key [job_id] left out: one job is
    followed). *)
Record Job := {
  status : Status;
  file_path : string;
  total_lines : nat;
  processed_lines : nat;
  error_lines : nat;
  errors : list string;
  start_time : Z;
  end_time : option Z;
}.

Record Db := {
  historical_events : list Row;
  staging_events : list Row;
  ingestion_job : Job;
}.

Definition ids (t : list Row) : list string := event_id <$> t.

(** The input function of the column type [UUID]: the text forms that
    [UUID_REGEX] lets through differ from the stored value by case only. *)
Definition uuid_in (s : string) : string := Js.toLowerCase s.

(** The row that the parameter array [q] of an insert denotes. *)
Definition stored (q : Row) : Row :=
  {| event_id := uuid_in (event_id q);
     event_name := event_name q;
     description := description q;
     start_date := start_date q;
     end_date := end_date q;
     duration_minutes := duration_minutes q;
     parent_event_id := uuid_in <$> parent_event_id q;
     metadata := metadata q |}.

#[global] Instance Status_eq_dec : EqDecision Status.
Proof. solve_decision. Defined.

(** ** [ingestionProcessor.js] *)

Section Ingestion.

(** [new Date(s).getTime()]: [None] stands for [NaN], an invalid date. *)
Variable Date_getTime : string -> option Z.

(** PostgreSQL's check of the bound values against the column types of
    [historical_events] ([VARCHAR(255)], [INTEGER], [TIMESTAMPTZ], [UUID]:
    the parser lets an empty parent field through, which is no UUID):
    [Some message] when the statement is rejected. Such an error is a data
    exception (SQLSTATE class 22), never a foreign-key violation. *)
Variable column_check : Row -> option string.

(** The body of the [try] block up to [durationMinutes]: split, validate,
    build [queryParams]. *)
Definition parseLine (filePath : string) (lineNumber : nat) (line : string)
  : JsError + Row :=
  let parts := Js.split "|" line in
  if negb (length parts =? 7)%nat then
    inl (Error ("Invalid number of fields. Expected 7, got "
                +:+ pretty (length parts) +:+ "."))
  else
    match parts with
    | eventId :: eventName :: startDateIso :: endDateIso :: parentIdOrNull
        :: researchValue :: rest =>
        let description := Js.join "|" rest in
        if negb (UUID_REGEX_test eventId) then
          inl (Error ("Invalid UUID format for event_id: '" +:+ eventId +:+ "'"))
        else
          let parentEventId :=
            if String.eqb (Js.toUpperCase parentIdOrNull) "NULL" then None
            else Some parentIdOrNull in
          if Js.truthy parentEventId && negb (UUID_REGEX_test parentIdOrNull)
          then
            inl (Error ("Invalid UUID format for parent_event_id: '"
                        +:+ parentIdOrNull +:+ "'"))
          else
            match Date_getTime startDateIso, Date_getTime endDateIso with
            | Some startDate, Some endDate =>
                if (endDate <? startDate)%Z then
                  inl (Error "start_date cannot be after end_date.")
                else
                  let durationMinutes := ((endDate - startDate + 30000) / 60000)%Z in
                  inr {| event_id := eventId;
                         event_name := eventName;
                         description := description;
                         start_date := startDate;
                         end_date := endDate;
                         duration_minutes := durationMinutes;
                         parent_event_id := parentEventId;
                         metadata :=
                           {| Metadata.originalSourceFile := filePath;
                              Metadata.lineNumber := lineNumber;
                              Metadata.researchValue := researchValue |} |}
            | _, _ =>
                inl (Error ("Invalid date format. Start: '" +:+ startDateIso
                            +:+ "', End: '" +:+ endDateIso +:+ "'"))
            end
    | _ =>
        (* not reached: [parts] has seven elements here *)
        inl (Error "Cannot destructure")
    end.

Definition fk_violation : JsError :=
  DatabaseError FK_VIOLATION_CODE
    "insert or update on table historical_events violates foreign key constraint fk_parent_event".

Definition unique_violation : JsError :=
  DatabaseError "23505"
    "duplicate key value violates unique constraint historical_events_pkey".

(** The constraint [fk_parent_event], checked when the statement ends (the
    row just inserted counts, so an event may name itself as parent). *)
Definition fk_ok (table : list Row) (r : Row) : bool :=
  match parent_event_id r with
  | None => true
  | Some p => bool_decide (p ∈ ids table)
  end.

(** [INSERT INTO historical_events ... VALUES ($1 .. $8)
     ON CONFLICT (event_id) DO NOTHING] *)
Definition insertHistorical (q : Row) (h : list Row) : JsError + list Row :=
  match column_check q with
  | Some message => inl (DatabaseError "22000" message)
  | None =>
      let r := stored q in
      if bool_decide (event_id r ∈ ids h) then inr h
      else if fk_ok (h ++ [r]) r then inr (h ++ [r])
      else inl fk_violation
  end.

(** [INSERT INTO staging_events ... ON CONFLICT (event_id) DO NOTHING]: the
    table has no foreign key, and its columns have the types of
    [historical_events], which the same values have just passed. *)
Definition insertStaging (q : Row) (s : list Row) : list Row :=
  let r := stored q in
  if bool_decide (event_id r ∈ ids s) then s else s ++ [r].

Definition set_job (j : Job) (d : Db) : Db :=
  {| historical_events := historical_events d;
     staging_events := staging_events d;
     ingestion_job := j |}.

(** [UPDATE ingestion_jobs SET processed_lines = $1, total_lines = $2] *)
Definition updateQuery (processed total : nat) (j : Job) : Job :=
  {| status := status j; file_path := file_path j;
     total_lines := total; processed_lines := processed;
     error_lines := error_lines j; errors := errors j;
     start_time := start_time j; end_time := end_time j |}.

(** [UPDATE ingestion_jobs SET error_lines = error_lines + 1,
     errors = errors || $1::jsonb] *)
Definition updateErrorQuery (entry : string) (j : Job) : Job :=
  {| status := status j; file_path := file_path j;
     total_lines := total_lines j; processed_lines := processed_lines j;
     error_lines := S (error_lines j); errors := errors j ++ [entry];
     start_time := start_time j; end_time := end_time j |}.

(** [UPDATE ingestion_jobs SET status = 'PROCESSING'] *)
Definition markProcessing (j : Job) : Job :=
  {| status := PROCESSING; file_path := file_path j;
     total_lines := total_lines j; processed_lines := processed_lines j;
     error_lines := error_lines j; errors := errors j;
     start_time := start_time j; end_time := end_time j |}.

(** [UPDATE ingestion_jobs SET status = 'COMPLETED', total_lines = $1,
     processed_lines = $2, end_time = NOW()] *)
Definition finalUpdateQuery (now : Z) (total processed : nat) (j : Job) : Job :=
  {| status := COMPLETED; file_path := file_path j;
     total_lines := total; processed_lines := processed;
     error_lines := error_lines j; errors := errors j;
     start_time := start_time j; end_time := Some now |}.

(** [UPDATE ingestion_jobs SET status = $1, errors = errors || $2::jsonb,
     end_time = NOW()] *)
Definition failUpdateQuery (now : Z) (st : Status) (entry : string) (j : Job)
  : Job :=
  {| status := st; file_path := file_path j;
     total_lines := total_lines j; processed_lines := processed_lines j;
     error_lines := error_lines j; errors := errors j ++ [entry];
     start_time := start_time j; end_time := Some now |}.

(** The variables of [processFile] that live across the iterations of the
    line loop, and the database. *)
Record Loop := {
  lineNumber : nat;
  localErrorCount : nat;
  localSuccessCount : nat;
  queryParams : option Row;
  db : Db;
}.

(** The [catch (error)] of the line loop. The update of [errors] is taken
    to succeed, like the other statements on [ingestion_jobs]: PostgreSQL
    refuses it when the message quotes a field that holds the character
    U+0000, which [jsonb] does not store, and the job then ends in the
    outer [catch]; a line with that character is outside this model. *)
Definition catchLine (s : Loop) (error : JsError) : Loop :=
  if bool_decide (error_code error = Some FK_VIOLATION_CODE) then
    let d := db s in
    {| lineNumber := lineNumber s;
       localErrorCount := localErrorCount s;
       localSuccessCount := S (localSuccessCount s);
       queryParams := queryParams s;
       db := {| historical_events := historical_events d;
                staging_events :=
                  match queryParams s with
                  | Some q => insertStaging q (staging_events d)
                  | None => staging_events d
                  end;
                ingestion_job := ingestion_job d |} |}
  else
    let entry :=
      "Line " +:+ pretty (lineNumber s) +:+ ": " +:+ error_message error in
    {| lineNumber := lineNumber s;
       localErrorCount := S (localErrorCount s);
       localSuccessCount := localSuccessCount s;
       queryParams := queryParams s;
       db := set_job (updateErrorQuery entry (ingestion_job (db s))) (db s) |}.

(** One iteration of [for await (const line of rl)]. *)
Definition processLine (filePath : string) (s : Loop) (line : string) : Loop :=
  let n := S (lineNumber s) in
  match parseLine filePath n line with
  | inl error =>
      catchLine {| lineNumber := n;
                   localErrorCount := localErrorCount s;
                   localSuccessCount := localSuccessCount s;
                   queryParams := queryParams s;
                   db := db s |} error
  | inr q =>
      let s1 := {| lineNumber := n;
                   localErrorCount := localErrorCount s;
                   localSuccessCount := localSuccessCount s;
                   queryParams := Some q;
                   db := db s |} in
      match insertHistorical q (historical_events (db s)) with
      | inl error => catchLine s1 error
      | inr h =>
          let succ := S (localSuccessCount s) in
          {| lineNumber := n;
             localErrorCount := localErrorCount s;
             localSuccessCount := succ;
             queryParams := Some q;
             db := {| historical_events := h;
                      staging_events := staging_events (db s);
                      ingestion_job :=
                        updateQuery succ n (ingestion_job (db s)) |} |}
      end
  end.

Definition processLines (filePath : string) (s : Loop) (lines : list string)
  : Loop :=
  foldl (processLine filePath) s lines.

(** [a JOIN b ON on]: the left rows of the matching pairs. *)
Definition join_left {A B} (on : A -> B -> bool) (l : list A) (r : list B)
  : list A :=
  a ← l; b ← r; if on a b then [a] else [].

(** The CTE [first_part]: staged rows whose parent is a committed event. *)
Definition first_part (d : Db) : list Row :=
  join_left (λ s h, bool_decide (parent_event_id s = Some (event_id h)))
    (staging_events d) (historical_events d).

(** The CTE [second_part]: staged rows whose parent is in [first_part]. *)
Definition second_part (d : Db) : list Row :=
  join_left (λ s fp, bool_decide (parent_event_id s = Some (event_id fp)))
    (staging_events d) (first_part d).

(** [INSERT INTO historical_events ... SELECT ...] without [ON CONFLICT]:
    a row whose key is present aborts the statement. *)
Fixpoint insertRows (rows : list Row) (h : list Row) : JsError + list Row :=
  match rows with
  | [] => inr h
  | r :: rows' =>
      if bool_decide (event_id r ∈ ids h) then inl unique_violation
      else insertRows rows' (h ++ [r])
  end.

(** [deferredQuery]: one statement, so nothing is inserted when it fails. *)
Definition deferredQuery (d : Db) : JsError + list Row :=
  let rows := first_part d ++ second_part d in
  match insertRows rows (historical_events d) with
  | inl error => inl error
  | inr h => if forallb (fk_ok h) rows then inr h else inl fk_violation
  end.

(** What the readable stream yields: its lines, then possibly an error
    (a file that cannot be opened yields no line and the error:
    [fs.createReadStream] itself does not throw). *)
Record Stream := {
  stream_lines : list string;
  stream_error : option string;
}.

(** The surroundings of one run: whether the first [UPDATE] fails, what
    the file stream yields, and the value of [NOW()]. *)
Record Env := {
  markProcessing_error : option string;
  fileStream : Stream;
  NOW : Z;
}.

(** The outer [catch (err)]. *)
Definition catchFatal (env : Env) (hasUpdatedStatusToProcessing : bool)
    (message : string) (d : Db) : Db :=
  let st := if hasUpdatedStatusToProcessing then FAILED else PENDING in
  set_job (failUpdateQuery (NOW env) st ("Fatal Error: " +:+ message)
             (ingestion_job d)) d.

(** The locals when the line loop is entered. *)
Definition loop_start (d : Db) : Loop :=
  {| lineNumber := 0; localErrorCount := 0; localSuccessCount := 0;
     queryParams := None; db := d |}.

(** The state when the line stream is exhausted. *)
Definition after_lines (env : Env) (filePath : string) (d : Db) : Loop :=
  processLines filePath
    (loop_start (set_job (markProcessing (ingestion_job d)) d))
    (stream_lines (fileStream env)).

Definition processFile (env : Env) (filePath : string) (d : Db) : Db :=
  match markProcessing_error env with
  | Some message => catchFatal env false message d
  | None =>
      let s := after_lines env filePath d in
      match stream_error (fileStream env) with
      | Some message => catchFatal env true message (db s)
      | None =>
          match deferredQuery (db s) with
          | inl err => catchFatal env true (error_message err) (db s)
          | inr h =>
              {| historical_events := h;
                 staging_events := staging_events (db s);
                 ingestion_job :=
                   finalUpdateQuery (NOW env) (lineNumber s)
                     (localSuccessCount s) (ingestion_job (db s)) |}
          end
      end
  end.

(** [createIngestionJob]: [INSERT INTO ingestion_jobs (status, file_path)
    VALUES ('PENDING', $1)], the other columns take their defaults. *)
Definition createIngestionJob (now : Z) (filePath : string) : Job :=
  {| status := PENDING; file_path := filePath;
     total_lines := 0; processed_lines := 0; error_lines := 0;
     errors := []; start_time := now; end_time := None |}.

(** [startIngestionJob]: create the job record, then run [processFile] on
    it (in the background; the state when that run has ended). *)
Definition startIngestionJob (env : Env) (created : Z) (filePath : string)
    (h s : list Row) : Db :=
  processFile env filePath
    {| historical_events := h; staging_events := s;
       ingestion_job := createIngestionJob created filePath |}.

(** A line that is well formed and accepted by the column types, whose
    event has no parent or a parent that is committed when the line is
    read. *)
Definition clean_line (filePath : string) (s : Loop) (line : string) : bool :=
  match parseLine filePath (S (lineNumber s)) line with
  | inr q =>
      match column_check q with
      | None => fk_ok (historical_events (db s)) (stored q)
      | Some _ => false
      end
  | inl _ => false
  end.

Fixpoint clean_file (filePath : string) (s : Loop) (lines : list string)
  : bool :=
  match lines with
  | [] => true
  | line :: lines' =>
      clean_line filePath s line
      && clean_file filePath (processLine filePath s line) lines'
  end.

End Ingestion.

(** ** [database.service.js]: the queries of the insight service *)

(** [getEventsInRange]: [WHERE start_date <= $2 AND end_date >= $1]. *)
Definition getEventsInRange (h : list Row) (startDate endDate : Z) : list Row :=
  filter (λ r, start_date r ≤ endDate ∧ startDate ≤ end_date r) h.

(** [ORDER BY start_date]: rows with equal keys stay in table order. *)
Fixpoint insert_by_start (r : Row) (l : list Row) : list Row :=
  match l with
  | [] => [r]
  | r' :: l' =>
      if (start_date r' <=? start_date r)%Z then r' :: insert_by_start r l'
      else r :: l
  end.

Definition order_by_start (l : list Row) : list Row :=
  foldl (λ acc r, insert_by_start r acc) [] l.

(** [getSortedEventsInRange] *)
Definition getSortedEventsInRange (h : list Row) (startDate endDate : Z)
  : list Row :=
  order_by_start (getEventsInRange h startDate endDate).

(** What the query may return: the rows of the window in ascending order
    of [start_date]; [ORDER BY] leaves the order of rows with equal start
    dates open, and [getSortedEventsInRange] above is one such answer. *)
Definition sorted_window (h : list Row) (startDate endDate : Z)
    (events : list Row) : Prop :=
  events ≡ₚ getEventsInRange h startDate endDate
  ∧ StronglySorted (λ a b, start_date a ≤ start_date b) events.

(** The recursive CTE [event_hierarchy]: [work] is the working table, the
    recursive term joins the table with it, and the evaluation ends when
    the working table is empty. On a cyclic hierarchy the query does not
    end: [None] when [fuel] iterations were not enough. *)
Fixpoint event_hierarchy (fuel : nat) (h work : list Row) : option (list Row) :=
  match work with
  | [] => Some []
  | _ :: _ =>
      match fuel with
      | O => None
      | S fuel' =>
          let next :=
            e ← h; eh ← work;
            if bool_decide (parent_event_id e = Some (event_id eh)) then [e]
            else [] in
          (λ rest, work ++ rest) <$> event_hierarchy fuel' h next
      end
  end.

(** [getEventDescendants] *)
Definition getEventDescendants (fuel : nat) (h : list Row) (rootEventId : string)
  : option (list Row) :=
  event_hierarchy fuel h
    (filter (λ r, event_id r = uuid_in rootEventId) h).

(** ** [insight.service.js] *)

#[global] Instance Metadata_eq_dec : EqDecision Metadata.t.
Proof. solve_decision. Defined.

#[global] Instance Row_eq_dec : EqDecision Row.
Proof. solve_decision. Defined.

Module Summary.
Record t := {
  event_id : string;
  event_name : string;
  start_date : Z;
  end_date : Z;
}.
End Summary.

Definition summary (r : Row) : Summary.t :=
  {| Summary.event_id := event_id r;
     Summary.event_name := event_name r;
     Summary.start_date := start_date r;
     Summary.end_date := end_date r |}.

(** An element of the array that [findOverlappingEvents] returns. *)
Record OverlapPair := {
  overlappingEventPairs : Summary.t * Summary.t;
  overlap_duration_minutes : Z;
}.

Inductive PointType := start | end_.

#[global] Instance PointType_eq_dec : EqDecision PointType.
Proof. solve_decision. Defined.

Record Point := {
  time : Z;
  type : PointType;
  event : Row;
}.

(** The two [points.push] of one event. *)
Definition points_of (e : Row) : list Point :=
  [ {| time := start_date e; type := start; event := e |};
    {| time := end_date e; type := end_; event := e |} ].

(** [(a, b) => a.time - b.time || (a.type === 'start' ? -1 : 1)] *)
Definition compare_points (a b : Point) : Z :=
  let d := time a - time b in
  if (d =? 0)%Z then match type a with start => -1 | end_ => 1 end else d.

(** [points.sort(compare_points)] as an insertion sort. Where the
    comparator is not consistent (two points of one type at one instant)
    the order is implementation-defined; what is proved of the sweep holds
    for every ordering by time. *)
Fixpoint insert_point (x : Point) (l : list Point) : list Point :=
  match l with
  | [] => [x]
  | y :: l' =>
      if (compare_points x y <? 0)%Z then x :: l
      else y :: insert_point x l'
  end.

Definition sort_points (l : list Point) : list Point :=
  foldr insert_point [] l.

(** A JavaScript [Set] in insertion order. *)
Definition set_add {A} `{EqDecision A} (x : A) (s : list A) : list A :=
  if bool_decide (x ∈ s) then s else s ++ [x].

Definition set_delete {A} `{EqDecision A} (x : A) (s : list A) : list A :=
  filter (λ y, y ≠ x) s.

(** [[a, b].sort().join('|')] *)
Definition pairKey (a b : string) : string :=
  if String.leb a b then Js.join "|" [a; b] else Js.join "|" [b; a].

Record Sweep := {
  overlappingPairs : list OverlapPair;
  activeEvents : list Row;
  reportedPairs : list string;
}.

(** The body of [for (const activeEvent of activeEvents)]; the state is
    [overlappingPairs] and [reportedPairs]. *)
Definition pair_step (e : Row) (st : list OverlapPair * list string)
    (activeEvent : Row) : list OverlapPair * list string :=
  let key := pairKey (event_id e) (event_id activeEvent) in
  if bool_decide (key ∈ st.2) then st
  else
    let overlapStart := Z.max (start_date e) (start_date activeEvent) in
    let overlapEnd := Z.min (end_date e) (end_date activeEvent) in
    let overlapDurationMinutes := (overlapEnd - overlapStart) / 60000 in
    if (0 <? overlapDurationMinutes)%Z then
      (st.1 ++ [ {| overlappingEventPairs := (summary e, summary activeEvent);
                    overlap_duration_minutes := overlapDurationMinutes |} ],
       st.2 ++ [key])
    else st.

(** The body of [for (const point of points)]. *)
Definition sweep_step (s : Sweep) (point : Point) : Sweep :=
  match type point with
  | start =>
      let st := foldl (pair_step (event point))
                  (overlappingPairs s, reportedPairs s) (activeEvents s) in
      {| overlappingPairs := st.1;
         activeEvents := set_add (event point) (activeEvents s);
         reportedPairs := st.2 |}
  | end_ =>
      {| overlappingPairs := overlappingPairs s;
         activeEvents := set_delete (event point) (activeEvents s);
         reportedPairs := reportedPairs s |}
  end.

Definition sweep (points : list Point) : Sweep :=
  foldl sweep_step
    {| overlappingPairs := []; activeEvents := []; reportedPairs := [] |}
    points.

(** [findOverlappingEvents] after the query: [events] is its result. *)
Definition overlapping_of (events : list Row) : list OverlapPair :=
  if (length events <? 2)%nat then []
  else overlappingPairs (sweep (sort_points (events ≫= points_of))).

Definition findOverlappingEvents (h : list Row) (startDate endDate : Z)
  : list OverlapPair :=
  overlapping_of (getEventsInRange h startDate endDate).

(** The overlap of two events floored to minutes, as the sweep computes
    it. *)
Definition overlap_minutes (x y : Row) : Z :=
  (Z.min (end_date x) (end_date y) - Z.max (start_date x) (start_date y))
  / 60000.

(** The element pushed for the new event [e] and the active event [a]. *)
Definition mk_report (e a : Row) : OverlapPair :=
  {| overlappingEventPairs := (summary e, summary a);
     overlap_duration_minutes := overlap_minutes e a |}.

(** The pair key of a reported element. *)
Definition key_of (o : OverlapPair) : string :=
  pairKey (Summary.event_id (overlappingEventPairs o).1)
          (Summary.event_id (overlappingEventPairs o).2).

(** [o] reports the unordered pair of the events with ids [a] and [b]. *)
Definition reports (a b : string) (o : OverlapPair) : Prop :=
  (Summary.event_id (overlappingEventPairs o).1 = a
   ∧ Summary.event_id (overlappingEventPairs o).2 = b)
  ∨ (Summary.event_id (overlappingEventPairs o).1 = b
     ∧ Summary.event_id (overlappingEventPairs o).2 = a).

#[global] Instance reports_dec a b o : Decision (reports a b o).
Proof. unfold reports. apply _. Defined.

Definition times_reported (a b : string) (out : list OverlapPair) : nat :=
  length (filter (reports a b) out).

(** The string holds no [|]; the text of a UUID does not. *)
Fixpoint no_bar (s : string) : bool :=
  match s with
  | EmptyString => true
  | String c s' => negb (Ascii.eqb c "|") && no_bar s'
  end.

Definition start_point (e : Row) : Point :=
  {| time := start_date e; type := start; event := e |}.

Definition end_point (e : Row) : Point :=
  {| time := end_date e; type := end_; event := e |}.

(** An element that stands for two of [events] overlapping by a minute or
    more. *)
Definition report_of (events : list Row) (o : OverlapPair) : Prop :=
  ∃ e a, e ∈ events ∧ a ∈ events ∧ o = mk_report e a
         ∧ 0 < overlap_minutes e a.

(** The reported keys are the keys of the reported elements, without
    repetition. *)
Definition reported_inv (events : list Row)
    (st : list OverlapPair * list string) : Prop :=
  st.2 = key_of <$> st.1 ∧ NoDup st.2 ∧ Forall (report_of events) st.1.

(** The sweep after the points [pre]: the active events are events, every
    event that has started and not ended is active. *)
Definition sweep_inv (events : list Row) (pre : list Point) (s : Sweep)
  : Prop :=
  (∀ e, e ∈ activeEvents s → e ∈ events)
  ∧ (∀ e, e ∈ events → start_point e ∈ pre → end_point e ∉ pre →
          e ∈ activeEvents s)
  ∧ reported_inv events (overlappingPairs s, reportedPairs s).

Module Gap.

(** [{ event_id, event_name, end_date }] *)
Record preceding := {
  p_event_id : string;
  p_event_name : string;
  p_end_date : Z;
}.

(** [{ event_id, event_name, start_date }] *)
Record succeeding := {
  s_event_id : string;
  s_event_name : string;
  s_start_date : Z;
}.

Record t := {
  durationMinutes : Z;
  startOfGap : option Z;
  endOfGap : option Z;
  precedingEvent : option preceding;
  succeedingEvent : option succeeding;
}.

Record result := {
  largestGap : option t;
  message : string;
}.

Definition no_gap_message : string :=
  "No significant temporal gaps found within the specified range, or too few events.".

Definition initial : t :=
  {| durationMinutes := 0; startOfGap := None; endOfGap := None;
     precedingEvent := None; succeedingEvent := None |}.

(** The object assigned to [largestGap] inside the loop. *)
Definition between (precedingEvent succeedingEvent : Row) : t :=
  {| durationMinutes :=
       (start_date succeedingEvent - end_date precedingEvent) / 60000;
     startOfGap := Some (end_date precedingEvent);
     endOfGap := Some (start_date succeedingEvent);
     precedingEvent :=
       Some {| p_event_id := event_id precedingEvent;
               p_event_name := event_name precedingEvent;
               p_end_date := end_date precedingEvent |};
     succeedingEvent :=
       Some {| s_event_id := event_id succeedingEvent;
               s_event_name := event_name succeedingEvent;
               s_start_date := start_date succeedingEvent |} |}.

(** [for (let i = 0; i < events.length - 1; i++)] from index [i] on:
    [events] is the part of the array from [events[i]]. *)
Fixpoint scan (largestGap : t) (events : list Row) : t :=
  match events with
  | precedingEvent :: ((succeedingEvent :: _) as rest) =>
      let gapDurationMs := start_date succeedingEvent - end_date precedingEvent in
      if (durationMinutes largestGap * 60 * 1000 <? gapDurationMs)%Z
      then scan (between precedingEvent succeedingEvent) rest
      else scan largestGap rest
  | _ => largestGap
  end.

(** [findTemporalGaps] after the query: [events] is its result. *)
Definition of_events (events : list Row) : result :=
  if (length events <? 2)%nat then
    {| largestGap := None; message := no_gap_message |}
  else
    let g := scan initial events in
    if (0 <? durationMinutes g)%Z then
      {| largestGap := Some g; message := "Largest temporal gap identified." |}
    else {| largestGap := None; message := no_gap_message |}.

End Gap.

(** The consecutive pairs [(events[i], events[i+1])]. *)
Fixpoint consecutive (events : list Row) : list (Row * Row) :=
  match events with
  | a :: ((b :: _) as rest) => (a, b) :: consecutive rest
  | _ => []
  end.

(** The gap of a pair in milliseconds, and floored to minutes. *)
Definition gap_ms (p : Row * Row) : Z := start_date p.2 - end_date p.1.
Definition gap_minutes (p : Row * Row) : Z := gap_ms p / 60000.

Definition findTemporalGaps (h : list Row) (startDate endDate : Z) : Gap.result :=
  Gap.of_events (getSortedEventsInRange h startDate endDate).

(** A value of [eventMap]: [{ event_id, event_name, duration_minutes }]. *)
Module Node.
Record t := {
  event_id : string;
  event_name : string;
  duration_minutes : Z;
}.
End Node.

Definition node_of (e : Row) : Node.t :=
  {| Node.event_id := event_id e;
     Node.event_name := event_name e;
     Node.duration_minutes := duration_minutes e |}.

Module Influence.

(** A JavaScript number that is an integer or [Infinity]. *)
Inductive num := Fin (z : Z) | Infinity.

Definition lt (a b : num) : bool :=
  match a, b with
  | Fin x, Fin y => (x <? y)%Z
  | Fin _, Infinity => true
  | Infinity, _ => false
  end.

Definition add (a : num) (z : Z) : num :=
  match a with
  | Fin x => Fin (x + z)
  | Infinity => Infinity
  end.

Inductive result :=
  | NotFound (message : string)
  | Path (sourceEventId targetEventId : string) (shortestPath : list Node.t)
         (totalDurationMinutes : num) (message : string).

Definition no_path_message : string :=
  "No temporal path found from source to target event.".

Definition found_message : string :=
  "Shortest temporal path found from source to target event.".

(** The first loop: [eventMap] and [childrenMap]. *)
Definition build (events : list Row)
  : gmap string Node.t * gmap string (list string) :=
  foldl
    (λ '(eventMap, childrenMap) e,
       (<[event_id e := node_of e]> eventMap,
        match parent_event_id e with
        | Some p =>
            if Js.truthy (Some p) then
              <[p := default [] (childrenMap !! p) ++ [event_id e]]>
                childrenMap
            else childrenMap
        | None => childrenMap
        end))
    (∅, ∅) events.

(** The state of the [while (pq.size > 0)] loop. *)
Record search := {
  distances : gmap string num;
  previousNodes : gmap string string;
  pq : list string;
}.

(** [distances.get(k)]; every key asked for is a key of [eventMap], which
    are the keys of [distances]. *)
Definition dist (s : search) (k : string) : num :=
  default Infinity (distances s !! k).

(** The inner [for (const eventId of pq)]: the first element of minimal
    distance. *)
Definition pick (s : search) : option string :=
  foldl (λ u eventId,
           match u with
           | None => Some eventId
           | Some u' => if lt (dist s eventId) (dist s u') then Some eventId
                        else u
           end)
    None (pq s).

(** [for (const v of children)] *)
Definition relax (eventMap : gmap string Node.t) (u : string) (s : search)
    (v : string) : search :=
  let alt := add (dist s u)
               (default 0 (Node.duration_minutes <$> eventMap !! v)) in
  if lt alt (dist s v) then
    {| distances := <[v := alt]> (distances s);
       previousNodes := <[v := u]> (previousNodes s);
       pq := set_add v (pq s) |}
  else s.

(** The [while] loop, [None] when [fuel] iterations do not end it. *)
Fixpoint dijkstra (fuel : nat) (eventMap : gmap string Node.t)
    (childrenMap : gmap string (list string)) (targetEventId : string)
    (s : search) : option search :=
  match pick s with
  | None => Some s
  | Some u =>
      let s1 := {| distances := distances s;
                   previousNodes := previousNodes s;
                   pq := set_delete u (pq s) |} in
      if bool_decide (u = targetEventId) then Some s1
      else
        match fuel with
        | O => None
        | S fuel' =>
            let children := default [] (childrenMap !! u) in
            dijkstra fuel' eventMap childrenMap targetEventId
              (foldl (relax eventMap u) s1 children)
        end
  end.

(** [while (currentId) { path.unshift(...); currentId = previousNodes.get(currentId) }],
    [None] when [fuel] iterations do not end it. A [currentId] that is
    no key of [eventMap] would put [undefined] on the path, which only
    matters as its head: [path[0].event_id] throws on it. *)
Fixpoint walk (fuel : nat) (eventMap : gmap string Node.t)
    (previousNodes : gmap string string) (currentId : option string)
    (path : list (option Node.t)) : option (list (option Node.t)) :=
  if Js.truthy currentId then
    match fuel, currentId with
    | S fuel', Some c =>
        walk fuel' eventMap previousNodes (previousNodes !! c)
          (eventMap !! c :: path)
    | _, _ => None
    end
  else Some path.

(** [findEventInfluencePath] after the query: [events] is its result.
    [None]: the fuel ran out; [Some (inl e)]: [e] is thrown. *)
Definition of_events (fuel : nat) (events : list Row)
    (sourceEventId targetEventId : string) : option (JsError + result) :=
  if (length events =? 0)%nat then
    Some (inr (NotFound "Source event not found."))
  else
    let '(eventMap, childrenMap) := build events in
    let none := Path sourceEventId targetEventId [] (Fin 0) no_path_message in
    match eventMap !! targetEventId with
    | None => Some (inr none)
    | Some _ =>
        match eventMap !! sourceEventId with
        | None => Some (inl (Error "TypeError: Cannot read properties of undefined"))
        | Some src =>
            let init :=
              {| distances :=
                   <[sourceEventId := Fin (Node.duration_minutes src)]>
                     ((λ _, Infinity) <$> eventMap);
                 previousNodes := ∅;
                 pq := [sourceEventId] |} in
            s ← dijkstra fuel eventMap childrenMap targetEventId init;
            path ←
              (if bool_decide (is_Some (previousNodes s !! targetEventId))
                  || bool_decide (targetEventId = sourceEventId)
               then walk fuel eventMap (previousNodes s) (Some targetEventId) []
               else Some []);
            match path with
            | [] => Some (inr none)
            | None :: _ =>
                Some (inl (Error "TypeError: Cannot read properties of undefined"))
            | Some n :: _ =>
                if bool_decide (Node.event_id n = sourceEventId) then
                  Some (inr (Path sourceEventId targetEventId
                               (omap id path) (dist s targetEventId)
                               found_message))
                else Some (inr none)
            end
        end
    end.

End Influence.

Definition findEventInfluencePath (fuel : nat) (h : list Row)
    (sourceEventId targetEventId : string)
  : option (JsError + Influence.result) :=
  events ← getEventDescendants fuel h sourceEventId;
  Influence.of_events fuel events sourceEventId targetEventId.

(** ** Trees of events *)

#[global] Instance num_eq_dec : EqDecision Influence.num.
Proof. solve_decision. Defined.

(** What the search maintains on a tree with nodes [V], where [cost v] is
    the sum of the durations from the source down to [v]: a distance is
    infinite or the cost; a predecessor is the parent, and both ends of
    the link are reached; every reached node but the source has a
    predecessor; the frontier holds reached nodes, once each. *)
Definition search_inv (childrenMap : gmap string (list string))
    (V : list string) (source : string) (cost : string → Z)
    (s : Influence.search) : Prop :=
  (∀ v, Influence.dist s v = Influence.Infinity
        ∨ Influence.dist s v = Influence.Fin (cost v))
  ∧ Influence.dist s source = Influence.Fin (cost source)
  ∧ Influence.previousNodes s !! source = None
  ∧ (∀ v u, Influence.previousNodes s !! v = Some u →
            u ∈ V ∧ v ∈ default [] (childrenMap !! u)
            ∧ Influence.dist s v = Influence.Fin (cost v)
            ∧ Influence.dist s u = Influence.Fin (cost u))
  ∧ (∀ v, v ≠ source → Influence.dist s v ≠ Influence.Infinity →
          is_Some (Influence.previousNodes s !! v))
  ∧ (∀ u, u ∈ Influence.pq s →
          u ∈ V ∧ Influence.dist s u ≠ Influence.Infinity)
  ∧ NoDup (Influence.pq s).

(** The children of every node that has left the frontier are reached;
    [but] is the node whose children are being relaxed. *)
Definition settled_inv (childrenMap : gmap string (list string))
    (V : list string) (but : option string) (s : Influence.search) : Prop :=
  ∀ u, u ∈ V → Some u ≠ but →
       Influence.dist s u ≠ Influence.Infinity → u ∉ Influence.pq s →
       ∀ v, v ∈ default [] (childrenMap !! u) →
            Influence.dist s v ≠ Influence.Infinity.

(** The nodes that have not left the frontier yet: a bound on the
    iterations to come. *)
Definition potential (V : list string) (s : Influence.search) : nat :=
  length (filter (λ v, Influence.dist s v = Influence.Infinity) V)
  + length (Influence.pq s).

(** The rows after the root of a result of [getEventDescendants] on a
    hierarchy without cycle: each has a fresh, non-empty id and a parent
    among the ids [seen] before it. *)
Fixpoint parents_before (seen : list string) (rows : list Row) : bool :=
  match rows with
  | [] => true
  | r :: rows' =>
      match parent_event_id r with
      | Some p => bool_decide (p ∈ seen)
      | None => false
      end
      && negb (bool_decide (event_id r ∈ seen))
      && Js.truthy (Some (event_id r))
      && parents_before (seen ++ [event_id r]) rows'
  end.

(** [events] lists the subtree of [source]: the root first, whose parent,
    if any, is outside, then the descendants, parents first. *)
Definition tree_listing (source : string) (events : list Row) : bool :=
  match events with
  | [] => false
  | root :: rest =>
      bool_decide (event_id root = source)
      && Js.truthy (Some source)
      && match parent_event_id root with
         | Some p => negb (bool_decide (p ∈ ids events))
         | None => true
         end
      && parents_before [source] rest
  end.

(** [path] leads from the event [source] down to the event [target] by
    parent-to-child links, within [events]. *)
Inductive tree_path (events : list Row) (source : string)
  : string → list Row → Prop :=
  | tree_path_source r :
      r ∈ events → event_id r = source →
      tree_path events source source [r]
  | tree_path_child u path r :
      tree_path events source u path →
      r ∈ events → parent_event_id r = Some u →
      tree_path events source (event_id r) (path ++ [r]).

(** The sum of [duration_minutes] along a path. *)
Definition total_duration (path : list Row) : Z :=
  foldr (λ r acc, duration_minutes r + acc) 0 path.

(** The path from the root to each event of a listing: that of its parent,
    then the event. *)
Definition tree_paths (events : list Row) : gmap string (list Row) :=
  foldl (λ m r,
           <[event_id r :=
               default [] (parent_event_id r ≫= λ p, m !! p) ++ [r]]> m)
    ∅ events.

(** ** The main store as a forest *)

(** The main store as the inserts fill it: the ids are fresh and not empty
    (primary key, UUID), and the parent of a row, if it has one, is the id
    of a row inserted before it (the foreign key at the time of the
    insert, a row that names itself as parent set aside). *)
Fixpoint forest_from (seen : list string) (rows : list Row) : bool :=
  match rows with
  | [] => true
  | r :: rows' =>
      match parent_event_id r with
      | Some p => bool_decide (p ∈ seen)
      | None => true
      end
      && negb (bool_decide (event_id r ∈ seen))
      && Js.truthy (Some (event_id r))
      && forest_from (seen ++ [event_id r]) rows'
  end.

Definition forest (h : list Row) : bool := forest_from [] h.

(** The number of links from the event [source] down to the event [v],
    read off the rows from the last one back: [rl] is the table reversed. *)
Fixpoint level_rev (source : string) (rl : list Row) (v : string)
  : option nat :=
  match rl with
  | [] => None
  | r :: rl' =>
      if decide (v = event_id r) then
        if decide (event_id r = source) then Some 0%nat
        else match parent_event_id r with
             | Some p => S <$> level_rev source rl' p
             | None => None
             end
      else level_rev source rl' v
  end.

Definition level (h : list Row) (source : string) (v : string) : option nat :=
  level_rev source (reverse h) v.

(** The rows [k] links below [source]: the working table of the [k]-th
    round of [event_hierarchy]. *)
Definition level_rows (h : list Row) (source : string) (k : nat) : list Row :=
  filter (λ e, level h source (event_id e) = Some k) h.

(** [n] rounds of rows from the [k]-th on. *)
Fixpoint levels_from (h : list Row) (source : string) (k n : nat) : list Row :=
  match n with
  | O => []
  | S n' => level_rows h source k ++ levels_from h source (S k) n'
  end.

(** ** Instances for the examples *)

Module Demo.

Definition digit (a : ascii) : option Z :=
  if Js.in_range 48 57 a then Some (Z.of_nat (nat_of_ascii a) - 48) else None.

(** [n] decimal digits at the head of [s]: their value and the rest. *)
Fixpoint number (n : nat) (acc : Z) (s : string) : option (Z * string) :=
  match n with
  | O => Some (acc, s)
  | S n' =>
      match s with
      | String a s' =>
          match digit a with
          | Some d => number n' (10 * acc + d) s'
          | None => None
          end
      | EmptyString => None
      end
  end.

Definition lit (c : ascii) (s : string) : option string :=
  match s with
  | String a s' => if Ascii.eqb a c then Some s' else None
  | EmptyString => None
  end.

(** Days from 1970-01-01 to the civil date [y]-[m]-[d]. *)
Definition days_from_civil (y m d : Z) : Z :=
  let y' := if m <=? 2 then y - 1 else y in
  let era := y' / 400 in
  let yoe := y' - era * 400 in
  let doy := (153 * (if 2 <? m then m - 3 else m + 9) + 2) / 5 + d - 1 in
  let doe := yoe * 365 + yoe / 4 - yoe / 100 + doy in
  era * 146097 + doe - 719468.

(** A reader of the date-time form [YYYY-MM-DDTHH:MM:SSZ], which
    [new Date] reads as UTC; it stands for [Date_getTime] in the examples. *)
Definition Date_getTime (s : string) : option Z :=
  '(y, s) ← number 4 0 s; s ← lit "-" s;
  '(m, s) ← number 2 0 s; s ← lit "-" s;
  '(d, s) ← number 2 0 s; s ← lit "T" s;
  '(hh, s) ← number 2 0 s; s ← lit ":" s;
  '(mm, s) ← number 2 0 s; s ← lit ":" s;
  '(ss, s) ← number 2 0 s; s ← lit "Z" s;
  match s with
  | EmptyString =>
      if (1 <=? m) && (m <=? 12) && (1 <=? d) && (d <=? 31)
         && (hh <=? 23) && (mm <=? 59) && (ss <=? 59)
      then Some ((((days_from_civil y m d * 24 + hh) * 60 + mm) * 60 + ss) * 1000)
      else None
  | _ => None
  end.

(** Name columns are [VARCHAR(255)], and a parent must read as a UUID. *)
Definition column_check (q : Row) : option string :=
  if (255 <? String.length (event_name q))%nat then
    Some "value too long for type character varying(255)"
  else
    match parent_event_id q with
    | Some p =>
        if UUID_REGEX_test p then None
        else Some "invalid input syntax for type uuid"
    | None => None
    end.

Definition env (lines : list string) : Env :=
  {| markProcessing_error := None;
     fileStream := {| stream_lines := lines; stream_error := None |};
     NOW := 1700000000000 |}.

Definition ingest (lines : list string) (h s : list Row) : Db :=
  startIngestionJob Date_getTime column_check (env lines) 1699999999000
    "events.txt" h s.

(** An event of the main store with the given span, in milliseconds. *)
Definition ev (id : string) (parent : option string) (from to : Z) : Row :=
  {| event_id := id; event_name := "Event"; description := "";
     start_date := from; end_date := to;
     duration_minutes := (to - from + 30000) / 60000;
     parent_event_id := parent;
     metadata := {| Metadata.originalSourceFile := "events.txt";
                    Metadata.lineNumber := 1;
                    Metadata.researchValue := "" |} |}.

Definition minute : Z := 60000.

Definition idA : string := "aaaaaaaa-aaaa-aaaa-aaaa-aaaaaaaaaaaa".
Definition idB : string := "bbbbbbbb-bbbb-bbbb-bbbb-bbbbbbbbbbbb".
Definition idC : string := "cccccccc-cccc-cccc-cccc-cccccccccccc".
Definition idD : string := "dddddddd-dddd-dddd-dddd-dddddddddddd".

(** A well-formed line for the event [id] with parent field [parent]. *)
Definition line (id parent : string) : string :=
  id +:+ "|Event|2023-01-01T00:00:00Z|2023-01-01T00:30:00Z|" +:+ parent
     +:+ "|RV|text".

End Demo.

(** * Further parts of the code

    The response of [getJobStatus] and the timeline of
    [getTimelineByRootEventId] ([event.service.js]), the statements that
    [searchEvents] builds and the query [getEventFamily]
    ([database.service.js]), and the predicates in which the further
    properties of the ingestion and of the insight service are stated. *)

(** ** What the ingestion stores *)

(** A row as the line loop writes it: the id is a UUID in the lower case
    of the column type, the event does not end before it starts, and the
    duration is the span rounded to minutes. *)
Definition row_ok (r : Row) : bool :=
  UUID_REGEX_test (event_id r)
  && bool_decide (uuid_in (event_id r) = event_id r)
  && (start_date r <=? end_date r)%Z
  && bool_decide
       (duration_minutes r = (end_date r - start_date r + 30000) / 60000).

(** An entry of [errors] that the line loop writes. *)
Definition line_entry (e : string) : Prop :=
  ∃ (n : nat) (m : string), e = "Line " +:+ pretty n +:+ ": " +:+ m.

(** The text holds no character U+0000. [JSON.stringify] writes that
    character as an escape which [jsonb] refuses, so the update of
    [errors] fails on a message that holds it. *)
Fixpoint no_nul (s : string) : bool :=
  match s with
  | EmptyString => true
  | String c s' => negb (Ascii.eqb c "000") && no_nul s'
  end.

(** The ids of a table are not empty. *)
Definition truthy_ids (t : list Row) : Prop :=
  Forall (λ r, Js.truthy (Some (event_id r)) = true) t.

(** ** [event.service.js]: the status of a job *)

(** A row of [ingestion_jobs] with its key. *)
Record JobRow := {
  job_id : string;
  job : Job;
}.

(** [getIngestionJob]: [SELECT * FROM ingestion_jobs WHERE job_id = $1],
    the first row or [null]. The id is read as the column type reads a
    UUID, as in [getEventDescendants]: the statement fails on a text that
    the type does not read, and what is proved of the function is stated
    for the texts that [UUID_REGEX] lets through. *)
Definition getIngestionJob (ingestion_jobs : list JobRow) (jobId : string)
  : option JobRow :=
  head (filter (λ r, job_id r = uuid_in jobId) ingestion_jobs).

(** The response of [getJobStatus]; [startTime] and [endTime] are [None]
    when the object has no such key, and [endTime] is [Some None] when
    the key holds [null]. *)
Module JobStatus.
Record t := {
  jobId : string;
  status : Status;
  processedLines : nat;
  errorLines : nat;
  totalLines : nat;
  errors : list string;
  startTime : option Z;
  endTime : option (option Z);
}.
End JobStatus.

Definition getJobStatus (ingestion_jobs : list JobRow) (jobId : string)
  : option JobStatus.t :=
  match getIngestionJob ingestion_jobs jobId with
  | None => None
  | Some r =>
      let ended :=
        bool_decide (status (job r) = COMPLETED)
        || bool_decide (status (job r) = FAILED) in
      Some {| JobStatus.jobId := job_id r;
              JobStatus.status := status (job r);
              JobStatus.processedLines := processed_lines (job r);
              JobStatus.errorLines := error_lines (job r);
              JobStatus.totalLines := total_lines (job r);
              JobStatus.errors := errors (job r);
              JobStatus.startTime :=
                if ended then Some (start_time (job r)) else None;
              JobStatus.endTime :=
                if ended then Some (end_time (job r)) else None |}
  end.

(** ** [database.service.js]: the statements of [searchEvents] *)

(** The numbers that [parseInt(...) || 1] gives and the arithmetic on them
    in [(page - 1) * limit]: a double that is an integer, an infinity, or
    [NaN]. The sign of a zero is not kept: no operation here tells the two
    zeros apart. *)
Module JsNumber.

(** [Int z] stands for a number when the integer [z] is a double. *)
Inductive t := Int (z : Z) | Inf (negative : bool) | NaN.

(** The integers up to 2^53 in magnitude: each of them is a double. *)
Definition exact (z : Z) : Prop := Z.abs z ≤ 2 ^ 53.

(** The double nearest to the integer [z], a tie going to the even
    significand: [z] itself up to 2^53 in magnitude, beyond that the
    nearest integer with 53 significant bits, and an infinity when that
    is 2^1024 or more. *)
Definition of_Z (z : Z) : t :=
  let a := Z.abs z in
  let e := Z.log2 a - 52 in
  if (e <=? 0)%Z then Int z
  else
    let q := Z.shiftr a e in
    let r := a - Z.shiftl q e in
    let half := Z.shiftl 1 (e - 1) in
    let q' := if (half <? r)%Z || ((half =? r)%Z && Z.odd q) then q + 1 else q in
    let m := Z.shiftl q' e in
    if (2 ^ 1024 <=? m)%Z then Inf (z <? 0)%Z else Int (Z.sgn z * m).

(** [a - b] for a number [a] and an integer [b] that is a double. *)
Definition sub (a : t) (b : Z) : t :=
  match a with
  | Int x => of_Z (x - b)
  | Inf _ | NaN => a
  end.

(** [a * b]: the product of two doubles is the double nearest to the
    exact product; zero times an infinity is [NaN]. *)
Definition mul (a b : t) : t :=
  match a, b with
  | Int x, Int y => of_Z (x * y)
  | NaN, _ | _, NaN => NaN
  | Int x, Inf n | Inf n, Int x =>
      if (x =? 0)%Z then NaN else Inf (xorb n (x <? 0)%Z)
  | Inf n, Inf n' => Inf (xorb n n')
  end.

End JsNumber.

Module Search.

(** A value bound to a statement. *)
Inductive value := Text (s : string) | Number (n : JsNumber.t).

(** The argument [params]: a filter may be missing, [sortBy] and
    [sortOrder] are strings, [page] and [limit] are numbers. *)
Record params := {
  name : option string;
  startDateAfter : option string;
  endDateBefore : option string;
  sortBy : string;
  sortOrder : string;
  page : JsNumber.t;
  limit : JsNumber.t;
}.

Definition allowedSortBy : list string :=
  ["event_name"; "start_date"; "end_date"].

(** The double quote and the line feed. *)
Definition quote : string := String "034" "".
Definition nl : string := String "010" "".

(** [whereClauses], [queryValues] and [paramIndex]. *)
Record clauses := {
  whereClauses : list string;
  queryValues : list value;
  paramIndex : nat;
}.

(** What [searchEvents] computes and sends: the count statement with
    [queryValues], the data statement with [finalQueryValues]. *)
Record statements := {
  sortColumn : string;
  order : string;
  offset : JsNumber.t;
  whereString : string;
  countQuery : string;
  countValues : list value;
  dataQuery : string;
  finalQueryValues : list value;
}.

(** [searchEvents] up to the two [db.query] calls. *)
Definition of_params (p : params) : statements :=
  let sortColumn :=
    if bool_decide (sortBy p ∈ allowedSortBy) then quote +:+ sortBy p +:+ quote
    else "start_date" in
  let order :=
    if String.eqb (Js.toUpperCase (sortOrder p)) "DESC" then "DESC"
    else "ASC" in
  let offset := JsNumber.mul (JsNumber.sub (page p) 1) (limit p) in
  let c0 := {| whereClauses := []; queryValues := []; paramIndex := 1 |} in
  let c1 :=
    if Js.truthy (name p) then
      {| whereClauses :=
           whereClauses c0 ++ ["event_name ILIKE $" +:+ pretty (paramIndex c0)];
         queryValues :=
           queryValues c0 ++ [Text ("%" +:+ default "" (name p) +:+ "%")];
         paramIndex := S (paramIndex c0) |}
    else c0 in
  let c2 :=
    if Js.truthy (startDateAfter p) then
      {| whereClauses :=
           whereClauses c1 ++ ["start_date >= $" +:+ pretty (paramIndex c1)];
         queryValues :=
           queryValues c1 ++ [Text (default "" (startDateAfter p))];
         paramIndex := S (paramIndex c1) |}
    else c1 in
  let c3 :=
    if Js.truthy (endDateBefore p) then
      {| whereClauses :=
           whereClauses c2 ++ ["end_date <= $" +:+ pretty (paramIndex c2)];
         queryValues :=
           queryValues c2 ++ [Text (default "" (endDateBefore p))];
         paramIndex := S (paramIndex c2) |}
    else c2 in
  let whereString :=
    if (0 <? length (whereClauses c3))%nat then
      "WHERE " +:+ Js.join " AND " (whereClauses c3)
    else "" in
  {| sortColumn := sortColumn;
     order := order;
     offset := offset;
     whereString := whereString;
     countQuery := "SELECT COUNT(*) FROM historical_events " +:+ whereString;
     countValues := queryValues c3;
     dataQuery :=
       nl +:+ "      SELECT event_id, event_name, description, start_date, end_date, duration_minutes, parent_event_id"
       +:+ nl +:+ "      FROM historical_events"
       +:+ nl +:+ "      " +:+ whereString
       +:+ nl +:+ "      ORDER BY " +:+ sortColumn +:+ " " +:+ order
       +:+ nl +:+ "      LIMIT $" +:+ pretty (paramIndex c3)
       +:+ nl +:+ "      OFFSET $" +:+ pretty (S (paramIndex c3))
       +:+ nl +:+ "    ";
     finalQueryValues :=
       queryValues c3 ++ [Number (limit p); Number offset] |}.

(** The value of a decimal digit. *)
Definition digit (a : ascii) : option nat :=
  if Js.in_range 48 57 a then Some (nat_of_ascii a - 48)%nat else None.

(** The parameter references [$1], [$2], ... of a statement in the order
    in which they appear. [cur] is [Some None] just after a dollar sign
    and [Some (Some n)] while the digits of the reference [n] are read. *)
Fixpoint references_from (cur : option (option nat)) (s : string) : list nat :=
  match s with
  | EmptyString =>
      match cur with Some (Some n) => [n] | _ => [] end
  | String a s' =>
      match digit a, cur with
      | Some d, Some None => references_from (Some (Some d)) s'
      | Some d, Some (Some n) => references_from (Some (Some (10 * n + d)%nat)) s'
      | _, _ =>
          match cur with Some (Some n) => [n] | _ => [] end
          ++ references_from (if Ascii.eqb a "$" then Some None else None) s'
      end
  end.

Definition references (s : string) : list nat := references_from None s.

End Search.

(** ** What the overlap detector reports *)

(** An element that pairs the event [e] with a different event [a] of
    [events] that started no later, the two overlapping by a minute or
    more. *)
Definition pair_of (events : list Row) (o : OverlapPair) : Prop :=
  ∃ e a, e ∈ events ∧ a ∈ events ∧ event_id e ≠ event_id a
         ∧ start_date a ≤ start_date e
         ∧ overlappingEventPairs o = (summary e, summary a)
         ∧ overlap_duration_minutes o = overlap_minutes e a
         ∧ 0 < overlap_minutes e a.

(** ** Rounds of the recursive query *)

(** The recursive term of [event_hierarchy]: the rows whose parent is a
    row of the working table. *)
Definition hierarchy_step (h work : list Row) : list Row :=
  e ← h; eh ← work;
  if bool_decide (parent_event_id e = Some (event_id eh)) then [e] else [].

(** ** [database.service.js]: the family of an event *)

(** The recursive term of the CTE [EventAncestors]: the rows that are
    the parent of a row of the working table. *)
Definition ancestors_step (h work : list Row) : list Row :=
  e ← h; ea ← work;
  if bool_decide (parent_event_id ea = Some (event_id e)) then [e] else [].

(** The recursive CTE [EventAncestors], [None] when [fuel] rounds do not
    empty the working table. *)
Fixpoint EventAncestors (fuel : nat) (h work : list Row) : option (list Row) :=
  match work with
  | [] => Some []
  | _ :: _ =>
      match fuel with
      | O => None
      | S fuel' =>
          (λ rest, work ++ rest)
            <$> EventAncestors fuel' h (ancestors_step h work)
      end
  end.

(** [getEventFamily]: the CTE [EventDescendants] is the query of
    [getEventDescendants] with all the columns. The [UNION] of the two
    keeps one copy of each row, in an order that SQL leaves open: the
    order here is one of them, and what is proved of the timeline holds
    for every order. *)
Definition getEventFamily (fuel : nat) (h : list Row) (eventId : string)
  : option (list Row) :=
  let base := filter (λ r, event_id r = uuid_in eventId) h in
  ancestors ← EventAncestors fuel h base;
  descendants ← event_hierarchy fuel h base;
  Some (remove_dups (ancestors ++ descendants)).

(** ** [event.service.js]: the timeline of an event *)

Module Timeline.

(** An object of [nodeMap]: the row, with [children] until the key is
    deleted, and with [parent] once it is set. Both hold references to
    objects of [nodeMap], which stand here as their keys: every object is
    made once, under the id of its row, and never replaced. *)
Record node := {
  item : Row;
  children : option (list string);
  parent : option string;
}.

(** The first loop: an object for each row. *)
Definition create (flatList : list Row) : gmap string node :=
  foldl (λ nodeMap item,
           <[event_id item :=
               {| item := item; children := Some []; parent := None |}]>
             nodeMap)
    ∅ flatList.

(** The body of the second loop: [parentNode.children.push(node)]. No
    [children] has been deleted yet. *)
Definition link (nodeMap : gmap string node) (item : Row) : gmap string node :=
  match parent_event_id item with
  | Some parentId =>
      if Js.truthy (Some parentId) then
        match nodeMap !! parentId with
        | Some parentNode =>
            <[parentId :=
                {| item := Timeline.item parentNode;
                   children :=
                     (λ c, c ++ [event_id item]) <$> children parentNode;
                   parent := parent parentNode |}]> nodeMap
        | None => nodeMap
        end
      else nodeMap
  | None => nodeMap
  end.

(** [while (parentId && nodeMap.has(parentId))], [None] when [fuel]
    iterations do not end it; [current] is a reference. *)
Fixpoint climb (fuel : nat) (nodeMap : gmap string node) (current : string)
    (parentId : option string) : option (gmap string node) :=
  match parentId with
  | Some p =>
      if Js.truthy (Some p) then
        match nodeMap !! p with
        | Some parentNodeData =>
            match fuel with
            | O => None
            | S fuel' =>
                let deleted :=
                  <[p := {| item := item parentNodeData;
                            children := None;
                            parent := parent parentNodeData |}]> nodeMap in
                let linked :=
                  alter (λ c, {| item := item c; children := children c;
                                 parent := Some p |}) current deleted in
                climb fuel' linked p (parent_event_id (item parentNodeData))
            end
        | None => Some nodeMap
        end
      else Some nodeMap
  | None => Some nodeMap
  end.

(** [getTimelineByRootEventId] after the query: [flatList] is its result.
    [None]: the last loop has not ended; [Some None]: [null];
    [Some (Some nodeMap)]: the object [resultNode], which is the object of
    [nodeMap] under [rootEventId]. *)
Definition of_rows (fuel : nat) (flatList : list Row) (rootEventId : string)
  : option (option (gmap string node)) :=
  if (length flatList =? 0)%nat then Some None
  else
    let nodeMap := foldl link (create flatList) flatList in
    match nodeMap !! rootEventId with
    | None => Some None
    | Some resultNode =>
        Some <$> climb fuel nodeMap rootEventId
                   (parent_event_id (item resultNode))
    end.

(** An object as a value: the row, the objects of [children] and the
    object of [parent], where the keys exist. *)
#[warnings="-register-all"] Inductive tree :=
  Tree (item : Row) (children : option (list tree)) (parent : option tree).

Definition from_ref (f : string → option tree) (ref : option string)
  : option (option tree) :=
  match ref with
  | None => Some None
  | Some r => Some <$> f r
  end.

Definition from_refs (f : string → option tree) (refs : option (list string))
  : option (option (list tree)) :=
  match refs with
  | None => Some None
  | Some l => Some <$> mapM f l
  end.

(** The value of the object under [ref], read to the depth [fuel]:
    [None] when an object is missing or the depth is not enough, as it is
    not for objects that refer to themselves. *)
Fixpoint render (fuel : nat) (nodeMap : gmap string node) (ref : string)
  : option tree :=
  match fuel with
  | O => None
  | S fuel' =>
      n ← nodeMap !! ref;
      c ← from_refs (render fuel' nodeMap) (children n);
      p ← from_ref (render fuel' nodeMap) (parent n);
      Some (Tree (item n) c p)
  end.

End Timeline.

Definition getTimelineByRootEventId (fuel : nat) (h : list Row)
    (rootEventId : string) : option (option (gmap string Timeline.node)) :=
  flatList ← getEventFamily fuel h rootEventId;
  Timeline.of_rows fuel flatList rootEventId.

(** The rows of [t] whose parent is the event [v]. *)
Definition children_of (t : list Row) (v : string) : list Row :=
  filter (λ c, parent_event_id c = Some v) t.

(** The tree below the event of the row [r] in the store [h]: the row,
    with the trees below its children in some order, and no [parent]. *)
#[warnings="-register-all"] Inductive subtree (h : list Row) : Row → Timeline.tree → Prop :=
  | subtree_node r kids ts :
      kids ≡ₚ children_of h (event_id r) →
      Forall2 (subtree h) kids ts →
      subtree h r (Timeline.Tree r (Some ts) None).

(** The chain above an event whose parent is [parentId]: the row of the
    parent, without [children], then the chain above it. *)
Inductive chain (h : list Row) : option string → option Timeline.tree → Prop :=
  | chain_end : chain h None None
  | chain_up r above :
      r ∈ h → chain h (parent_event_id r) above →
      chain h (Some (event_id r)) (Some (Timeline.Tree r None above)).


(** * Properties of the ingestion job *)

Section IngestionFacts.

Variable Date_getTime : string -> option Z.
Variable column_check : Row -> option string.

Abbreviation parseLine := (parseLine Date_getTime).
Abbreviation insertHistorical := (insertHistorical column_check).
Abbreviation processLine := (processLine Date_getTime column_check).
Abbreviation processLines := (processLines Date_getTime column_check).
Abbreviation after_lines := (after_lines Date_getTime column_check).
Abbreviation processFile := (processFile Date_getTime column_check).
Abbreviation startIngestionJob := (startIngestionJob Date_getTime column_check).
Abbreviation clean_line := (clean_line Date_getTime column_check).
Abbreviation clean_file := (clean_file Date_getTime column_check).

Implicit Types (s : Loop) (d : Db) (q r : Row) (h : list Row).

Lemma processLines_cons filePath s line lines :
  processLines filePath s (line :: lines)
  = processLines filePath (processLine filePath s line) lines.
Proof. reflexivity. Qed.

Lemma processLines_snoc filePath s lines line :
  processLines filePath s (lines ++ [line])
  = processLine filePath (processLines filePath s lines) line.
Proof. unfold processLines. by rewrite foldl_app. Qed.

(** The three ways a line can go. *)
Lemma processLine_cases filePath s line :
  let s' := processLine filePath s line in
  lineNumber s' = S (lineNumber s)
  ∧ ((* committed, or already there *)
     (localSuccessCount s' = S (localSuccessCount s)
      ∧ localErrorCount s' = localErrorCount s
      ∧ staging_events (db s') = staging_events (db s)
      ∧ ingestion_job (db s')
        = updateQuery (S (localSuccessCount s)) (S (lineNumber s))
            (ingestion_job (db s))
      ∧ ∃ q, parseLine filePath (S (lineNumber s)) line = inr q
             ∧ insertHistorical q (historical_events (db s))
               = inr (historical_events (db s')))
     ∨ (* staged *)
     (localSuccessCount s' = S (localSuccessCount s)
      ∧ localErrorCount s' = localErrorCount s
      ∧ historical_events (db s') = historical_events (db s)
      ∧ ingestion_job (db s') = ingestion_job (db s)
      ∧ ∃ q, parseLine filePath (S (lineNumber s)) line = inr q
             ∧ insertHistorical q (historical_events (db s)) = inl fk_violation
             ∧ staging_events (db s') = insertStaging q (staging_events (db s)))
     ∨ (* rejected *)
     (localSuccessCount s' = localSuccessCount s
      ∧ localErrorCount s' = S (localErrorCount s)
      ∧ historical_events (db s') = historical_events (db s)
      ∧ staging_events (db s') = staging_events (db s)
      ∧ ∃ message,
          ingestion_job (db s')
          = updateErrorQuery
              ("Line " +:+ pretty (S (lineNumber s)) +:+ ": " +:+ message)
              (ingestion_job (db s)))).
Proof.
  unfold processLine.
  destruct (parseLine filePath (S (lineNumber s)) line) as [e|q] eqn:Hp.
  - destruct e as [m|c m]; cbn.
    + split; [done|]. right; right. repeat split; eauto.
    + (* the parser only throws [Error] *)
      exfalso. revert Hp. unfold parseLine.
      repeat (case_match; try discriminate).
  - unfold insertHistorical.
    destruct (column_check q) as [m|] eqn:Hc; cbn.
    + split; [done|]. right; right. repeat split; eauto.
    + case_bool_decide as Hin; cbn.
      * split; [done|]. left. repeat split; try done.
        exists q. rewrite Hc. by rewrite bool_decide_true.
      * destruct (fk_ok _ _) eqn:Hfk; cbn.
        -- split; [done|]. left. repeat split; try done.
           exists q. rewrite Hc, bool_decide_false by done. by rewrite Hfk.
        -- split; [done|]. right; left. repeat split; try done.
           exists q. rewrite Hc, bool_decide_false by done. by rewrite Hfk.
Qed.

Lemma processLines_counts filePath s lines :
  let s' := processLines filePath s lines in
  lineNumber s' = (lineNumber s + length lines)%nat
  ∧ (localSuccessCount s' + localErrorCount s'
     = localSuccessCount s + localErrorCount s + length lines)%nat
  ∧ (error_lines (ingestion_job (db s')) + localErrorCount s
     = error_lines (ingestion_job (db s)) + localErrorCount s')%nat
  ∧ (length (errors (ingestion_job (db s'))) + localErrorCount s
     = length (errors (ingestion_job (db s))) + localErrorCount s')%nat
  ∧ status (ingestion_job (db s')) = status (ingestion_job (db s))
  ∧ end_time (ingestion_job (db s')) = end_time (ingestion_job (db s)).
Proof.
  revert s. induction lines as [|line lines IH]; intros s; cbn zeta.
  - cbn. repeat split; lia.
  - rewrite processLines_cons.
    specialize (IH (processLine filePath s line)). cbn zeta in IH.
    destruct IH as (IH1 & IH2 & IH3 & IH4 & IH5 & IH6).
    destruct (processLine_cases filePath s line) as [Hn Hc]. cbn zeta in Hc.
    rewrite IH1, IH2, IH5, IH6, Hn. cbn [length].
    destruct Hc as [(Hs & He & _ & Hj & _) | [(Hs & He & _ & Hj & _)
                   | (Hs & He & _ & _ & m & Hj)]];
      rewrite Hj in *; cbn in *; rewrite ?length_app in *; cbn in *;
      repeat split; lia.
Qed.

(** Every entry that the line loop appends to [errors] is tagged with the
    number of a line. *)
Lemma processLines_entries filePath s lines :
  let line_entry (e : string) :=
    ∃ (n : nat) (m : string), e = "Line " +:+ pretty n +:+ ": " +:+ m in
  Forall line_entry (errors (ingestion_job (db s))) →
  Forall line_entry
    (errors (ingestion_job (db (processLines filePath s lines)))).
Proof.
  cbn zeta. revert s. induction lines as [|line lines IH]; intros s Hs.
  - done.
  - rewrite processLines_cons. apply IH.
    destruct (processLine_cases filePath s line) as [_ Hc]. cbn zeta in Hc.
    destruct Hc as [(_ & _ & _ & Hj & _) | [(_ & _ & _ & Hj & _)
                   | (_ & _ & _ & _ & m & Hj)]]; rewrite Hj; cbn; try done.
    apply Forall_app. split; [done|]. apply Forall_singleton. eauto.
Qed.

(** *** The deferred promotion *)

Lemma elem_of_join_left {A B} (on : A → B → bool) (l : list A) (r : list B) a :
  a ∈ join_left on l r ↔ a ∈ l ∧ ∃ b, b ∈ r ∧ on a b = true.
Proof.
  unfold join_left. rewrite list_elem_of_bind. split.
  - intros (x & Hx & Hl). apply list_elem_of_bind in Hx as (b & Hb & Hr).
    destruct (on x b) eqn:Hon; [|by apply elem_of_nil in Hb].
    apply list_elem_of_singleton in Hb as ->. eauto.
  - intros (Hl & b & Hr & Hon). exists a. split; [|done].
    apply list_elem_of_bind. exists b. rewrite Hon. split; [|done].
    by apply list_elem_of_singleton.
Qed.

Lemma insertRows_inr rows h h' : insertRows rows h = inr h' → h' = h ++ rows.
Proof.
  revert h. induction rows as [|r rows IH]; intros h; cbn.
  - intros [= <-]. by rewrite app_nil_r.
  - case_bool_decide; [done|]. intros Hi%IH. by rewrite <- app_assoc in Hi.
Qed.

Lemma insertRows_fresh rows h :
  NoDup (ids rows) → (∀ r, r ∈ rows → event_id r ∉ ids h) →
  insertRows rows h = inr (h ++ rows).
Proof.
  revert h. induction rows as [|r rows IH]; intros h Hnd Hfresh; cbn.
  - by rewrite app_nil_r.
  - cbn in Hnd. apply NoDup_cons in Hnd as [Hr Hnd].
    rewrite bool_decide_false by (apply Hfresh; left).
    rewrite IH; [by rewrite <- app_assoc|done|].
    intros r' Hr'. unfold ids. rewrite fmap_app, elem_of_app. cbn.
    intros [Hin | Hin%list_elem_of_singleton].
    + eapply Hfresh; [right; exact Hr'|done].
    + apply Hr. rewrite <- Hin. by apply list_elem_of_fmap_2.
Qed.

Lemma deferredQuery_inr d h' :
  deferredQuery d = inr h' →
  h' = historical_events d ++ first_part d ++ second_part d.
Proof.
  unfold deferredQuery.
  destruct (insertRows _ _) as [e|h1] eqn:Hi; [done|].
  apply insertRows_inr in Hi. case_match; [|done]. by intros [= <-].
Qed.

Lemma first_part_spec d r :
  r ∈ first_part d ↔
  r ∈ staging_events d
  ∧ ∃ p, parent_event_id r = Some p ∧ p ∈ ids (historical_events d).
Proof.
  unfold first_part. rewrite elem_of_join_left. split.
  - intros (Hr & b & Hb & Hon). split; [done|].
    apply bool_decide_eq_true in Hon. exists (event_id b). split; [done|].
    by apply list_elem_of_fmap_2.
  - intros (Hr & p & Hp & Hin). split; [done|].
    apply list_elem_of_fmap in Hin as (b & -> & Hb). exists b. split; [done|].
    by apply bool_decide_eq_true.
Qed.

Lemma second_part_spec d r :
  r ∈ second_part d ↔
  r ∈ staging_events d
  ∧ ∃ r1, r1 ∈ first_part d ∧ parent_event_id r = Some (event_id r1).
Proof.
  unfold second_part. rewrite elem_of_join_left. split.
  - intros (Hr & b & Hb & Hon). split; [done|].
    apply bool_decide_eq_true in Hon. eauto.
  - intros (Hr & r1 & Hr1 & Hp). split; [done|]. exists r1. split; [done|].
    by apply bool_decide_eq_true.
Qed.

(** What a run that ends [COMPLETED] went through. *)
Lemma processFile_completed env filePath d :
  status (ingestion_job (processFile env filePath d)) = COMPLETED →
  let s := after_lines env filePath d in
  markProcessing_error env = None
  ∧ stream_error (fileStream env) = None
  ∧ ∃ h', deferredQuery (db s) = inr h'
          ∧ processFile env filePath d
            = {| historical_events := h';
                 staging_events := staging_events (db s);
                 ingestion_job :=
                   finalUpdateQuery (NOW env) (lineNumber s)
                     (localSuccessCount s) (ingestion_job (db s)) |}.
Proof.
  unfold processFile.
  destruct (markProcessing_error env); [done|].
  destruct (stream_error (fileStream env)); [done|].
  destruct (deferredQuery _) as [e|h'] eqn:Hd; [done|]. eauto.
Qed.

(** *** Accounting of lines *)

Lemma after_lines_counts env filePath d :
  let s := after_lines env filePath d in
  lineNumber s = length (stream_lines (fileStream env))
  ∧ (localSuccessCount s + localErrorCount s)%nat
    = length (stream_lines (fileStream env))
  ∧ error_lines (ingestion_job (db s))
    = (error_lines (ingestion_job d) + localErrorCount s)%nat
  ∧ length (errors (ingestion_job (db s)))
    = (length (errors (ingestion_job d)) + localErrorCount s)%nat
  ∧ status (ingestion_job (db s)) = PROCESSING
  ∧ end_time (ingestion_job (db s)) = end_time (ingestion_job d).
Proof.
  unfold after_lines.
  match goal with |- context [processLines ?f ?s0 ?l] =>
    pose proof (processLines_counts f s0 l) as Hk;
    generalize dependent (processLines f s0 l) end.
  cbn. intros s Hk. repeat split; try lia; apply Hk.
Qed.

(** C10. When a job created by [startIngestionJob] ends [COMPLETED], the
    processed and the error counter of its record add up to the total,
    which is the number of lines of the file; and a line whose event is
    put aside in [staging_events] because of the foreign key raises the
    success counter, not the error counter. *)
Theorem completed_job_counts_every_line env created filePath h st :
  let d := startIngestionJob env created filePath h st in
  status (ingestion_job d) = COMPLETED →
  (processed_lines (ingestion_job d) + error_lines (ingestion_job d)
   = total_lines (ingestion_job d))%nat
  ∧ total_lines (ingestion_job d) = length (stream_lines (fileStream env))
  ∧ ∀ s line q,
      parseLine filePath (S (lineNumber s)) line = inr q →
      insertHistorical q (historical_events (db s)) = inl fk_violation →
      localSuccessCount (processLine filePath s line)
      = S (localSuccessCount s)
      ∧ localErrorCount (processLine filePath s line) = localErrorCount s
      ∧ ingestion_job (db (processLine filePath s line))
        = ingestion_job (db s).
Proof.
  intros d Hc. unfold d, startIngestionJob in *.
  apply processFile_completed in Hc as (_ & _ & h' & _ & ->).
  cbn [ingestion_job finalUpdateQuery processed_lines error_lines total_lines].
  match goal with |- context [after_lines ?e ?f ?d0] =>
    destruct (after_lines_counts e f d0) as (Hn & Hs & He & _);
    generalize dependent (after_lines e f d0) end.
  cbn. intros s0 Hn Hs He.
  split; [lia|]. split; [lia|].
  intros s line q Hp Hi. unfold processLine. rewrite Hp, Hi. done.
Qed.

Lemma clean_line_commits filePath s line :
  clean_line filePath s line = true →
  ∃ q h', parseLine filePath (S (lineNumber s)) line = inr q
          ∧ insertHistorical q (historical_events (db s)) = inr h'.
Proof.
  unfold clean_line, insertHistorical.
  destruct (parseLine _ _ _) as [|q]; [done|].
  destruct (column_check q) eqn:Hcc; [done|]. intros Hfk. exists q.
  cbn beta zeta. rewrite Hcc. case_bool_decide; [eauto|].
  assert (fk_ok (historical_events (db s) ++ [stored q]) (stored q) = true)
    as ->; [|eauto].
  revert Hfk. unfold fk_ok. destruct (parent_event_id (stored q)); [|done].
  rewrite !bool_decide_eq_true. unfold ids. rewrite fmap_app, elem_of_app.
  auto.
Qed.

Lemma clean_file_run filePath s lines :
  clean_file filePath s lines = true →
  processed_lines (ingestion_job (db s)) = localSuccessCount s →
  total_lines (ingestion_job (db s)) = lineNumber s →
  let s' := processLines filePath s lines in
  localSuccessCount s' = (localSuccessCount s + length lines)%nat
  ∧ localErrorCount s' = localErrorCount s
  ∧ lineNumber s' = (lineNumber s + length lines)%nat
  ∧ staging_events (db s') = staging_events (db s)
  ∧ processed_lines (ingestion_job (db s')) = localSuccessCount s'
  ∧ total_lines (ingestion_job (db s')) = lineNumber s'
  ∧ error_lines (ingestion_job (db s')) = error_lines (ingestion_job (db s))
  ∧ errors (ingestion_job (db s')) = errors (ingestion_job (db s)).
Proof.
  revert s. induction lines as [|line lines IH]; intros s Hc Hp Ht; cbn zeta.
  - cbn. repeat split; (lia || done).
  - cbn [clean_file] in Hc. apply andb_true_iff in Hc as [Hl Hc].
    rewrite processLines_cons.
    destruct (clean_line_commits _ _ _ Hl) as (q & h' & Hq & Hi).
    destruct (processLine_cases filePath s line) as [Hn Hcase].
    cbn zeta in Hcase. rewrite Hq in Hcase.
    destruct Hcase as [(Hs1 & He1 & Hst1 & Hj1 & _)
                      | [(_ & _ & _ & _ & q' & [= <-] & Hi' & _)
                        | (Hs1 & He1 & _)]].
    2: { congruence. }
    2: { (* the line was committed, so the error counter did not move *)
      exfalso. revert He1. unfold processLine. rewrite Hq, Hi. cbn. lia. }
    destruct (IH _ Hc) as (E1 & E2 & E3 & E4 & E5 & E6 & E7 & E8).
    { rewrite Hj1, Hs1. done. }
    { rewrite Hj1, Hn. done. }
    rewrite E1, E2, E3, E4, E5, E6, E7, E8, Hs1, He1, Hn, Hst1, Hj1.
    cbn. repeat split; lia.
Qed.

Lemma after_lines_eq env filePath h st j :
  after_lines env filePath
    {| historical_events := h; staging_events := st; ingestion_job := j |}
  = processLines filePath
      (loop_start {| historical_events := h; staging_events := st;
                     ingestion_job := markProcessing j |})
      (stream_lines (fileStream env)).
Proof. reflexivity. Qed.

(** X24. A file whose lines are all well formed, accepted by the column
    types, and whose events name no parent or a parent that is committed
    when the line is read, read to its end: the job record ends with
    [processed_lines] and [total_lines] equal to the number of lines and
    [error_lines] zero, whatever the tables held. The job ends [COMPLETED]
    exactly when the deferred statement does not fail, and that statement
    does not fail when no row waits in [staging_events] as the job starts;
    no error is recorded then. *)
Theorem clean_file_all_processed env created filePath h st :
  markProcessing_error env = None →
  stream_error (fileStream env) = None →
  clean_file filePath
    (loop_start
       {| historical_events := h; staging_events := st;
          ingestion_job :=
            markProcessing (createIngestionJob created filePath) |})
    (stream_lines (fileStream env)) = true →
  let s := after_lines env filePath
             {| historical_events := h; staging_events := st;
                ingestion_job := createIngestionJob created filePath |} in
  let j := ingestion_job (startIngestionJob env created filePath h st) in
  processed_lines j = total_lines j
  ∧ total_lines j = length (stream_lines (fileStream env))
  ∧ error_lines j = 0%nat
  ∧ (status j = COMPLETED ↔ ∃ h', deferredQuery (db s) = inr h')
  ∧ (st = [] → status j = COMPLETED ∧ errors j = []).
Proof.
  intros Hm He Hc. unfold startIngestionJob, processFile.
  rewrite Hm, He, !after_lines_eq.
  apply clean_file_run in Hc; [|done..]. cbn zeta in Hc.
  destruct Hc as (Hs & _ & Hn & Hst & Hp & Ht & Herr & Hers).
  cbn zeta. split; [|split; [|split; [|split]]].
  - destruct (deferredQuery _); cbn; rewrite ?Hp, ?Ht, Hs, Hn; done.
  - destruct (deferredQuery _); cbn; rewrite ?Ht, Hn; done.
  - destruct (deferredQuery _); cbn; rewrite Herr; done.
  - destruct (deferredQuery _) as [e|h']; cbn.
    + split; [done|]. by intros [h' ?].
    + split; [eauto|done].
  - intros ->.
    match goal with |- context [deferredQuery ?d] =>
      assert (deferredQuery d = inr (historical_events d)) as -> end.
    { unfold deferredQuery, second_part, first_part. rewrite Hst. done. }
    cbn. by rewrite Hers.
Qed.

(** C9. Committing an event whose id is in the main store: the statement
    succeeds and leaves the table as it is; the line counts as processed,
    nothing is staged and no error is recorded. *)
Theorem commit_existing_id_is_noop q h :
  column_check q = None →
  event_id (stored q) ∈ ids h →
  insertHistorical q h = inr h
  ∧ ∀ filePath s line,
      historical_events (db s) = h →
      parseLine filePath (S (lineNumber s)) line = inr q →
      let s' := processLine filePath s line in
      historical_events (db s') = h
      ∧ staging_events (db s') = staging_events (db s)
      ∧ localSuccessCount s' = S (localSuccessCount s)
      ∧ localErrorCount s' = localErrorCount s
      ∧ processed_lines (ingestion_job (db s')) = S (localSuccessCount s)
      ∧ error_lines (ingestion_job (db s'))
        = error_lines (ingestion_job (db s))
      ∧ errors (ingestion_job (db s')) = errors (ingestion_job (db s)).
Proof.
  intros Hc Hin.
  assert (insertHistorical q h = inr h) as Hi.
  { unfold insertHistorical. rewrite Hc. by rewrite bool_decide_true. }
  split; [done|]. intros filePath s line Hh Hp. unfold processLine.
  rewrite Hp, Hh, Hi. done.
Qed.

(** *** The parser *)

(** C3. A line that splits into more than seven parts, as one whose
    description holds the delimiter does, is not accepted: the field-count
    check throws before the parts after the sixth are joined again, and
    the line loop records the line as an error. *)
Theorem extra_delimiter_rejected filePath s line :
  (7 < length (Js.split "|" line))%nat →
  let message :=
    "Invalid number of fields. Expected 7, got "
    +:+ pretty (length (Js.split "|" line)) +:+ "." in
  parseLine filePath (S (lineNumber s)) line = inl (Error message)
  ∧ let s' := processLine filePath s line in
    localErrorCount s' = S (localErrorCount s)
    ∧ localSuccessCount s' = localSuccessCount s
    ∧ historical_events (db s') = historical_events (db s)
    ∧ staging_events (db s') = staging_events (db s)
    ∧ errors (ingestion_job (db s'))
      = errors (ingestion_job (db s))
        ++ ["Line " +:+ pretty (S (lineNumber s)) +:+ ": " +:+ message].
Proof.
  intros Hlen message.
  assert (parseLine filePath (S (lineNumber s)) line = inl (Error message))
    as Hp.
  { unfold parseLine. cbn zeta.
    destruct (length (Js.split "|" line) =? 7)%nat eqn:E; [|done].
    apply Nat.eqb_eq in E. lia. }
  split; [done|]. unfold processLine. rewrite Hp. done.
Qed.

(** *** The status of the job *)


(** *** Promotion of staged events *)

(** C1, as the code has it. When the lines are exhausted one statement
    promotes two levels of staged events: the rows of [staging_events]
    whose parent is then in the main store, and the rows whose parent is
    one of those rows. When the run ends [COMPLETED] the main store is the
    store after the lines followed by these two sets of rows: every such
    row is committed, and no other. *)
Theorem promotion_two_levels env filePath d :
  let s := after_lines env filePath d in
  let d' := processFile env filePath d in
  status (ingestion_job d') = COMPLETED →
  historical_events d'
  = historical_events (db s) ++ first_part (db s) ++ second_part (db s)
  ∧ (∀ r p, r ∈ staging_events (db s) →
            parent_event_id r = Some p →
            p ∈ ids (historical_events (db s)) →
            r ∈ historical_events d')
  ∧ (∀ r r1 p, r ∈ staging_events (db s) →
               r1 ∈ staging_events (db s) →
               parent_event_id r = Some (event_id r1) →
               parent_event_id r1 = Some p →
               p ∈ ids (historical_events (db s)) →
               r ∈ historical_events d').
Proof.
  intros s d' Hc. apply processFile_completed in Hc as (_ & _ & h' & Hd & Hf).
  fold s in Hd, Hf. unfold d'. rewrite Hf. cbn [historical_events].
  apply deferredQuery_inr in Hd as ->. split; [done|]. split.
  - intros r p Hr Hp Hin. rewrite !elem_of_app. right; left.
    apply first_part_spec. eauto.
  - intros r r1 p Hr Hr1 Hp Hp1 Hin. rewrite !elem_of_app. right; right.
    apply second_part_spec. split; [done|]. exists r1. split; [|done].
    apply first_part_spec. eauto.
Qed.

Lemma NoDup_ids_inj (t : list Row) r r' :
  NoDup (ids t) → r ∈ t → r' ∈ t → event_id r' = event_id r → r' = r.
Proof.
  induction t as [|x t IH]; cbn; intros Hnd Hr Hr' Heq.
  - by apply elem_of_nil in Hr.
  - apply NoDup_cons in Hnd as [Hx Hnd].
    apply elem_of_cons in Hr as [->|Hr], Hr' as [->|Hr']; try done.
    + exfalso. apply Hx. rewrite <- Heq. by apply list_elem_of_fmap_2.
    + exfalso. apply Hx. rewrite Heq. by apply list_elem_of_fmap_2.
    + by apply IH.
Qed.

Lemma insertStaging_ids q st : ids (insertStaging q st) ⊆ ids st ++ ids [stored q].
Proof.
  unfold insertStaging. cbn zeta. case_bool_decide.
  - intros x Hx. apply elem_of_app. by left.
  - unfold ids. by rewrite fmap_app.
Qed.

Lemma insertStaging_NoDup q st : NoDup (ids st) → NoDup (ids (insertStaging q st)).
Proof.
  intros Hnd. unfold insertStaging. cbn zeta. case_bool_decide; [done|].
  unfold ids. rewrite fmap_app. apply NoDup_app. split; [done|]. split.
  - intros x Hx Hx'. cbn in Hx'. apply list_elem_of_singleton in Hx' as ->.
    done.
  - cbn. apply NoDup_singleton.
Qed.

Lemma processLines_staging_NoDup filePath s lines :
  NoDup (ids (staging_events (db s))) →
  NoDup (ids (staging_events (db (processLines filePath s lines)))).
Proof.
  revert s. induction lines as [|line lines IH]; intros s Hnd; [done|].
  rewrite processLines_cons. apply IH.
  destruct (processLine_cases filePath s line) as [_ Hc]. cbn zeta in Hc.
  destruct Hc as [(_ & _ & -> & _) | [(_ & _ & _ & _ & q & _ & _ & ->)
                 | (_ & _ & _ & -> & _)]]; try done.
  by apply insertStaging_NoDup.
Qed.

(** C2, as the code has it. No code reports a staged event that was not
    promoted. For a job that ends [COMPLETED]: a staged row that is not
    yet in the main store, and whose parent is neither in the main store
    nor a staged row promoted at the first level, is not committed and
    stays in [staging_events]; the error counter is the number
    of lines that the line loop rejected, [errors] has one entry for each
    of them, each tagged with the number of its line, so none for a
    staged event; and the lines put aside are counted as processed. *)
Theorem unresolved_staged_not_reported env created filePath h st :
  let s := after_lines env filePath
             {| historical_events := h; staging_events := st;
                ingestion_job := createIngestionJob created filePath |} in
  let d' := startIngestionJob env created filePath h st in
  NoDup (ids st) →
  status (ingestion_job d') = COMPLETED →
  (∀ r, r ∈ staging_events (db s) →
        event_id r ∉ ids (historical_events (db s)) →
        (∀ p, parent_event_id r = Some p →
              (p ∉ ids (historical_events (db s)))
              ∧ (p ∉ ids (first_part (db s)))) →
        (event_id r ∉ ids (historical_events d'))
        ∧ r ∈ staging_events d')
  ∧ error_lines (ingestion_job d') = localErrorCount s
  ∧ length (errors (ingestion_job d')) = localErrorCount s
  ∧ Forall (λ e, ∃ (n : nat) (m : string),
                   e = "Line " +:+ pretty n +:+ ": " +:+ m)
      (errors (ingestion_job d'))
  ∧ (processed_lines (ingestion_job d') + localErrorCount s)%nat
    = length (stream_lines (fileStream env)).
Proof.
  intros s d' Hnd Hc. unfold d', startIngestionJob in *.
  apply processFile_completed in Hc as (_ & _ & h' & Hd & Hf).
  fold s in Hd, Hf. rewrite Hf. cbn [historical_events staging_events
    ingestion_job finalUpdateQuery error_lines errors processed_lines].
  apply deferredQuery_inr in Hd as ->.
  assert (NoDup (ids (staging_events (db s)))) as Hnd'.
  { unfold s. rewrite after_lines_eq. by apply processLines_staging_NoDup. }
  destruct (after_lines_counts env filePath
              {| historical_events := h; staging_events := st;
                 ingestion_job := createIngestionJob created filePath |})
    as (Hn & Hs & He & Hl & _). fold s in Hn, Hs, He, Hl. cbn in He, Hl.
  split; [|split; [done|split; [done|split; [|lia]]]].
  - intros r Hr Hfresh Hpar. split; [|done].
    unfold ids. rewrite !fmap_app, !elem_of_app.
    (* two staged rows with one id are one row *)
    assert (∀ r', r' ∈ staging_events (db s) →
                  event_id r' = event_id r → r' = r) as Hinj.
    { intros r' Hr' Heq. by eapply NoDup_ids_inj. }
    intros [Hin | [Hin | Hin]]; [done| |];
      apply list_elem_of_fmap in Hin as (r' & Heq & Hr').
    + apply first_part_spec in Hr' as (Hr'' & p & Hp & Hin).
      rewrite (Hinj r') in Hp by done. by destruct (Hpar p Hp).
    + apply second_part_spec in Hr' as (Hr'' & r1 & Hr1 & Hp).
      rewrite (Hinj r') in Hp by done. destruct (Hpar _ Hp) as [_ Hno].
      apply Hno. by apply list_elem_of_fmap_2.
  - unfold s. rewrite after_lines_eq. by apply processLines_entries.
Qed.

End IngestionFacts.

(** * Properties of the insight service *)

(** ** The gap finder *)

Lemma scan_spec events (best : Gap.t) (seen : list (Row * Row)) :
  0 ≤ Gap.durationMinutes best →
  (∀ p, p ∈ seen → gap_minutes p ≤ Gap.durationMinutes best) →
  (0 < Gap.durationMinutes best →
   ∃ a b, (a, b) ∈ seen ∧ best = Gap.between a b) →
  let g := Gap.scan best events in
  0 ≤ Gap.durationMinutes g
  ∧ (∀ p, p ∈ seen ++ consecutive events →
          gap_minutes p ≤ Gap.durationMinutes g)
  ∧ (0 < Gap.durationMinutes g →
     ∃ a b, (a, b) ∈ seen ++ consecutive events ∧ g = Gap.between a b).
Proof.
  revert best seen.
  induction events as [|a [|b rest] IH]; intros best seen H0 Hmax Hwit.
  - cbn. rewrite app_nil_r. auto.
  - cbn. rewrite app_nil_r. auto.
  - cbn zeta.
    change (consecutive (a :: b :: rest))
      with ((a, b) :: consecutive (b :: rest)).
    replace (seen ++ (a, b) :: consecutive (b :: rest))
      with ((seen ++ [(a, b)]) ++ consecutive (b :: rest))
      by (by rewrite <- app_assoc).
    change (Gap.scan best (a :: b :: rest))
      with (if (Gap.durationMinutes best * 60 * 1000
                <? start_date b - end_date a)%Z
            then Gap.scan (Gap.between a b) (b :: rest)
            else Gap.scan best (b :: rest)).
    destruct (Gap.durationMinutes best * 60 * 1000 <? start_date b - end_date a)
      eqn:E.
    + apply Z.ltb_lt in E. apply (IH (Gap.between a b) (seen ++ [(a, b)])).
      * unfold Gap.between; cbn. apply Z.div_pos; lia.
      * unfold Gap.between; cbn. intros p [Hp|Hp]%elem_of_app.
        -- specialize (Hmax p Hp). etrans; [exact Hmax|].
           apply Z.div_le_lower_bound; lia.
        -- apply list_elem_of_singleton in Hp as ->. done.
      * intros _. exists a, b. split; [|done]. apply elem_of_app. right.
        by apply list_elem_of_singleton.
    + apply Z.ltb_ge in E. apply (IH best (seen ++ [(a, b)])).
      * done.
      * intros p [Hp|Hp]%elem_of_app; [auto|].
        apply list_elem_of_singleton in Hp as ->.
        unfold gap_minutes, gap_ms; cbn.
        apply Z.div_le_upper_bound; lia.
      * intros Hpos. destruct (Hwit Hpos) as (a' & b' & Hin & ->).
        exists a', b'. split; [|done]. apply elem_of_app. by left.
Qed.

(** The model of the sorted query gives the rows of the window in
    ascending order of their start dates. *)
Lemma insert_by_start_perm r l : insert_by_start r l ≡ₚ r :: l.
Proof.
  induction l as [|x l IH]; [done|]. cbn.
  destruct (start_date x <=? start_date r)%Z; [|done].
  rewrite IH. apply Permutation_swap.
Qed.

Lemma insert_by_start_sorted r l :
  StronglySorted (λ a b, start_date a ≤ start_date b) l →
  StronglySorted (λ a b, start_date a ≤ start_date b) (insert_by_start r l).
Proof.
  induction l as [|x l IH]; intros Hs.
  - repeat constructor.
  - apply StronglySorted_inv in Hs as [Hl Hx]. cbn.
    destruct (start_date x <=? start_date r)%Z eqn:E.
    + apply Z.leb_le in E. constructor; [auto|].
      rewrite insert_by_start_perm. constructor; [done|done].
    + apply Z.leb_gt in E. constructor; [by constructor|].
      constructor; [lia|]. eapply Forall_impl; [exact Hx|]. cbn. lia.
Qed.

Lemma order_from_spec acc l :
  StronglySorted (λ a b, start_date a ≤ start_date b) acc →
  StronglySorted (λ a b, start_date a ≤ start_date b)
    (foldl (λ acc r, insert_by_start r acc) acc l)
  ∧ foldl (λ acc r, insert_by_start r acc) acc l ≡ₚ acc ++ l.
Proof.
  revert acc. induction l as [|r l IH]; intros acc Hs; cbn.
  - by rewrite app_nil_r.
  - destruct (IH (insert_by_start r acc)) as [H1 H2];
      [by apply insert_by_start_sorted|].
    split; [done|]. rewrite H2, insert_by_start_perm. cbn [app].
    apply Permutation_middle.
Qed.

Lemma sorted_query h startDate endDate :
  sorted_window h startDate endDate
    (getSortedEventsInRange h startDate endDate).
Proof.
  unfold sorted_window, getSortedEventsInRange, order_by_start.
  destruct (order_from_spec [] (getEventsInRange h startDate endDate))
    as [Hs Hp]; [constructor|]. done.
Qed.

(** What the scan keeps, in whole minutes, whatever the rows: the pair it
    ends with is at least one minute apart and no pair is more whole
    minutes apart; it ends with none when no pair is a minute apart. *)
Lemma gap_in_whole_minutes events :
  let res := Gap.of_events events in
  match Gap.largestGap res with
  | Some g =>
      Gap.message res = "Largest temporal gap identified."
      ∧ ∃ a b, (a, b) ∈ consecutive events
               ∧ g = Gap.between a b
               ∧ 0 < gap_minutes (a, b)
               ∧ ∀ p, p ∈ consecutive events →
                      gap_minutes p ≤ gap_minutes (a, b)
  | None =>
      Gap.message res = Gap.no_gap_message
      ∧ ∀ p, p ∈ consecutive events → gap_minutes p ≤ 0
  end.
Proof.
  intros res. unfold res, Gap.of_events.
  destruct (length events <? 2)%nat eqn:Hlen.
  { cbn. split; [done|]. apply Nat.ltb_lt in Hlen.
    destruct events as [|a [|b rest]]; cbn in *; try lia;
      intros p Hp; by apply elem_of_nil in Hp. }
  destruct (scan_spec events Gap.initial []) as (H0 & Hmax & Hwit);
    [done| |cbn; lia|].
  { intros p Hp. by apply elem_of_nil in Hp. }
  cbn [app] in Hmax, Hwit.
  destruct (0 <? Gap.durationMinutes (Gap.scan Gap.initial events)) eqn:E; cbn.
  - apply Z.ltb_lt in E. split; [done|].
    destruct (Hwit E) as (a & b & Hin & Hg). exists a, b.
    rewrite Hg in E, Hmax. repeat split; try done.
  - apply Z.ltb_ge in E. split; [done|]. intros p Hp.
    specialize (Hmax p Hp). lia.
Qed.

(** The scan when the largest gap is [M] and no shorter gap is longer than
    [M] floored to minutes: as long as the pair kept is not one of gap [M],
    its whole minutes are below [M] and a pair of gap [M] is still to come;
    once a pair of gap [M] is kept, only another such pair replaces it. *)
Lemma scan_largest M events (best : Gap.t) (seen : list (Row * Row)) :
  (∀ p, p ∈ consecutive events →
        gap_ms p ≤ M ∧ (gap_ms p < M → gap_ms p ≤ M / 60000 * 60000)) →
  (Gap.durationMinutes best * 60 * 1000 < M
   ∧ ∃ p, p ∈ consecutive events ∧ gap_ms p = M)
  ∨ (∃ a b, (a, b) ∈ seen ∧ best = Gap.between a b ∧ gap_ms (a, b) = M) →
  ∃ a b, (a, b) ∈ seen ++ consecutive events
         ∧ Gap.scan best events = Gap.between a b
         ∧ gap_ms (a, b) = M.
Proof.
  revert best seen.
  induction events as [|a [|b rest] IH]; intros best seen Hall Hinv.
  - destruct Hinv as [(_ & p & Hp & _) | (a & b & Hin & -> & HM)].
    + by apply elem_of_nil in Hp.
    + exists a, b. by rewrite app_nil_r.
  - destruct Hinv as [(_ & p & Hp & _) | (a' & b & Hin & -> & HM)].
    + by apply elem_of_nil in Hp.
    + exists a', b. by rewrite app_nil_r.
  - change (consecutive (a :: b :: rest))
      with ((a, b) :: consecutive (b :: rest)) in *.
    replace (seen ++ (a, b) :: consecutive (b :: rest))
      with ((seen ++ [(a, b)]) ++ consecutive (b :: rest))
      by (by rewrite <- app_assoc).
    change (Gap.scan best (a :: b :: rest))
      with (if (Gap.durationMinutes best * 60 * 1000
                <? start_date b - end_date a)%Z
            then Gap.scan (Gap.between a b) (b :: rest)
            else Gap.scan best (b :: rest)).
    assert (∀ p, p ∈ consecutive (b :: rest) →
                 gap_ms p ≤ M ∧ (gap_ms p < M → gap_ms p ≤ M / 60000 * 60000))
      as Hall' by (intros p Hp; apply Hall; by right).
    destruct (Hall (a, b)) as [Hle Hslip]; [by left|].
    unfold gap_ms in Hle, Hslip; cbn [fst snd] in Hle, Hslip.
    pose proof (Z.mul_div_le (start_date b - end_date a) 60000 eq_refl) as Hfl.
    destruct (Gap.durationMinutes best * 60 * 1000 <? start_date b - end_date a)
      eqn:E.
    + apply Z.ltb_lt in E. apply (IH (Gap.between a b) (seen ++ [(a, b)]) Hall').
      destruct (decide (start_date b - end_date a = M)) as [HM | HM].
      * right. exists a, b. split; [|done]. apply elem_of_app. right. by left.
      * left. split; [unfold Gap.between; cbn; lia|].
        destruct Hinv as [(_ & p & Hp & HpM) | (a' & b' & _ & -> & HM')].
        -- exists p. split; [|done].
           apply elem_of_cons in Hp as [-> | Hp]; [done|done].
        -- exfalso. unfold Gap.between in E; cbn in E.
           unfold gap_ms in HM'; cbn [fst snd] in HM'. rewrite HM' in E. lia.
    + apply Z.ltb_ge in E. apply (IH best (seen ++ [(a, b)]) Hall').
      destruct Hinv as [(Hlt & p & Hp & HpM) | (a' & b' & Hin & -> & HM')].
      * left. split; [done|]. exists p. split; [|done].
        apply elem_of_cons in Hp as [-> | Hp]; [|done].
        exfalso. unfold gap_ms in HpM; cbn [fst snd] in HpM. lia.
      * right. exists a', b'. split; [|done]. apply elem_of_app. by left.
Qed.

(** C6, as the code has it by design. [events] is what the sorted query
    returns for the window, in whatever order it gives rows of equal
    start, and [findTemporalGaps] is [Gap.of_events] on that answer. A gap
    counts from one minute on: when no two consecutive events
    are a minute apart, as when fewer than two events qualify,
    [largestGap] is [null] with the no-gap message. When the largest gap
    between consecutive events is a minute or more, and every shorter gap
    is no longer than the largest one floored to whole minutes, the
    answer is a consecutive pair whose gap is the largest, with the gap
    floored to minutes, the bounding instants and the two event
    summaries; it is the pair [(a, b)] when no other pair is as far
    apart. Nothing is said of a window in which a shorter gap exceeds the
    largest one floored to minutes. *)
Theorem largest_gap_from_a_minute h startDate endDate events :
  sorted_window h startDate endDate events →
  let res := Gap.of_events events in
  ((∀ p, p ∈ consecutive events → gap_ms p < 60000) →
   Gap.largestGap res = None ∧ Gap.message res = Gap.no_gap_message)
  ∧ ∀ a b,
      (a, b) ∈ consecutive events →
      60000 ≤ gap_ms (a, b) →
      (∀ p, p ∈ consecutive events → gap_ms p ≤ gap_ms (a, b)) →
      (∀ p, p ∈ consecutive events → gap_ms p < gap_ms (a, b) →
            gap_ms p ≤ gap_minutes (a, b) * 60000) →
      Gap.message res = "Largest temporal gap identified."
      ∧ (∃ a' b', (a', b') ∈ consecutive events
                  ∧ gap_ms (a', b') = gap_ms (a, b)
                  ∧ Gap.largestGap res = Some (Gap.between a' b'))
      ∧ ((∀ p, p ∈ consecutive events → gap_ms p = gap_ms (a, b) →
               p = (a, b)) →
         Gap.largestGap res = Some (Gap.between a b)).
Proof.
  intros _ res. split.
  - intros Hshort.
    pose proof (gap_in_whole_minutes events) as Hw.
    cbn zeta in Hw. fold res in Hw.
    destruct (Gap.largestGap res) as [g|]; [|by destruct Hw].
    exfalso. destruct Hw as (_ & a & b & Hin & _ & Hpos & _).
    specialize (Hshort _ Hin). unfold gap_minutes in Hpos.
    assert (gap_ms (a, b) / 60000 ≤ 0); [|lia].
    apply Z.lt_succ_r, Z.div_lt_upper_bound; lia.
  - intros a b Hin Hmin Hmax Hslip.
    assert (∃ a' b', (a', b') ∈ consecutive events
                     ∧ Gap.scan Gap.initial events = Gap.between a' b'
                     ∧ gap_ms (a', b') = gap_ms (a, b))
      as (a' & b' & Hin' & Hscan & HM).
    { destruct (scan_largest (gap_ms (a, b)) events Gap.initial [])
        as (a' & b' & Hin' & Hscan & HM); [|left|by eauto].
      - intros p Hp. split; [by apply Hmax|]. by apply Hslip.
      - split; [cbn; lia|]. eauto. }
    assert (res = {| Gap.largestGap := Some (Gap.between a' b');
                     Gap.message := "Largest temporal gap identified." |})
      as Hres.
    { unfold res, Gap.of_events.
      assert ((length events <? 2)%nat = false) as ->.
      { apply Nat.ltb_ge. destruct events as [|x [|y rest]];
          [by apply elem_of_nil in Hin|by apply elem_of_nil in Hin|cbn; lia]. }
      rewrite Hscan.
      assert ((0 <? Gap.durationMinutes (Gap.between a' b'))%Z = true) as ->;
        [|done].
      apply Z.ltb_lt. unfold Gap.between; cbn.
      unfold gap_ms in HM, Hmin; cbn [fst snd] in HM, Hmin. rewrite HM.
      apply Z.div_str_pos. lia. }
    rewrite Hres. cbn. split; [done|]. split; [by eauto|].
    intros Huniq. pose proof (Huniq (a', b') Hin' HM) as [= -> ->]. done.
Qed.

(** ** The overlap detector *)

Lemma overlap_minutes_comm x y : overlap_minutes x y = overlap_minutes y x.
Proof. unfold overlap_minutes. by rewrite Z.min_comm, Z.max_comm. Qed.

Lemma append_nil_l (s : string) : "" +:+ s = s.
Proof. reflexivity. Qed.

Lemma append_cons (x : ascii) (a s : string) :
  String x a +:+ s = String x (a +:+ s).
Proof. reflexivity. Qed.

Lemma bar_split (a b c d : string) :
  no_bar a = true → no_bar c = true →
  a +:+ "|" +:+ b = c +:+ "|" +:+ d → a = c ∧ b = d.
Proof.
  revert c. induction a as [|x a IH]; intros [|y c];
    repeat (rewrite append_nil_l || rewrite append_cons); cbn [no_bar].
  - intros _ _ [= ->]. done.
  - intros _ [Hc _]%andb_true_iff [= <- _]. done.
  - intros [Ha _]%andb_true_iff _ [= -> _]. done.
  - intros [_ Ha]%andb_true_iff [_ Hc]%andb_true_iff [= -> He].
    destruct (IH c Ha Hc He) as [-> ->]. done.
Qed.

Lemma pairKey_comm a b : pairKey a b = pairKey b a.
Proof.
  unfold pairKey.
  destruct (String.leb a b) eqn:Hab, (String.leb b a) eqn:Hba; try done.
  - by rewrite (String.leb_antisym _ _ Hab Hba).
  - destruct (String.leb_total a b); congruence.
Qed.

Lemma pairKey_inj a b c d :
  no_bar a = true → no_bar b = true → no_bar c = true → no_bar d = true →
  pairKey a b = pairKey c d → (a = c ∧ b = d) ∨ (a = d ∧ b = c).
Proof.
  intros Ha Hb Hc Hd. unfold pairKey.
  destruct (String.leb a b), (String.leb c d); cbn;
    intros [-> ->]%bar_split; auto.
Qed.

Lemma reports_key a b o : reports a b o → key_of o = pairKey a b.
Proof.
  unfold reports, key_of. intros [[-> ->] | [-> ->]]; [done|].
  apply pairKey_comm.
Qed.

Lemma key_reports events a b o :
  Forall (λ r, no_bar (event_id r) = true) events →
  report_of events o → no_bar a = true → no_bar b = true →
  key_of o = pairKey a b → reports a b o.
Proof.
  intros Hbar (e & x & He & Hx & -> & _) Ha Hb. unfold key_of, reports. cbn.
  rewrite Forall_forall in Hbar.
  intros [[-> ->] | [-> ->]]%pairKey_inj; auto.
Qed.

(** The text of a UUID holds no [|]. *)

Lemma is_hex_no_bar a : Js.is_hex a = true → Ascii.eqb a "|" = false.
Proof. destruct a as [[] [] [] [] [] [] [] []]; vm_compute; congruence. Qed.

Lemma hex_run_no_bar n s r :
  Js.hex_run n s = Some r → no_bar r = true → no_bar s = true.
Proof.
  revert s. induction n as [|n IH]; intros s; cbn.
  - by intros [= ->].
  - destruct s as [|a s]; [done|].
    destruct (Js.is_hex a) eqn:Ha; [|done]. intros Hr Hnb.
    cbn. rewrite (is_hex_no_bar a Ha). cbn. by apply IH.
Qed.

Lemma dash_no_bar s r : Js.dash s = Some r → no_bar r = true → no_bar s = true.
Proof.
  destruct s as [|a s]; [done|]. unfold Js.dash.
  destruct a as [[] [] [] [] [] [] [] []]; try done.
  by intros [= ->].
Qed.

Lemma hex_groups_no_bar gs s r :
  Js.hex_groups gs s = Some r → no_bar r = true → no_bar s = true.
Proof.
  revert s. induction gs as [|g gs IH]; intros s.
  - cbn. by intros [= ->].
  - destruct gs as [|g' gs].
    + cbn. apply hex_run_no_bar.
    + change (Js.hex_groups (g :: g' :: gs) s)
        with (match Js.hex_run g s with
              | Some r =>
                  match Js.dash r with
                  | Some r' => Js.hex_groups (g' :: gs) r'
                  | None => None
                  end
              | None => None
              end).
      destruct (Js.hex_run g s) as [r1|] eqn:H1; [|done].
      destruct (Js.dash r1) as [r2|] eqn:H2; [|done].
      intros H3 Hr. eapply hex_run_no_bar; [exact H1|].
      eapply dash_no_bar; [exact H2|]. by apply IH.
Qed.

Lemma UUID_no_bar s : UUID_REGEX_test s = true → no_bar s = true.
Proof.
  unfold UUID_REGEX_test.
  destruct (Js.hex_groups _ s) as [[|]|] eqn:H; try done.
  intros _. by eapply hex_groups_no_bar.
Qed.

(** *** The inner loop *)

Lemma pair_step_spec events e a st :
  e ∈ events → a ∈ events → reported_inv events st →
  let st' := pair_step e st a in
  reported_inv events st'
  ∧ (∃ more, st'.1 = st.1 ++ more)
  ∧ (0 < overlap_minutes e a →
     ∃ o, o ∈ st'.1 ∧ key_of o = pairKey (event_id e) (event_id a)).
Proof.
  intros He Ha (Hk & Hnd & Hall). unfold pair_step. cbn zeta.
  case_bool_decide as Hin.
  - split; [done|]. split; [exists []; by rewrite app_nil_r|].
    intros _. rewrite Hk in Hin.
    apply list_elem_of_fmap in Hin as (o & Ho & Hin). eauto.
  - fold (overlap_minutes e a).
    destruct (0 <? overlap_minutes e a) eqn:E.
    + apply Z.ltb_lt in E. fold (mk_report e a). cbn [fst snd]. split.
      * unfold reported_inv. cbn [fst snd]. split; [|split].
        -- rewrite Hk, fmap_app. done.
        -- apply NoDup_app. split; [done|]. split; [|apply NoDup_singleton].
           intros k Hk' ->%list_elem_of_singleton. done.
        -- apply Forall_app. split; [done|]. apply Forall_singleton.
           exists e, a. done.
      * split; [eauto|]. intros _. exists (mk_report e a). split; [|done].
        apply elem_of_app. right. by apply list_elem_of_singleton.
    + apply Z.ltb_ge in E. split; [done|].
      split; [exists []; by rewrite app_nil_r|]. lia.
Qed.

Lemma pair_loop_spec events e acts st :
  e ∈ events → (∀ a, a ∈ acts → a ∈ events) → reported_inv events st →
  let st' := foldl (pair_step e) st acts in
  reported_inv events st'
  ∧ (∃ more, st'.1 = st.1 ++ more)
  ∧ (∀ a, a ∈ acts → 0 < overlap_minutes e a →
          ∃ o, o ∈ st'.1 ∧ key_of o = pairKey (event_id e) (event_id a)).
Proof.
  intros He. revert st. induction acts as [|a acts IH]; intros st Hacts Hinv.
  - cbn. split; [done|]. split; [exists []; by rewrite app_nil_r|].
    intros a Ha. by apply elem_of_nil in Ha.
  - cbn zeta. cbn [foldl].
    destruct (pair_step_spec events e a st) as (Hinv1 & [m1 Hm1] & Hc1);
      [done|apply Hacts; left|done|].
    destruct (IH (pair_step e st a)) as (Hinv2 & [m2 Hm2] & Hc2);
      [intros; apply Hacts; by right|done|].
    split; [done|]. split.
    + exists (m1 ++ m2). rewrite Hm2, Hm1. by rewrite app_assoc.
    + intros a' [->|Ha']%elem_of_cons Hpos; [|by apply Hc2].
      destruct (Hc1 Hpos) as (o & Ho & Hkey). exists o. split; [|done].
      rewrite Hm2. apply elem_of_app. by left.
Qed.

(** *** The sweep *)

Lemma elem_of_points events p :
  p ∈ events ≫= points_of ↔
  ∃ e, e ∈ events ∧ (p = start_point e ∨ p = end_point e).
Proof.
  rewrite list_elem_of_bind. unfold points_of. split.
  - intros (e & Hp & He). exists e. split; [done|].
    apply elem_of_cons in Hp as [->|Hp]; [by left|].
    apply list_elem_of_singleton in Hp as ->. by right.
  - intros (e & He & [-> | ->]); exists e; (split; [|done]).
    + left.
    + right; left.
Qed.

Lemma elem_of_set_add {A} `{EqDecision A} (x y : A) (s : list A) :
  y ∈ set_add x s ↔ y = x ∨ y ∈ s.
Proof.
  unfold set_add. case_bool_decide as Hx.
  - split; [auto|]. by intros [->|].
  - rewrite elem_of_app, list_elem_of_singleton. tauto.
Qed.

Lemma elem_of_set_delete {A} `{EqDecision A} (x y : A) (s : list A) :
  y ∈ set_delete x s ↔ y ≠ x ∧ y ∈ s.
Proof. unfold set_delete. by rewrite list_elem_of_filter. Qed.

Lemma sweep_step_spec events pre s p :
  p ∈ events ≫= points_of →
  sweep_inv events pre s →
  let s' := sweep_step s p in
  sweep_inv events (pre ++ [p]) s'
  ∧ (∃ more, overlappingPairs s' = overlappingPairs s ++ more)
  ∧ (type p = start →
     ∀ x, x ∈ activeEvents s → 0 < overlap_minutes (event p) x →
          ∃ o, o ∈ overlappingPairs s'
               ∧ key_of o = pairKey (event_id (event p)) (event_id x)).
Proof.
  intros (e & He & Hp)%elem_of_points (Hact & Hlive & Hrep).
  unfold sweep_step. destruct Hp as [-> | ->]; cbn [type event].
  - destruct (pair_loop_spec events e (activeEvents s)
                (overlappingPairs s, reportedPairs s))
      as (Hrep' & Hmore & Hc); [done..|].
    cbn zeta. cbn [overlappingPairs activeEvents reportedPairs].
    split; [|split; [done|]].
    + split; [|split].
      * intros e' [->|He']%elem_of_set_add; auto.
      * intros e' He' [Hs|Hs]%elem_of_app Hend; apply elem_of_set_add.
        -- right. apply Hlive; [done..|]. intros Hin. apply Hend.
           apply elem_of_app. by left.
        -- apply list_elem_of_singleton in Hs. left.
           by injection Hs.
      * by destruct (foldl _ _ _).
    + intros _ x Hx Hpos. by apply Hc.
  - cbn zeta. cbn [overlappingPairs activeEvents reportedPairs].
    split; [|split; [exists []; by rewrite app_nil_r|done]].
    split; [|split; [|done]].
    + intros e' [_ He']%elem_of_set_delete. auto.
    + intros e' He' [Hs|Hs]%elem_of_app Hend.
      * apply elem_of_set_delete. split.
        -- intros ->. apply Hend. apply elem_of_app. right.
           by apply list_elem_of_singleton.
        -- apply Hlive; [done..|]. intros Hin. apply Hend.
           apply elem_of_app. by left.
      * by apply list_elem_of_singleton in Hs.
Qed.

Lemma sweep_run events pre post s :
  (∀ p, p ∈ post → p ∈ events ≫= points_of) →
  sweep_inv events pre s →
  sweep_inv events (pre ++ post) (foldl sweep_step s post)
  ∧ ∃ more, overlappingPairs (foldl sweep_step s post)
            = overlappingPairs s ++ more.
Proof.
  revert pre s. induction post as [|p post IH]; intros pre s Hpts Hinv.
  - cbn. rewrite app_nil_r. split; [done|]. exists []. by rewrite app_nil_r.
  - cbn [foldl].
    destruct (sweep_step_spec events pre s p) as (Hinv1 & [m1 Hm1] & _);
      [apply Hpts; left|done|].
    destruct (IH (pre ++ [p]) (sweep_step s p)) as (Hinv2 & [m2 Hm2]);
      [intros; apply Hpts; by right|done|].
    rewrite <- app_assoc in Hinv2. split; [done|].
    exists (m1 ++ m2). rewrite Hm2, Hm1. by rewrite app_assoc.
Qed.

Lemma sweep_inv_initial events :
  sweep_inv events []
    {| overlappingPairs := []; activeEvents := []; reportedPairs := [] |}.
Proof.
  split; [|split].
  - intros e He. by apply elem_of_nil in He.
  - intros e _ He. by apply elem_of_nil in He.
  - split; [done|]. split; [apply NoDup_nil_2|done].
Qed.

(** When [y] starts after [x] has, and they overlap by a minute or more,
    the pair is reported. *)
Lemma sweep_reports_later events l1 l2 x y :
  (∀ p, p ∈ l1 ++ start_point y :: l2 → p ∈ events ≫= points_of) →
  StronglySorted (λ a b, time a ≤ time b) (l1 ++ start_point y :: l2) →
  x ∈ events → y ∈ events → start_point x ∈ l1 →
  0 < overlap_minutes y x →
  ∃ o, o ∈ overlappingPairs (sweep (l1 ++ start_point y :: l2))
       ∧ key_of o = pairKey (event_id y) (event_id x).
Proof.
  intros Hpts Hsorted Hx Hy Hsx Hpos. unfold sweep. rewrite foldl_app.
  cbn [foldl].
  destruct (sweep_run events [] l1 _
              ltac:(intros; apply Hpts, elem_of_app; by left)
              (sweep_inv_initial events)) as [Hinv1 _].
  cbn [app] in Hinv1.
  set (s1 := foldl sweep_step _ l1) in *.
  assert (x ∈ activeEvents s1) as Hact.
  { destruct Hinv1 as (_ & Hlive & _). apply Hlive; [done..|].
    intros Hend.
    pose proof (StronglySorted_app_1_elem_of _ _ _ _ _ Hsorted Hend
                  ltac:(left)) as Hle. cbn in Hle.
    unfold overlap_minutes in Hpos.
    assert (Z.min (end_date y) (end_date x)
            - Z.max (start_date y) (start_date x) ≤ 0) as Hneg by lia.
    apply (Z.div_le_mono _ _ 60000) in Hneg; [|lia].
    rewrite Z.div_0_l in Hneg by lia. lia. }
  destruct (sweep_step_spec events l1 s1 (start_point y))
    as (Hinv2 & _ & Hc);
    [apply Hpts, elem_of_app; right; left|done|].
  destruct (Hc eq_refl x Hact Hpos) as (o & Ho & Hkey).
  destruct (sweep_run events (l1 ++ [start_point y]) l2
              (sweep_step s1 (start_point y))) as [_ [more Hmore]];
    [intros; apply Hpts, elem_of_app; right; by right|done|].
  exists o. split; [|done]. rewrite Hmore. apply elem_of_app. by left.
Qed.

(** *** The sort of the points *)

Lemma insert_point_perm x l : insert_point x l ≡ₚ x :: l.
Proof.
  induction l as [|y l IH]; cbn; [done|].
  destruct (compare_points x y <? 0); [done|].
  rewrite IH. apply Permutation_swap.
Qed.

Lemma sort_points_perm l : sort_points l ≡ₚ l.
Proof.
  induction l as [|x l IH]; cbn; [done|].
  rewrite insert_point_perm. by rewrite IH.
Qed.

Lemma insert_point_sorted x l :
  StronglySorted (λ a b, time a ≤ time b) l →
  StronglySorted (λ a b, time a ≤ time b) (insert_point x l).
Proof.
  induction 1 as [|y l Hl IH Hy]; cbn.
  - repeat constructor.
  - unfold compare_points at 1. cbn zeta.
    destruct (time x - time y =? 0) eqn:E0;
      [apply Z.eqb_eq in E0|apply Z.eqb_neq in E0].
    + destruct (type x); cbn.
      * constructor; [by constructor|]. constructor; [lia|].
        eapply Forall_impl; [exact Hy|]. cbn. intros; lia.
      * constructor; [done|]. rewrite insert_point_perm.
        constructor; [lia|done].
    + destruct (time x - time y <? 0) eqn:E;
        [apply Z.ltb_lt in E|apply Z.ltb_ge in E].
      * constructor; [by constructor|]. constructor; [lia|].
        eapply Forall_impl; [exact Hy|]. cbn. intros; lia.
      * constructor; [done|]. rewrite insert_point_perm.
        constructor; [lia|done].
Qed.

Lemma sort_points_sorted l :
  StronglySorted (λ a b, time a ≤ time b) (sort_points l).
Proof.
  induction l as [|x l IH]; cbn; [constructor|].
  by apply insert_point_sorted.
Qed.

(** *** Counting the reports of a pair *)

Lemma filter_none {A} (P : A → Prop) `{∀ x, Decision (P x)} (l : list A) :
  (∀ o, o ∈ l → ¬ P o) → filter P l = [].
Proof.
  induction l as [|o l IH]; intros Hno; [done|].
  rewrite filter_cons_False by (apply Hno; left).
  apply IH. intros o' Ho'. apply Hno. by right.
Qed.

Lemma filter_length_le_1 {A B} `{EqDecision B} (f : A → B) (P : A → Prop)
    `{∀ x, Decision (P x)} (k : B) (l : list A) :
  NoDup (f <$> l) → (∀ o, o ∈ l → P o → f o = k) →
  (length (filter P l) ≤ 1)%nat.
Proof.
  induction l as [|o l IH]; [cbn; lia|]. rewrite fmap_cons.
  intros [Ho Hnd]%NoDup_cons Hk. rewrite filter_cons.
  assert (length (filter P l) ≤ 1)%nat as Hl.
  { apply IH; [done|]. intros o' Ho'. apply Hk. by right. }
  destruct (decide (P o)) as [HP|]; [|done]. cbn.
  assert (filter P l = []) as ->; [|cbn; lia].
  apply filter_none. intros o' Ho' HP'.
  apply Ho. apply list_elem_of_fmap. exists o'. split; [|done].
  rewrite (Hk o) by (done || left). symmetry. apply Hk; [by right|done].
Qed.

Lemma filter_length_ge_1 {A} (P : A → Prop) `{∀ x, Decision (P x)} o
    (l : list A) :
  o ∈ l → P o → (1 ≤ length (filter P l))%nat.
Proof.
  intros Ho HP.
  assert (o ∈ filter P l) as Hin by (by apply list_elem_of_filter).
  destruct (filter P l); [by apply elem_of_nil in Hin|cbn; lia].
Qed.

Lemma filter_length_0 {A} (P : A → Prop) `{∀ x, Decision (P x)} (l : list A) :
  (∀ o, o ∈ l → ¬ P o) → length (filter P l) = 0%nat.
Proof.
  intros Hno. by rewrite filter_none.
Qed.

(** A report of the pair of [x] and [y] was made for [x] and [y]. *)
Lemma reports_rows events x y o :
  NoDup (ids events) → x ∈ events → y ∈ events →
  report_of events o → reports (event_id x) (event_id y) o →
  (o = mk_report x y ∨ o = mk_report y x) ∧ 0 < overlap_minutes x y.
Proof.
  intros Hnd Hx Hy (e & a & He & Ha & -> & Hpos). unfold reports. cbn.
  intros [[H1 H2] | [H1 H2]].
  - apply (NoDup_ids_inj events x e) in H1 as ->; [|done..].
    apply (NoDup_ids_inj events y a) in H2 as ->; [|done..]. auto.
  - apply (NoDup_ids_inj events y e) in H1 as ->; [|done..].
    apply (NoDup_ids_inj events x a) in H2 as ->; [|done..].
    rewrite overlap_minutes_comm. auto.
Qed.

(** The sweep over the points of [events] in any order by time. *)
Lemma sweep_pairs events pts x y :
  NoDup (ids events) →
  Forall (λ r, no_bar (event_id r) = true) events →
  pts ≡ₚ events ≫= points_of →
  StronglySorted (λ a b, time a ≤ time b) pts →
  x ∈ events → y ∈ events → event_id x ≠ event_id y →
  let out := overlappingPairs (sweep pts) in
  times_reported (event_id x) (event_id y) out
  = (if (0 <? overlap_minutes x y)%Z then 1%nat else 0%nat)
  ∧ ∀ o, o ∈ out → reports (event_id x) (event_id y) o →
         overlap_duration_minutes o = overlap_minutes x y.
Proof.
  intros Hnd Hbar Hperm Hsorted Hx Hy Hne out.
  assert (∀ p, p ∈ pts → p ∈ events ≫= points_of) as Hpts.
  { intros p Hp. by rewrite <- Hperm. }
  destruct (sweep_run events [] pts _ Hpts (sweep_inv_initial events))
    as [(_ & _ & Hk & Hkeys & Hall) _].
  cbn [app fst snd] in Hk, Hkeys, Hall. fold (sweep pts) in Hk, Hkeys, Hall.
  fold out in Hk, Hall. rewrite Hk in Hkeys. rewrite Forall_forall in Hall.
  pose proof Hbar as Hbar'. rewrite Forall_forall in Hbar'.
  split.
  - unfold times_reported.
    destruct (0 <? overlap_minutes x y) eqn:E;
      [apply Z.ltb_lt in E|apply Z.ltb_ge in E].
    + apply Nat.le_antisymm.
      { eapply (filter_length_le_1 key_of); [done|].
        intros o _. apply reports_key. }
      assert (∃ o, o ∈ out ∧ key_of o = pairKey (event_id x) (event_id y))
        as (o & Ho & Hkey).
      { assert (start_point x ∈ pts) as Hsx.
        { rewrite Hperm. apply elem_of_points. eauto. }
        assert (start_point y ∈ pts) as Hsy.
        { rewrite Hperm. apply elem_of_points. eauto. }
        apply list_elem_of_split in Hsy as (l1 & l2 & Heq). subst pts.
        apply elem_of_app in Hsx as [Hsx | Hsx].
        - rewrite pairKey_comm. unfold out.
          apply (sweep_reports_later events); try done.
          by rewrite overlap_minutes_comm.
        - apply elem_of_cons in Hsx as [Heq | Hsx].
          { assert (x = y) by (by injection Heq). congruence. }
          apply list_elem_of_split in Hsx as (l3 & l4 & ->).
          unfold out. revert Hpts Hsorted.
          replace (l1 ++ start_point y :: l3 ++ start_point x :: l4)
            with ((l1 ++ start_point y :: l3) ++ start_point x :: l4)
            by (by rewrite <- app_assoc).
          intros Hpts Hsorted.
          apply (sweep_reports_later events); try done.
          apply elem_of_app. right. left. }
      eapply filter_length_ge_1; [exact Ho|].
      eapply key_reports; eauto.
    + apply filter_length_0. intros o Ho Hrep.
      destruct (reports_rows events x y o) as [_ Hpos]; auto. lia.
  - intros o Ho Hrep.
    destruct (reports_rows events x y o) as [[-> | ->] _]; auto.
    cbn. apply overlap_minutes_comm.
Qed.

Lemma NoDup_ids_filter (P : Row → Prop) `{∀ r, Decision (P r)} (t : list Row) :
  NoDup (ids t) → NoDup (ids (filter P t)).
Proof.
  induction t as [|r t IH]; [done|]. unfold ids in *. rewrite fmap_cons.
  intros [Hr Hnd]%NoDup_cons. rewrite filter_cons.
  destruct (decide (P r)); [|auto]. cbn. apply NoDup_cons. split; [|auto].
  intros (r' & Heq & [_ Hin]%list_elem_of_filter)%list_elem_of_fmap.
  apply Hr. rewrite Heq. by apply list_elem_of_fmap_2.
Qed.

(** C5. Two different events of the window are reported as a pair once
    when their overlap floored to whole minutes is positive, and not at all
    otherwise; the reported duration is that floored overlap. The store
    keeps its primary key and its ids are UUIDs. *)
Theorem overlap_reported_once_iff_positive h startDate endDate x y :
  NoDup (ids h) →
  Forall (λ r, UUID_REGEX_test (event_id r) = true) h →
  x ∈ getEventsInRange h startDate endDate →
  y ∈ getEventsInRange h startDate endDate →
  event_id x ≠ event_id y →
  let out := findOverlappingEvents h startDate endDate in
  times_reported (event_id x) (event_id y) out
  = (if (0 <? overlap_minutes x y)%Z then 1%nat else 0%nat)
  ∧ ∀ o, o ∈ out → reports (event_id x) (event_id y) o →
         overlap_duration_minutes o = overlap_minutes x y.
Proof.
  intros Hnd Hbar Hx Hy Hne. unfold findOverlappingEvents, overlapping_of.
  set (events := getEventsInRange h startDate endDate) in *.
  assert ((length events <? 2)%nat = false) as ->.
  { apply Nat.ltb_ge. destruct events as [|a [|b rest]]; cbn; try lia.
    - by apply elem_of_nil in Hx.
    - apply list_elem_of_singleton in Hx, Hy. congruence. }
  apply (sweep_pairs events); try done.
  - by apply NoDup_ids_filter.
  - unfold events, getEventsInRange. rewrite Forall_forall in Hbar |- *.
    intros r [_ Hr]%list_elem_of_filter. by apply UUID_no_bar, Hbar.
  - apply sort_points_perm.
  - apply sort_points_sorted.
Qed.

(** ** The influence path finder *)

(** *** Sets in insertion order *)

Lemma NoDup_set_add {A} `{EqDecision A} (x : A) (s : list A) :
  NoDup s → NoDup (set_add x s).
Proof.
  intros Hs. unfold set_add. case_bool_decide as Hx; [done|].
  apply NoDup_app. split; [done|]. split; [|apply NoDup_singleton].
  intros y Hy ->%list_elem_of_singleton. done.
Qed.

Lemma NoDup_set_delete {A} `{EqDecision A} (x : A) (s : list A) :
  NoDup s → NoDup (set_delete x s).
Proof. apply NoDup_filter. Qed.

Lemma length_set_delete {A} `{EqDecision A} (x : A) (s : list A) :
  NoDup s → x ∈ s → length s = S (length (set_delete x s)).
Proof.
  unfold set_delete. induction s as [|y s IH]; intros Hnd Hx.
  - by apply elem_of_nil in Hx.
  - apply NoDup_cons in Hnd as [Hy Hnd]. rewrite filter_cons.
    destruct (decide (y ≠ x)) as [Hne|Heq].
    + cbn. f_equal. apply IH; [done|].
      apply elem_of_cons in Hx as [->|Hx]; done.
    + apply dec_stable in Heq as ->. cbn. f_equal.
      assert (filter (λ y, y ≠ x) s = s) as ->; [|done].
      clear IH Hx Hnd. induction s as [|z s IH]; [done|].
      rewrite filter_cons_True by (intros ->; apply Hy; left).
      f_equal. apply IH. intros Hin. apply Hy. by right.
Qed.

Lemma filter_ext_in {A} (P Q : A → Prop) `{∀ x, Decision (P x)}
    `{∀ x, Decision (Q x)} (l : list A) :
  (∀ w, w ∈ l → (P w ↔ Q w)) → filter P l = filter Q l.
Proof.
  induction l as [|y l IH]; intros Hext; [done|]. rewrite !filter_cons.
  rewrite IH by (intros w Hw; apply Hext; by right).
  assert (P y ↔ Q y) as Hy by (apply Hext; left).
  destruct (decide (P y)) as [HP|HP], (decide (Q y)) as [HQ|HQ]; tauto || done.
Qed.

(** Narrowing a filter by one element of a list without repetition. *)
Lemma filter_remove_one {A} (P Q : A → Prop)
    `{∀ x, Decision (P x)} `{∀ x, Decision (Q x)} (v : A) (l : list A) :
  NoDup l → v ∈ l → P v → (∀ w, Q w ↔ P w ∧ w ≠ v) →
  length (filter P l) = S (length (filter Q l)).
Proof.
  intros Hnd Hv HP HQ. induction l as [|y l IH].
  - by apply elem_of_nil in Hv.
  - apply NoDup_cons in Hnd as [Hy Hnd]. rewrite !filter_cons.
    apply elem_of_cons in Hv as [<-|Hv].
    + rewrite decide_True by done.
      rewrite (decide_False (P:=Q v)) by (rewrite HQ; tauto).
      cbn. f_equal. f_equal. apply filter_ext_in.
      intros w Hw. rewrite HQ. split; [|tauto]. intros HPw. split; [done|].
      by intros ->.
    + assert (y ≠ v) as Hne by (by intros ->).
      destruct (decide (P y)) as [HPy|HPy].
      * rewrite (decide_True (P:=Q y)) by (rewrite HQ; tauto).
        cbn. f_equal. by apply IH.
      * rewrite (decide_False (P:=Q y)) by (rewrite HQ; tauto).
        by apply IH.
Qed.




(** *** The search on a tree *)

Section Search.

Import Influence.

Context (eventMap : gmap string Node.t)
        (childrenMap : gmap string (list string)).
Context (V : list string) (source target : string) (cost : string → Z).

Local Abbreviation children u := (default [] (childrenMap !! u)).
Local Abbreviation dur v :=
  (default 0 (Node.duration_minutes <$> eventMap !! v)).
Local Abbreviation inv := (search_inv childrenMap V source cost).
Local Abbreviation settled := (settled_inv childrenMap V).

Hypothesis HV : NoDup V.
Hypothesis Hkids : ∀ u v, u ∈ V → v ∈ children u → v ∈ V ∧ v ≠ source.
Hypothesis Hcost : ∀ u v, u ∈ V → v ∈ children u → cost v = cost u + dur v.


Lemma dist_reached s v : inv s → dist s v ≠ Infinity → dist s v = Fin (cost v).
Proof. intros (H1 & _) Hv. by destruct (H1 v). Qed.

Lemma dist_relaxed s v u x w :
  dist {| distances := <[v := x]> (distances s);
          previousNodes := <[v := u]> (previousNodes s);
          pq := set_add v (pq s) |} w
  = if decide (v = w) then x else dist s w.
Proof. unfold dist. cbn. rewrite lookup_insert. by case_decide. Qed.

(** Relaxing the link from a reached node [u] to its child [v]: an
    unreached child becomes reached at its cost and joins the frontier, a
    reached one is left alone. *)
Lemma relax_spec s u v :
  inv s → u ∈ V → dist s u ≠ Infinity → v ∈ children u →
  let s' := relax eventMap u s v in
  inv s'
  ∧ potential V s' = potential V s
  ∧ (∀ w, dist s w ≠ Infinity → dist s' w ≠ Infinity)
  ∧ (∀ w, dist s' w ≠ Infinity → dist s w ≠ Infinity ∨ w ∈ pq s')
  ∧ dist s' v ≠ Infinity
  ∧ (∀ w, w ∈ pq s → w ∈ pq s').
Proof.
  intros Hinv Hu Hdu Hv.
  pose proof (dist_reached s u Hinv Hdu) as Hdu'.
  destruct (Hkids u v Hu Hv) as [HvV Hvs].
  pose proof Hinv as (H1 & H2 & H3 & H4 & H5 & H6 & H7).
  unfold relax. rewrite Hdu'. cbn [add]. rewrite <- (Hcost u v Hu Hv).
  destruct (H1 v) as [Hdv | Hdv]; rewrite Hdv; cbn [lt].
  2: { rewrite Z.ltb_irrefl. rewrite Hdv.
       split; [done|]. split; [done|]. split; [auto|]. split; [auto|].
       split; [congruence|auto]. }
  assert (v ∉ pq s) as Hvpq.
  { intros Hin. by destruct (H6 v Hin). }
  set (s' := {| distances := _ |}).
  assert (∀ w, dist s' w = if decide (v = w) then Fin (cost v) else dist s w)
    as Hd by apply dist_relaxed.
  assert (pq s' = pq s ++ [v]) as Hpq.
  { unfold s'. cbn. unfold set_add. by rewrite bool_decide_false. }
  split; [|split; [|split; [|split; [|split]]]].
  - split; [|split; [|split; [|split; [|split; [|split]]]]].
    + intros w. rewrite Hd. case_decide; [subst; by right|apply H1].
    + rewrite Hd. by rewrite decide_False.
    + unfold s'. cbn. by rewrite lookup_insert_ne.
    + intros w u'. unfold s' at 1. cbn [previousNodes].
      rewrite lookup_insert. case_decide as Hw.
      * intros [= <-]. subst w. split; [done|]. split; [done|].
        rewrite !Hd. rewrite decide_True by done. split; [done|].
        case_decide; [by subst|done].
      * intros Hp. destruct (H4 w u' Hp) as (Hu' & Hc & Hdw & Hdu'').
        split; [done|]. split; [done|]. rewrite !Hd.
        rewrite decide_False by done. split; [done|].
        case_decide; [|done]. subst u'. congruence.
    + intros w Hw. rewrite Hd. unfold s'. cbn [previousNodes].
      rewrite lookup_insert. case_decide; [by eauto|]. by apply H5.
    + intros w. rewrite Hpq, elem_of_app, list_elem_of_singleton, Hd.
      intros [Hw | ->]; [|by rewrite decide_True].
      destruct (H6 w Hw). split; [done|]. by case_decide.
    + rewrite Hpq. apply NoDup_app. split; [done|].
      split; [|apply NoDup_singleton].
      intros w Hw ->%list_elem_of_singleton. done.
  - unfold potential. rewrite Hpq, length_app. cbn.
    rewrite (filter_remove_one (λ w, dist s w = Infinity)
               (λ w, dist s' w = Infinity) v V); [lia|done..|].
    intros w. rewrite Hd. case_decide; [subst; split; [done|tauto]|].
    split; [|tauto]. intros. split; [done|]. congruence.
  - intros w Hw. rewrite Hd. by case_decide.
  - intros w. rewrite Hd, Hpq, elem_of_app, list_elem_of_singleton.
    case_decide; [subst; auto|auto].
  - rewrite Hd. by rewrite decide_True.
  - intros w Hw. rewrite Hpq, elem_of_app. by left.
Qed.

Lemma relax_all s u kids :
  inv s → u ∈ V → dist s u ≠ Infinity →
  (∀ v, v ∈ kids → v ∈ children u) →
  let s' := foldl (relax eventMap u) s kids in
  inv s'
  ∧ potential V s' = potential V s
  ∧ (∀ w, dist s w ≠ Infinity → dist s' w ≠ Infinity)
  ∧ (∀ w, dist s' w ≠ Infinity → dist s w ≠ Infinity ∨ w ∈ pq s')
  ∧ (∀ v, v ∈ kids → dist s' v ≠ Infinity)
  ∧ (∀ w, w ∈ pq s → w ∈ pq s').
Proof.
  revert s. induction kids as [|v kids IH]; intros s Hinv Hu Hdu Hk.
  - cbn. split; [done|]. split; [done|]. split; [auto|]. split; [auto|].
    split; [|auto]. intros v Hv. by apply elem_of_nil in Hv.
  - cbn zeta. cbn [foldl].
    destruct (relax_spec s u v) as (Hinv1 & Hp1 & Hm1 & Hn1 & Hv1 & Hq1);
      [done|done|done|apply Hk; left|].
    destruct (IH (relax eventMap u s v))
      as (Hinv2 & Hp2 & Hm2 & Hn2 & Hv2 & Hq2);
      [done|done|by apply Hm1|intros; apply Hk; by right|].
    split; [done|]. split; [congruence|]. split; [auto|]. split; [|split].
    + intros w Hw. destruct (Hn2 w Hw) as [Hw1 | Hw1]; [|by right].
      destruct (Hn1 w Hw1) as [Hw0 | Hw0]; auto.
    + intros w [->|Hw]%elem_of_cons; auto.
    + auto.
Qed.

Lemma dist_pq s q w :
  dist {| distances := distances s; previousNodes := previousNodes s;
          pq := q |} w = dist s w.
Proof. reflexivity. Qed.

(** One iteration that does not stop: [u] leaves the frontier and its
    children are relaxed. *)
Lemma step_spec s u :
  inv s → settled None s → u ∈ pq s →
  let s2 :=
    foldl (relax eventMap u)
      {| distances := distances s; previousNodes := previousNodes s;
         pq := set_delete u (pq s) |} (children u) in
  inv s2 ∧ settled None s2
  ∧ S (potential V s2) = potential V s
  ∧ (∀ w, dist s w ≠ Infinity → dist s2 w ≠ Infinity).
Proof.
  intros Hinv Hset Hu. pose proof Hinv as (H1 & H2 & H3 & H4 & H5 & H6 & H7).
  destruct (H6 u Hu) as [HuV Hdu].
  set (s1 := {| distances := distances s; previousNodes := previousNodes s;
                pq := set_delete u (pq s) |}).
  assert (inv s1) as Hinv1.
  { split; [done|]. split; [done|]. split; [done|]. split; [done|].
    split; [done|]. split.
    - intros w [_ Hw]%elem_of_set_delete. by apply H6.
    - by apply NoDup_set_delete. }
  destruct (relax_all s1 u (children u))
    as (Hinv2 & Hp2 & Hm2 & Hn2 & Hv2 & Hq2); [done..|].
  cbn zeta. split; [done|]. split; [|split; [|done]].
  - intros w Hw _ Hdw Hpq v Hv.
    destruct (Hn2 w Hdw) as [Hdw1 | Hin]; [|done].
    destruct (decide (w = u)) as [->|Hne]; [by apply Hv2|].
    apply Hm2. eapply (Hset w); try done.
    intros Hin. apply Hpq, Hq2. by apply elem_of_set_delete.
  - rewrite Hp2. unfold potential. cbn [pq s1].
    rewrite (length_set_delete u (pq s)) by done.
    change (filter (λ v, dist s1 v = Infinity) V)
      with (filter (λ v, dist s v = Infinity) V). lia.
Qed.

Lemma pick_fold s l acc :
  let f := λ (u : option string) (eventId : string),
    match u with
    | None => Some eventId
    | Some u' => if lt (dist s eventId) (dist s u') then Some eventId else u
    end in
  match foldl f acc l with
  | None => acc = None ∧ l = []
  | Some u => acc = Some u ∨ u ∈ l
  end.
Proof.
  cbn zeta. revert acc. induction l as [|x l IH]; intros acc; cbn [foldl].
  - destruct acc; auto.
  - specialize (IH (match acc with
                    | None => Some x
                    | Some u' => if lt (dist s x) (dist s u') then Some x
                                 else acc
                    end)).
    destruct (foldl _ _ l) as [u|].
    + destruct IH as [Heq | Hin]; [|right; by right].
      destruct acc as [u'|]; [|injection Heq as <-; right; left].
      destruct (lt _ _); [injection Heq as <-; right; left|by left].
    + destruct IH as [Heq _]. destruct acc as [u'|]; [|done].
      by destruct (lt _ _).
Qed.

Lemma pick_None s : pick s = None → pq s = [].
Proof.
  unfold pick. intros Hp. pose proof (pick_fold s (pq s) None) as H.
  cbn zeta in H. rewrite Hp in H. tauto.
Qed.

Lemma pick_Some s u : pick s = Some u → u ∈ pq s.
Proof.
  unfold pick. intros Hp. pose proof (pick_fold s (pq s) None) as H.
  cbn zeta in H. rewrite Hp in H. by destruct H.
Qed.

Lemma dijkstra_eq fuel s :
  dijkstra fuel eventMap childrenMap target s
  = match pick s with
    | None => Some s
    | Some u =>
        let s1 := {| distances := distances s;
                     previousNodes := previousNodes s;
                     pq := set_delete u (pq s) |} in
        if bool_decide (u = target) then Some s1
        else match fuel with
             | O => None
             | S fuel' =>
                 dijkstra fuel' eventMap childrenMap target
                   (foldl (relax eventMap u) s1 (children u))
             end
    end.
Proof. by destruct fuel. Qed.

(** The loop ends within as many iterations as nodes have not left the
    frontier, with every reached node at its cost; it ends with an empty
    frontier, or on the target. *)
Lemma dijkstra_spec fuel s :
  inv s → settled None s → (potential V s ≤ fuel)%nat →
  ∃ s', dijkstra fuel eventMap childrenMap target s = Some s'
        ∧ inv s'
        ∧ ((settled None s' ∧ pq s' = [])
           ∨ dist s' target ≠ Infinity).
Proof.
  revert s. induction fuel as [|fuel IH]; intros s Hinv Hset Hpot;
    rewrite dijkstra_eq; destruct (pick s) as [u|] eqn:Hpick.
  - apply pick_Some in Hpick. exfalso.
    unfold potential in Hpot. destruct (pq s); [by apply elem_of_nil in Hpick|].
    cbn in Hpot. lia.
  - apply pick_None in Hpick. eauto 10.
  - apply pick_Some in Hpick. cbn zeta. case_bool_decide as Ht.
    + subst u. eexists. split; [done|].
      pose proof Hinv as (H1 & H2 & H3 & H4 & H5 & H6 & H7). split.
      * split; [done|]. split; [done|]. split; [done|]. split; [done|].
        split; [done|]. split.
        -- intros w [_ Hw]%elem_of_set_delete. by apply H6.
        -- by apply NoDup_set_delete.
      * right. by destruct (H6 target Hpick).
    + destruct (step_spec s u) as (Hinv2 & Hset2 & Hpot2 & _); [done..|].
      apply IH; [done..|]. cbn zeta in Hpot2. lia.
  - apply pick_None in Hpick. eauto 10.
Qed.

(** *** What the search returns on a tree *)

Hypothesis Hsrc : source ∈ V.
Hypothesis Hdesc :
  ∀ P : string → Prop,
    P source → (∀ u v, u ∈ V → P u → v ∈ children u → P v) →
    ∀ v, v ∈ V → P v.
Hypothesis Htruthy : ∀ v, v ∈ V → Js.truthy (Some v) = true.
Hypothesis Hpar :
  ∀ u u' v, u ∈ V → u' ∈ V → v ∈ children u → v ∈ children u' → u = u'.

Context (paths : string → list string).
Hypothesis Hpath_source : paths source = [source].
Hypothesis Hpath_child :
  ∀ u v, u ∈ V → v ∈ children u → paths v = paths u ++ [v].

Lemma all_reached s :
  inv s → settled None s → pq s = [] → ∀ v, v ∈ V → dist s v ≠ Infinity.
Proof.
  intros Hinv Hset Hpq. apply Hdesc.
  - destruct Hinv as (_ & H2 & _). congruence.
  - intros u v Hu Hdu Hv. eapply Hset; try done. rewrite Hpq.
    apply not_elem_of_nil.
Qed.

Lemma walk_None fuel prev acc :
  walk fuel eventMap prev None acc = Some acc.
Proof. by destruct fuel. Qed.

Lemma walk_Some fuel prev c acc :
  Js.truthy (Some c) = true →
  walk (S fuel) eventMap prev (Some c) acc
  = walk fuel eventMap prev (prev !! c) (eventMap !! c :: acc).
Proof. intros Ht. cbn [walk]. by rewrite Ht. Qed.

(** Walking the predecessors from a reached node gives its path from the
    source. *)
Lemma walk_spec s :
  inv s → ∀ v, v ∈ V → dist s v ≠ Infinity →
  ∀ fuel acc, (length (paths v) ≤ fuel)%nat →
    walk fuel eventMap (previousNodes s) (Some v) acc
    = Some (((λ w, eventMap !! w) <$> paths v) ++ acc).
Proof.
  intros Hinv. pose proof Hinv as (H1 & H2 & H3 & H4 & H5 & H6 & H7).
  apply (Hdesc (λ v, dist s v ≠ Infinity → ∀ fuel acc,
                  (length (paths v) ≤ fuel)%nat →
                  walk fuel eventMap (previousNodes s) (Some v) acc
                  = Some (((λ w, eventMap !! w) <$> paths v) ++ acc))).
  - intros _ fuel acc. rewrite Hpath_source. cbn [length].
    destruct fuel as [|fuel]; [lia|]. intros _.
    rewrite walk_Some by (by apply Htruthy). rewrite H3, walk_None. done.
  - intros u v Hu IH Hv Hdv fuel acc.
    destruct (Hkids u v Hu Hv) as [HvV Hvs].
    rewrite (Hpath_child u v Hu Hv), length_app. cbn [length].
    destruct fuel as [|fuel]; [lia|]. intros Hlen.
    rewrite walk_Some by (by apply Htruthy).
    destruct (H5 v Hvs Hdv) as [u' Hp]. rewrite Hp.
    destruct (H4 v u' Hp) as (Hu' & Hv' & _ & Hdu').
    assert (u' = u) as -> by (by eapply Hpar).
    rewrite IH by (congruence || lia).
    rewrite fmap_app, <- app_assoc. done.
Qed.

(** The search from the initial state of [findEventInfluencePath]. *)
Lemma search_tree fuel src :
  eventMap !! source = Some src →
  cost source = Node.duration_minutes src →
  target ∈ V → (length V ≤ fuel)%nat → (length (paths target) ≤ fuel)%nat →
  ∃ s',
    dijkstra fuel eventMap childrenMap target
      {| distances := <[source := Fin (Node.duration_minutes src)]>
                        ((λ _, Infinity) <$> eventMap);
         previousNodes := ∅;
         pq := [source] |} = Some s'
    ∧ dist s' target = Fin (cost target)
    ∧ (is_Some (previousNodes s' !! target) ∨ target = source)
    ∧ walk fuel eventMap (previousNodes s') (Some target) []
      = Some ((λ w, eventMap !! w) <$> paths target).
Proof.
  intros Hsrc' Hc Ht Hfuel Hlen.
  set (s0 := {| distances := _ |}).
  assert (∀ w, dist s0 w = if decide (source = w) then Fin (cost source)
                           else Infinity) as Hd.
  { intros w. unfold dist, s0. cbn. rewrite lookup_insert, Hc.
    case_decide; [done|]. rewrite lookup_fmap.
    by destruct (eventMap !! w). }
  assert (inv s0) as Hinv.
  { split; [|split; [|split; [|split; [|split; [|split]]]]].
    - intros w. rewrite Hd. case_decide; [subst; by right|by left].
    - rewrite Hd. by rewrite decide_True.
    - done.
    - intros v u Hp. unfold s0 in Hp. cbn in Hp. by rewrite lookup_empty in Hp.
    - intros v Hv. rewrite Hd. by rewrite decide_False.
    - intros u ->%list_elem_of_singleton. split; [done|]. rewrite Hd.
      by rewrite decide_True.
    - apply NoDup_singleton. }
  assert (settled None s0) as Hset.
  { intros u Hu _ Hdu Hpq. exfalso. apply Hpq. rewrite Hd in Hdu.
    case_decide; [subst; by apply list_elem_of_singleton|done]. }
  assert (potential V s0 ≤ fuel)%nat as Hpot.
  { unfold potential. cbn [pq s0 length].
    pose proof (filter_remove_one (λ _ : string, True)
                  (λ w, dist s0 w = Infinity) source V HV Hsrc I) as Hf.
    rewrite (filter_ext_in (λ _ : string, True) (λ _, True) V) in Hf by done.
    assert (filter (λ _ : string, True) V = V) as HfV.
    { clear. induction V as [|x l IH]; [done|].
      rewrite filter_cons_True by done. by rewrite IH. }
    rewrite HfV in Hf. rewrite Hf in Hfuel; [lia|].
    intros w. rewrite Hd. case_decide; [subst; split; [done|tauto]|].
    split; [|done]. intros _. split; [done|]. congruence. }
  destruct (dijkstra_spec fuel s0 Hinv Hset Hpot) as (s' & Hrun & Hinv' & Hend).
  exists s'. split; [done|].
  assert (dist s' target ≠ Infinity) as Hdt.
  { destruct Hend as [[Hset' Hpq'] | Hdt]; [|done]. by apply all_reached. }
  split; [by apply dist_reached|]. split.
  - destruct (decide (target = source)) as [|Hne]; [by right|left].
    destruct Hinv' as (_ & _ & _ & _ & H5 & _). by apply H5.
  - rewrite (walk_spec s' Hinv' target Ht Hdt fuel []) by done.
    by rewrite app_nil_r.
Qed.

End Search.

(** *** The maps built from the rows *)

Lemma build_snoc l r :
  Influence.build (l ++ [r])
  = (<[event_id r := node_of r]> (Influence.build l).1,
     match parent_event_id r with
     | Some p =>
         if Js.truthy (Some p) then
           <[p := default [] ((Influence.build l).2 !! p) ++ [event_id r]]>
             (Influence.build l).2
         else (Influence.build l).2
     | None => (Influence.build l).2
     end).
Proof.
  unfold Influence.build. rewrite foldl_snoc.
  by destruct (foldl _ _ l) as [E C].
Qed.

Lemma build_eventMap_None events v :
  v ∉ ids events → (Influence.build events).1 !! v = None.
Proof.
  induction events as [|r l IH] using rev_ind; intros Hv; [done|].
  rewrite build_snoc. cbn [fst]. unfold ids in Hv.
  rewrite fmap_app, elem_of_app in Hv. cbn in Hv.
  rewrite lookup_insert_ne.
  - apply IH. tauto.
  - intros <-. apply Hv. right. left.
Qed.

Lemma build_eventMap events r :
  NoDup (ids events) → r ∈ events →
  (Influence.build events).1 !! event_id r = Some (node_of r).
Proof.
  induction events as [|r' l IH] using rev_ind; intros Hnd Hr.
  - by apply elem_of_nil in Hr.
  - rewrite build_snoc. cbn [fst]. unfold ids in Hnd.
    rewrite fmap_app in Hnd. apply NoDup_app in Hnd as (Hnd & Hfresh & _).
    apply elem_of_app in Hr as [Hr | ->%list_elem_of_singleton].
    + rewrite lookup_insert_ne; [by apply IH|].
      intros Heq. apply (Hfresh (event_id r)).
      * by apply list_elem_of_fmap_2.
      * rewrite <- Heq. left.
    + by rewrite lookup_insert_eq.
Qed.

Lemma build_children events u v :
  Js.truthy (Some u) = true →
  v ∈ default [] ((Influence.build events).2 !! u) ↔
  ∃ r, r ∈ events ∧ event_id r = v ∧ parent_event_id r = Some u.
Proof.
  intros Hu. induction events as [|r l IH] using rev_ind.
  - cbn. rewrite lookup_empty. cbn. split.
    + intros H. by apply elem_of_nil in H.
    + intros (r & Hr & _). by apply elem_of_nil in Hr.
  - rewrite build_snoc. cbn [snd].
    assert ((∃ r0, r0 ∈ l ++ [r] ∧ event_id r0 = v
                   ∧ parent_event_id r0 = Some u)
            ↔ (∃ r0, r0 ∈ l ∧ event_id r0 = v ∧ parent_event_id r0 = Some u)
              ∨ (event_id r = v ∧ parent_event_id r = Some u)) as ->.
    { split.
      - intros (r0 & [Hr0 | ->%list_elem_of_singleton]%elem_of_app & H);
          [left; eauto|by right].
      - intros [(r0 & Hr0 & H) | H].
        + exists r0. split; [|done]. apply elem_of_app. by left.
        + exists r. split; [|done]. apply elem_of_app. right. left. }
    rewrite <- IH. clear IH.
    destruct (parent_event_id r) as [p|] eqn:Hp.
    + destruct (Js.truthy (Some p)) eqn:Htp.
      * rewrite lookup_insert. case_decide as Hpu.
        -- subst p. cbn. rewrite elem_of_app, list_elem_of_singleton.
           split; [intros [?| ->]; auto|intros [?|[<- _]]; auto].
        -- split; [auto|]. intros [?|[_ [= ?]]]; done.
      * split; [auto|]. intros [?|[_ [= ->]]]; [done|congruence].
    + split; [auto|]. intros [?|[_ ?]]; done.
Qed.

(** *** Listings of a tree *)

Lemma parents_before_snoc seen rows r :
  parents_before seen (rows ++ [r]) = true →
  parents_before seen rows = true
  ∧ (∃ p, parent_event_id r = Some p ∧ p ∈ seen ++ ids rows)
  ∧ (event_id r ∉ seen ++ ids rows)
  ∧ Js.truthy (Some (event_id r)) = true.
Proof.
  revert seen. induction rows as [|x rows IH]; intros seen H.
  - cbn [app parents_before] in H. cbn [ids fmap list_fmap].
    rewrite app_nil_r. rewrite !andb_true_iff in H.
    destruct H as [[[Hp Hf] Ht] _].
    split; [done|]. split; [|split; [|done]].
    + destruct (parent_event_id r) as [p|]; [|done].
      apply bool_decide_eq_true in Hp. eauto.
    + apply negb_true_iff, bool_decide_eq_false in Hf. done.
  - change ((x :: rows) ++ [r]) with (x :: (rows ++ [r])) in H.
    cbn [parents_before] in H. apply andb_true_iff in H as [Hx Hrest].
    apply IH in Hrest as (Hr1 & Hr2 & Hr3 & Hr4).
    unfold ids in *. rewrite fmap_cons.
    rewrite <- app_assoc in Hr2, Hr3. cbn [app] in Hr2, Hr3.
    split; [|done]. cbn [parents_before]. by rewrite Hx, Hr1.
Qed.

(** Induction over a listing, a row at a time. *)
Lemma listing_ind source (Q : list Row → Prop) :
  (∀ root, event_id root = source → Js.truthy (Some source) = true →
           Q [root]) →
  (∀ l r p, Q l → parent_event_id r = Some p → p ∈ ids l →
            event_id r ∉ ids l → Js.truthy (Some (event_id r)) = true →
            Q (l ++ [r])) →
  ∀ root rest,
    event_id root = source → Js.truthy (Some source) = true →
    parents_before [source] rest = true → Q (root :: rest).
Proof.
  intros Hroot Hstep root rest Hid Ht.
  induction rest as [|r rest IH] using rev_ind; intros Hpb; [by apply Hroot|].
  apply parents_before_snoc in Hpb as (Hpb & (p & Hp & Hin) & Hfresh & Htr).
  change (root :: rest ++ [r]) with ((root :: rest) ++ [r]).
  assert (ids (root :: rest) = [source] ++ ids rest) as Hids.
  { unfold ids. rewrite fmap_cons. by rewrite Hid. }
  eapply Hstep; eauto; by rewrite Hids.
Qed.

Lemma tree_listing_inv source events :
  tree_listing source events = true →
  ∃ root rest,
    events = root :: rest ∧ event_id root = source
    ∧ Js.truthy (Some source) = true
    ∧ (∀ p, parent_event_id root = Some p → p ∉ ids events)
    ∧ parents_before [source] rest = true.
Proof.
  destruct events as [|root rest]; [done|]. unfold tree_listing.
  rewrite !andb_true_iff. intros [[[Hid Ht] Hp] Hpb].
  apply bool_decide_eq_true in Hid. exists root, rest.
  repeat split; try done. intros p Hpp. rewrite Hpp in Hp.
  by apply negb_true_iff, bool_decide_eq_false in Hp.
Qed.

Lemma listing_ids source events :
  tree_listing source events = true →
  NoDup (ids events) ∧ source ∈ ids events
  ∧ ∀ v, v ∈ ids events → Js.truthy (Some v) = true.
Proof.
  intros (root & rest & -> & Hid & Ht & _ & Hpb)%tree_listing_inv.
  revert root rest Hid Ht Hpb.
  apply (listing_ind source (λ l,
    NoDup (ids l) ∧ source ∈ ids l
    ∧ ∀ v, v ∈ ids l → Js.truthy (Some v) = true)).
  - intros root Hid Ht. cbn. rewrite Hid. split; [apply NoDup_singleton|].
    split; [left|]. by intros v ->%list_elem_of_singleton.
  - intros l r p (Hnd & Hs & Htr) Hp Hin Hfresh Ht. unfold ids in *.
    rewrite fmap_app. cbn [fmap list_fmap]. split; [|split].
    + apply NoDup_app. split; [done|]. split; [|apply NoDup_singleton].
      by intros v Hv ->%list_elem_of_singleton.
    + apply elem_of_app. by left.
    + intros v [Hv | ->%list_elem_of_singleton]%elem_of_app; auto.
Qed.

(** Every event of a listing is reached from the source by links from a
    parent to a child. *)
Lemma listing_descent source events (P : string → Prop) :
  tree_listing source events = true →
  P source →
  (∀ u r, u ∈ ids events → P u → r ∈ events →
          parent_event_id r = Some u → P (event_id r)) →
  ∀ v, v ∈ ids events → P v.
Proof.
  intros (root & rest & -> & Hid & Ht & _ & Hpb)%tree_listing_inv Hsrc.
  revert root rest Hid Ht Hpb. apply (listing_ind source (λ l,
    (∀ u r, u ∈ ids l → P u → r ∈ l → parent_event_id r = Some u →
            P (event_id r)) → ∀ v, v ∈ ids l → P v)).
  - intros root Hid _ _ v Hv. cbn in Hv.
    apply list_elem_of_singleton in Hv as ->. by rewrite Hid.
  - intros l r p IH Hp Hin Hfresh _ Hstep v. unfold ids. rewrite fmap_app.
    assert (∀ v, v ∈ ids l → P v) as IH'.
    { apply IH. intros u r' Hu HPu Hr'. apply Hstep; [|done|].
      - unfold ids. rewrite fmap_app. apply elem_of_app. by left.
      - apply elem_of_app. by left. }
    intros [Hv | ->%list_elem_of_singleton]%elem_of_app; [by apply IH'|].
    apply (Hstep p r); [|by apply IH'| |done].
    + unfold ids. rewrite fmap_app. apply elem_of_app. by left.
    + apply elem_of_app. right. left.
Qed.

(** *** The paths of a listing *)

Lemma tree_paths_snoc l r :
  tree_paths (l ++ [r])
  = <[event_id r :=
        default [] (parent_event_id r ≫= λ p, tree_paths l !! p) ++ [r]]>
      (tree_paths l).
Proof. unfold tree_paths. by rewrite foldl_snoc. Qed.

Lemma total_duration_snoc path r :
  total_duration (path ++ [r]) = total_duration path + duration_minutes r.
Proof.
  unfold total_duration. induction path as [|x path IH]; cbn; [lia|].
  rewrite IH. lia.
Qed.

Lemma listing_paths source events :
  tree_listing source events = true →
  (∀ v, v ∉ ids events → tree_paths events !! v = None)
  ∧ (∀ v, v ∈ ids events →
          ∃ path, tree_paths events !! v = Some path
                  ∧ (length path ≤ length events)%nat)
  ∧ (∃ root, head events = Some root ∧ event_id root = source
             ∧ tree_paths events !! source = Some [root])
  ∧ (∀ r u, r ∈ events → event_id r ≠ source →
            parent_event_id r = Some u →
            ∃ pu, tree_paths events !! u = Some pu
                  ∧ tree_paths events !! event_id r = Some (pu ++ [r])).
Proof.
  intros (root & rest & -> & Hid & Ht & _ & Hpb)%tree_listing_inv.
  revert root rest Hid Ht Hpb.
  apply (listing_ind source (λ l,
    (∀ v, v ∉ ids l → tree_paths l !! v = None)
    ∧ (∀ v, v ∈ ids l →
            ∃ path, tree_paths l !! v = Some path
                    ∧ (length path ≤ length l)%nat)
    ∧ (∃ root, head l = Some root ∧ event_id root = source
               ∧ tree_paths l !! source = Some [root])
    ∧ (∀ r u, r ∈ l → event_id r ≠ source → parent_event_id r = Some u →
              ∃ pu, tree_paths l !! u = Some pu
                    ∧ tree_paths l !! event_id r = Some (pu ++ [r])))).
  - intros root Hid _.
    assert (tree_paths [root] = <[source := [root]]> ∅) as ->.
    { unfold tree_paths. cbn. rewrite Hid.
      by destruct (parent_event_id root). }
    split; [|split; [|split]].
    + intros v Hv. rewrite lookup_insert_ne; [done|]. intros <-. apply Hv.
      cbn. rewrite Hid. left.
    + intros v Hv. cbn in Hv. apply list_elem_of_singleton in Hv as ->.
      rewrite Hid, lookup_insert_eq. exists [root]. by cbn.
    + exists root. by rewrite lookup_insert_eq.
    + intros r u ->%list_elem_of_singleton Hne. done.
  - intros l r' p (Ha & Hb & (root & Hhd & Hrid & Hc) & Hd) Hp Hin Hfresh _.
    rewrite tree_paths_snoc, Hp. cbn [mbind option_bind].
    destruct (Hb p Hin) as (pp & Hpp & Hlen). rewrite Hpp. cbn [from_option id].
    assert (∀ v, is_Some (tree_paths l !! v) → v ≠ event_id r') as Hold.
    { intros v [x Hx] ->. destruct (decide (event_id r' ∈ ids l)); [done|].
      rewrite Ha in Hx by done. done. }
    split; [|split; [|split]].
    + intros v Hv. unfold ids in Hv. rewrite fmap_app, elem_of_app in Hv.
      rewrite lookup_insert_ne; [apply Ha; tauto|].
      intros <-. apply Hv. right. left.
    + intros v. unfold ids. rewrite fmap_app, length_app. cbn [length].
      intros [Hv | ->%list_elem_of_singleton]%elem_of_app.
      * destruct (Hb v Hv) as (path & Hpath & Hl). exists path.
        rewrite lookup_insert_ne by (symmetry; apply Hold; eauto).
        split; [done|lia].
      * exists (pp ++ [r']). rewrite lookup_insert_eq.
        split; [done|]. rewrite length_app. cbn. lia.
    + exists root. destruct l as [|x l]; [done|]. cbn in Hhd |- *.
      split; [done|]. split; [done|].
      rewrite lookup_insert_ne by (symmetry; apply Hold; eauto). done.
    + intros r u [Hr | ->%list_elem_of_singleton]%elem_of_app Hne Hu.
      * destruct (Hd r u Hr Hne Hu) as (pu & Hpu & Hpr). exists pu.
        rewrite !lookup_insert_ne by (symmetry; apply Hold; eauto). done.
      * assert (u = p) as -> by congruence. exists pp.
        rewrite lookup_insert_ne by (symmetry; apply Hold; eauto).
        by rewrite lookup_insert_eq.
Qed.

Lemma tree_paths_sound source events v path :
  tree_listing source events = true →
  tree_paths events !! v = Some path → tree_path events source v path.
Proof.
  intros Hl Hv.
  destruct (listing_paths source events Hl)
    as (Ha & Hb & (root & Hhd & Hrid & Hc) & Hd).
  destruct (listing_ids source events Hl) as (Hnd & Hs & _).
  pose proof Hl as (root' & rest & -> & _ & _ & Hout & _)%tree_listing_inv.
  cbn in Hhd. injection Hhd as ->.
  assert (v ∈ ids (root :: rest)) as HvV.
  { destruct (decide (v ∈ ids (root :: rest))) as [|Hn]; [done|].
    rewrite (Ha v Hn) in Hv. done. }
  revert path Hv. revert v HvV.
  apply (listing_descent source (root :: rest)
           (λ v, ∀ path, tree_paths (root :: rest) !! v = Some path →
                         tree_path (root :: rest) source v path)); [done| |].
  - intros path Hp. rewrite Hc in Hp. injection Hp as <-.
    apply tree_path_source; [left|done].
  - intros u r Hu IH Hr Hpar path Hp.
    destruct (decide (event_id r = source)) as [Heq | Hne].
    + exfalso. rewrite <- Hrid in Heq.
      apply (NoDup_ids_inj (root :: rest) root r) in Heq as ->;
        [|done|left|done]. by apply (Hout u).
    + destruct (Hd r u Hr Hne Hpar) as (pu & Hpu & Hpr).
      rewrite Hpr in Hp. injection Hp as <-.
      apply (tree_path_child _ _ u); [by apply IH|done|done].
Qed.

Lemma tree_paths_complete source events v path :
  tree_listing source events = true →
  tree_path events source v path → tree_paths events !! v = Some path.
Proof.
  intros Hl.
  destruct (listing_paths source events Hl)
    as (Ha & Hb & (root & Hhd & Hrid & Hc) & Hd).
  destruct (listing_ids source events Hl) as (Hnd & Hs & _).
  pose proof Hl as (root' & rest & -> & _ & _ & Hout & _)%tree_listing_inv.
  cbn in Hhd. injection Hhd as ->.
  induction 1 as [r Hr Heq | u path r Hpath IH Hr Hpar].
  - rewrite <- Hrid in Heq.
    apply (NoDup_ids_inj (root :: rest) root r) in Heq as ->;
      [done|done|left|done].
  - assert (u ∈ ids (root :: rest)) as Hu.
    { destruct (decide (u ∈ ids (root :: rest))) as [|Hn]; [done|].
      rewrite (Ha u Hn) in IH. done. }
    assert (event_id r ≠ source) as Hne.
    { intros Heq. rewrite <- Hrid in Heq.
      apply (NoDup_ids_inj (root :: rest) root r) in Heq as ->;
        [|done|left|done]. by apply (Hout u). }
    destruct (Hd r u Hr Hne Hpar) as (pu & Hpu & Hpr). congruence.
Qed.

Lemma tree_path_rows events source v path :
  tree_path events source v path →
  (∃ r0 rest, path = r0 :: rest ∧ event_id r0 = source)
  ∧ ∀ r, r ∈ path → r ∈ events.
Proof.
  induction 1 as [r Hr Heq | u path r Hpath [(r0 & rest & -> & Hr0) IH] Hr Hpar].
  - split; [by eauto|]. by intros r' ->%list_elem_of_singleton.
  - split; [exists r0, (rest ++ [r]); by split|].
    intros r' [Hr' | ->%list_elem_of_singleton]%elem_of_app; auto.
Qed.

Lemma eventMap_path events path :
  NoDup (ids events) → (∀ r, r ∈ path → r ∈ events) →
  (λ w, (Influence.build events).1 !! w) <$> ids path
  = Some <$> (node_of <$> path).
Proof.
  intros Hnd. induction path as [|r path IH]; intros Hin; [done|].
  unfold ids in *. rewrite !fmap_cons. f_equal.
  - apply build_eventMap; [done|]. apply Hin. left.
  - apply IH. intros r' Hr'. apply Hin. by right.
Qed.

Lemma omap_Some {A} (l : list A) : omap id (Some <$> l) = l.
Proof. induction l as [|x l IH]; [done|]. cbn. by rewrite IH. Qed.

(** The answer of [findEventInfluencePath] on the rows of a tree. *)
Lemma of_events_on_tree fuel events source target :
  tree_listing source events = true →
  (length events ≤ fuel)%nat →
  match tree_paths events !! target with
  | Some path =>
      Influence.of_events fuel events source target
      = Some (inr (Influence.Path source target (node_of <$> path)
                     (Influence.Fin (total_duration path))
                     Influence.found_message))
  | None =>
      (target ∉ ids events)
      ∧ Influence.of_events fuel events source target
        = Some (inr (Influence.Path source target [] (Influence.Fin 0)
                       Influence.no_path_message))
  end.
Proof.
  intros Hl Hfuel.
  destruct (listing_paths source events Hl)
    as (Ha & Hb & (root & Hhd & Hrid & Hc) & Hd).
  destruct (listing_ids source events Hl) as (Hnd & Hs & Htr).
  pose proof Hl as (root' & rest & Hev & _ & _ & Hout & _)%tree_listing_inv.
  rewrite Hev in Hhd. cbn in Hhd. injection Hhd as ->.
  assert (root ∈ events) as Hroot by (rewrite Hev; left).
  unfold Influence.of_events.
  assert ((length events =? 0)%nat = false) as ->.
  { rewrite Hev. done. }
  pose proof (build_eventMap events) as HE.
  pose proof (build_eventMap_None events) as HEn.
  pose proof (build_children events) as HC.
  destruct (Influence.build events) as [E C]. cbn [fst snd] in HE, HEn, HC.
  destruct (tree_paths events !! target) as [path|] eqn:Hpath.
  2: { assert (target ∉ ids events) as Hn.
       { intros Hin. destruct (Hb target Hin) as (? & ? & _). congruence. }
       split; [done|]. by rewrite (HEn target Hn). }
  assert (target ∈ ids events) as Ht.
  { destruct (decide (target ∈ ids events)) as [|Hn]; [done|].
    rewrite (Ha target Hn) in Hpath. done. }
  pose proof Ht as (rt & -> & Hrt)%list_elem_of_fmap.
  rewrite (HE rt Hnd Hrt). rewrite <- Hrid at 1. rewrite (HE root Hnd Hroot).
  (* the tree structure behind the two maps *)
  assert (∀ u v, u ∈ ids events → v ∈ default [] (C !! u) →
            ∃ r, r ∈ events ∧ event_id r = v ∧ parent_event_id r = Some u
                 ∧ v ≠ source) as Hkid.
  { intros u v Hu Hv. apply HC in Hv as (r & Hr & <- & Hp); [|by apply Htr].
    exists r. repeat split; try done. intros Heq. rewrite <- Hrid in Heq.
    apply (NoDup_ids_inj events root r) in Heq as ->; [|done..].
    by apply (Hout u). }
  destruct (search_tree E C (ids events) source (event_id rt)
              (λ v, total_duration (default [] (tree_paths events !! v)))
              Hnd) with (paths := λ v, ids (default [] (tree_paths events !! v)))
              (fuel := fuel) (src := node_of root)
    as (s' & Hrun & Hdist & Hprev & Hwalk).
  - intros u v Hu Hv. destruct (Hkid u v Hu Hv) as (r & Hr & <- & _ & Hne).
    split; [by apply list_elem_of_fmap_2|done].
  - intros u v Hu Hv. destruct (Hkid u v Hu Hv) as (r & Hr & <- & Hp & Hne).
    destruct (Hd r u Hr Hne Hp) as (pu & -> & ->). cbn [from_option id].
    rewrite total_duration_snoc, (HE r Hnd Hr). done.
  - done.
  - intros P Hsrc Hstep. apply (listing_descent source events P Hl Hsrc).
    intros u r Hu HPu Hr Hp. apply (Hstep u); [done..|].
    apply HC; [by apply Htr|]. eauto.
  - done.
  - intros u u' v Hu Hu' Hv Hv'.
    destruct (Hkid u v Hu Hv) as (r & Hr & <- & Hp & _).
    destruct (Hkid u' _ Hu' Hv') as (r' & Hr' & Heq & Hp' & _).
    apply (NoDup_ids_inj events r r') in Heq as ->; [|done..]. congruence.
  - rewrite Hc. cbn. by rewrite Hrid.
  - intros u v Hu Hv. destruct (Hkid u v Hu Hv) as (r & Hr & <- & Hp & Hne).
    destruct (Hd r u Hr Hne Hp) as (pu & -> & ->). cbn [from_option id].
    unfold ids. by rewrite fmap_app.
  - by rewrite <- Hrid, (HE root Hnd Hroot).
  - rewrite Hc. cbn. lia.
  - done.
  - unfold ids. by rewrite length_fmap.
  - rewrite Hpath. cbn [from_option id]. destruct (Hb _ Ht) as (path' & Hp' & Hlen).
    unfold ids. rewrite length_fmap. rewrite Hpath in Hp'.
    injection Hp' as <-. lia.
  - rewrite Hrun. cbn [mbind option_bind].
    assert (bool_decide (is_Some (Influence.previousNodes s' !! event_id rt))
            || bool_decide (event_id rt = source) = true) as ->.
    { apply orb_true_iff. destruct Hprev as [Hp | Hp];
        [left|right]; by apply bool_decide_eq_true. }
    rewrite Hwalk. cbn [mbind option_bind]. rewrite Hpath. cbn [from_option id].
    pose proof (tree_paths_sound source events _ _ Hl Hpath) as Htp.
    destruct (tree_path_rows _ _ _ _ Htp) as [(r0 & rest' & -> & Hr0) Hin].
    assert (r0 ∈ events) as Hr0in by (apply Hin; left).
    unfold ids. rewrite fmap_cons. cbn [fmap list_fmap].
    rewrite (HE r0 Hnd Hr0in). cbn [Node.event_id node_of].
    rewrite bool_decide_true by done. do 3 f_equal.
    + cbn [omap list_omap id]. f_equal.
      assert (∀ r, r ∈ rest' → r ∈ events) as Hin'.
      { intros r Hr. apply Hin. by right. }
      clear -HE Hnd Hin'. induction rest' as [|r rest' IH]; [done|].
      cbn. rewrite (HE r Hnd) by (apply Hin'; left). cbn. f_equal.
      apply IH. intros r' Hr'. apply Hin'. by right.
    + rewrite Hdist. by rewrite Hpath.
Qed.

(** * The recursive query on a forest *)

Lemma forest_from_snoc seen rows r :
  forest_from seen (rows ++ [r]) = true →
  forest_from seen rows = true
  ∧ (∀ p, parent_event_id r = Some p → p ∈ seen ++ ids rows)
  ∧ (event_id r ∉ seen ++ ids rows)
  ∧ Js.truthy (Some (event_id r)) = true.
Proof.
  revert seen. induction rows as [|x rows IH]; intros seen H.
  - cbn [app forest_from] in H. cbn [ids fmap list_fmap].
    rewrite app_nil_r. rewrite !andb_true_iff in H.
    destruct H as [[[Hp Hf] Ht] _].
    split; [done|]. split; [|split; [|done]].
    + intros p Hpp. rewrite Hpp in Hp. by apply bool_decide_eq_true in Hp.
    + apply negb_true_iff, bool_decide_eq_false in Hf. done.
  - change ((x :: rows) ++ [r]) with (x :: (rows ++ [r])) in H.
    cbn [forest_from] in H. apply andb_true_iff in H as [Hx Hrest].
    apply IH in Hrest as (Hr1 & Hr2 & Hr3 & Hr4).
    unfold ids in *. rewrite fmap_cons.
    rewrite <- app_assoc in Hr2, Hr3. cbn [app] in Hr2, Hr3.
    split; [|done]. cbn [forest_from]. by rewrite Hx, Hr1.
Qed.

(** Induction over a forest, a row at a time. *)
Lemma forest_ind (Q : list Row → Prop) :
  Q [] →
  (∀ l r, Q l → forest l = true →
          (∀ p, parent_event_id r = Some p → p ∈ ids l) →
          event_id r ∉ ids l → Js.truthy (Some (event_id r)) = true →
          Q (l ++ [r])) →
  ∀ h, forest h = true → Q h.
Proof.
  intros Hnil Hstep h. induction h as [|r l IH] using rev_ind; [done|].
  intros (Hf & Hp & Hfresh & Ht)%forest_from_snoc. cbn [app] in Hp, Hfresh.
  apply Hstep; auto.
Qed.

Lemma forest_ids h :
  forest h = true →
  NoDup (ids h) ∧ ∀ v, v ∈ ids h → Js.truthy (Some v) = true.
Proof.
  apply (forest_ind (λ h, NoDup (ids h)
                          ∧ ∀ v, v ∈ ids h → Js.truthy (Some v) = true)).
  - split; [apply NoDup_nil_2|]. intros v Hv. by apply elem_of_nil in Hv.
  - intros l r [Hnd Htr] _ _ Hfresh Ht. unfold ids in *. rewrite fmap_app.
    cbn [fmap list_fmap]. split.
    + apply NoDup_app. split; [done|]. split; [|apply NoDup_singleton].
      by intros v Hv ->%list_elem_of_singleton.
    + intros v [Hv | ->%list_elem_of_singleton]%elem_of_app; auto.
Qed.

Lemma forest_prefix l l' : forest (l ++ l') = true → forest l = true.
Proof.
  induction l' as [|r l' IH] using rev_ind.
  - by rewrite app_nil_r.
  - rewrite app_assoc. intros (Hf & _)%forest_from_snoc. by apply IH.
Qed.

(** The parent of a row of a forest is the id of a row before it. *)
Lemma forest_parent l r l' p :
  forest (l ++ r :: l') = true → parent_event_id r = Some p → p ∈ ids l.
Proof.
  change (l ++ r :: l') with (l ++ [r] ++ l'). rewrite app_assoc.
  intros Hf%forest_prefix. apply forest_from_snoc in Hf as (_ & Hp & _).
  apply Hp.
Qed.

(** *** The level of an event *)

Lemma level_snoc l r source v :
  level (l ++ [r]) source v
  = if decide (v = event_id r) then
      if decide (event_id r = source) then Some 0%nat
      else match parent_event_id r with
           | Some p => S <$> level l source p
           | None => None
           end
    else level l source v.
Proof. unfold level. by rewrite reverse_snoc. Qed.

Lemma level_outside l source v : v ∉ ids l → level l source v = None.
Proof.
  induction l as [|r l IH] using rev_ind; intros Hv; [done|].
  unfold ids in Hv. rewrite fmap_app, elem_of_app in Hv.
  rewrite level_snoc. rewrite decide_False; [apply IH; tauto|].
  intros ->. apply Hv. right. left.
Qed.

Lemma level_before_source l source :
  source ∉ ids l → ∀ v, level l source v = None.
Proof.
  induction l as [|r l IH] using rev_ind; intros Hs v; [done|].
  unfold ids in Hs. rewrite fmap_app, elem_of_app in Hs.
  rewrite level_snoc. case_decide; [|apply IH; tauto].
  rewrite decide_False by (intros <-; apply Hs; right; left).
  destruct (parent_event_id r); [|done]. rewrite IH by tauto. done.
Qed.

Lemma level_bound l source v k :
  level l source v = Some k → (k < length l)%nat.
Proof.
  revert v k. induction l as [|r l IH] using rev_ind; intros v k; [done|].
  rewrite level_snoc, length_app. cbn [length].
  case_decide.
  - case_decide; [intros [= <-]; lia|].
    destruct (parent_event_id r) as [p|]; [|done].
    destruct (level l source p) as [j|] eqn:Hj; [|done].
    intros [= <-]. apply IH in Hj. lia.
  - intros Hk%IH. lia.
Qed.

Lemma level_stable l l' source v :
  forest (l ++ l') = true → v ∈ ids l →
  level (l ++ l') source v = level l source v.
Proof.
  induction l' as [|r l' IH] using rev_ind; intros Hf Hv.
  - by rewrite app_nil_r.
  - rewrite app_assoc in Hf |- *.
    pose proof Hf as (Hf' & _ & Hfresh & _)%forest_from_snoc.
    rewrite level_snoc. cbn [app] in Hfresh.
    rewrite decide_False; [by apply IH|].
    intros ->. apply Hfresh. unfold ids. rewrite fmap_app, elem_of_app.
    by left.
Qed.

(** The level of a row of a forest: none for the source, one more than
    that of its parent for another row. *)
Lemma level_row h source r :
  forest h = true → r ∈ h →
  level h source (event_id r)
  = if decide (event_id r = source) then Some 0%nat
    else match parent_event_id r with
         | Some p => S <$> level h source p
         | None => None
         end.
Proof.
  intros Hf (l & l' & ->)%list_elem_of_split.
  assert (level (l ++ r :: l') source (event_id r)
          = level (l ++ [r]) source (event_id r)) as ->.
  { change (l ++ r :: l') with (l ++ [r] ++ l') in *.
    rewrite app_assoc in *. apply level_stable; [done|].
    unfold ids. rewrite fmap_app, elem_of_app. right. left. }
  rewrite level_snoc, decide_True by done. case_decide; [done|].
  destruct (parent_event_id r) as [p|] eqn:Hp; [|done].
  rewrite (level_stable l (r :: l')); [done|done|].
  by eapply forest_parent.
Qed.

(** The parent of the source has no level: the hierarchy has no cycle. *)
Lemma level_above_source h source r p :
  forest h = true → r ∈ h → event_id r = source →
  parent_event_id r = Some p → level h source p = None.
Proof.
  intros Hf (l & l' & ->)%list_elem_of_split Hid Hp.
  rewrite (level_stable l (r :: l')); [|done|by eapply forest_parent].
  apply level_before_source.
  pose proof Hf as [Hnd _]%forest_ids. unfold ids in Hnd.
  rewrite fmap_app in Hnd. apply NoDup_app in Hnd as (_ & Hdis & _).
  intros Hin. apply (Hdis source Hin). rewrite <- Hid. left.
Qed.

(** *** The rounds of the query *)

Lemma bind_filter {A} (P : A → Prop) `{∀ x, Decision (P x)}
    (g : A → list A) (l : list A) :
  (∀ e, e ∈ l → g e = if decide (P e) then [e] else []) →
  l ≫= g = filter P l.
Proof.
  induction l as [|x l IH]; intros Hg; [done|].
  rewrite bind_cons, filter_cons, (Hg x) by left.
  rewrite IH by (intros e He; apply Hg; by right).
  by destruct (decide (P x)).
Qed.

Lemma join_none (e : Row) (W : list Row) :
  (∀ eh, eh ∈ W → parent_event_id e ≠ Some (event_id eh)) →
  (eh ← W;
   if bool_decide (parent_event_id e = Some (event_id eh)) then [e] else [])
  = [].
Proof.
  induction W as [|x W IH]; intros Hno; [done|].
  rewrite bind_cons, bool_decide_false by (apply Hno; left).
  apply IH. intros eh Heh. apply Hno. by right.
Qed.

Lemma join_one (e : Row) (W : list Row) eh :
  NoDup (ids W) → eh ∈ W → parent_event_id e = Some (event_id eh) →
  (eh' ← W;
   if bool_decide (parent_event_id e = Some (event_id eh')) then [e] else [])
  = [e].
Proof.
  induction W as [|x W IH]; intros Hnd Hin Hp.
  - by apply elem_of_nil in Hin.
  - unfold ids in Hnd. rewrite fmap_cons in Hnd.
    apply NoDup_cons in Hnd as [Hx Hnd]. rewrite bind_cons.
    apply elem_of_cons in Hin as [<- | Hin].
    + rewrite bool_decide_true by done. rewrite join_none; [done|].
      intros eh' Heh' Hp'. apply Hx.
      assert (event_id eh = event_id eh') as -> by congruence.
      by apply list_elem_of_fmap_2.
    + rewrite bool_decide_false; [by apply IH|].
      intros Hp'. apply Hx.
      assert (event_id x = event_id eh) as -> by congruence.
      by apply list_elem_of_fmap_2.
Qed.

Lemma elem_of_level_rows h source k e :
  e ∈ level_rows h source k ↔ level h source (event_id e) = Some k ∧ e ∈ h.
Proof. unfold level_rows. by rewrite list_elem_of_filter. Qed.

(** One round of the recursive term takes the rows of a level to the rows
    of the next. *)
Lemma next_level h source k :
  forest h = true →
  (e ← h; eh ← level_rows h source k;
   if bool_decide (parent_event_id e = Some (event_id eh)) then [e] else [])
  = level_rows h source (S k).
Proof.
  intros Hf. pose proof Hf as [Hnd _]%forest_ids.
  apply bind_filter. intros e He.
  pose proof (level_row h source e Hf He) as Hrow.
  destruct (decide (level h source (event_id e) = Some (S k))) as [Hl | Hl].
  - rewrite Hl in Hrow. case_decide; [done|].
    destruct (parent_event_id e) as [p|] eqn:Hp; [|done].
    destruct (level h source p) as [j|] eqn:Hj; [|done].
    injection Hrow as ->.
    assert (p ∈ ids h) as (eh & -> & Heh)%list_elem_of_fmap.
    { destruct (decide (p ∈ ids h)) as [|Hn]; [done|].
      rewrite (level_outside h source p Hn) in Hj. done. }
    rewrite <- Hp. apply (join_one e _ eh); [by apply NoDup_ids_filter| |done].
    by apply elem_of_level_rows.
  - apply join_none. intros eh [Hk Heh]%elem_of_level_rows Hp.
    rewrite Hp, Hk in Hrow. case_decide as Hs; [|by apply Hl].
    rewrite (level_above_source h source e (event_id eh)) in Hk; done.
Qed.

Lemma bind_nil {A B} (l : list A) : l ≫= (λ _ : A, @nil B) = [].
Proof. induction l as [|x l IH]; [done|]. by rewrite bind_cons, IH. Qed.

Lemma level_rows_nil_next h source k :
  forest h = true → level_rows h source k = [] →
  level_rows h source (S k) = [].
Proof.
  intros Hf Hk. rewrite <- (next_level h source k Hf), Hk.
  exact (bind_nil h).
Qed.

Lemma levels_from_nil h source k n :
  forest h = true → level_rows h source k = [] → levels_from h source k n = [].
Proof.
  intros Hf. revert k. induction n as [|n IH]; intros k Hk; [done|].
  cbn [levels_from]. rewrite Hk. cbn [app]. apply IH.
  by apply level_rows_nil_next.
Qed.

Lemma event_hierarchy_nil fuel h : event_hierarchy fuel h [] = Some [].
Proof. by destruct fuel. Qed.

(** With a round of fuel for each row of the table the query ends, and
    answers with the levels in turn. *)
Lemma hierarchy_run h source n :
  forest h = true →
  ∀ k fuel, (length h ≤ k + n)%nat → (n ≤ fuel)%nat →
    event_hierarchy fuel h (level_rows h source k)
    = Some (levels_from h source k n).
Proof.
  intros Hf. induction n as [|n IH]; intros k fuel Hlen Hfuel.
  - assert (level_rows h source k = []) as ->.
    { apply filter_none. intros e _ Hl%level_bound. lia. }
    apply event_hierarchy_nil.
  - destruct (level_rows h source k) as [|x w] eqn:Hw.
    { rewrite event_hierarchy_nil, levels_from_nil; done. }
    destruct fuel as [|fuel]; [lia|].
    cbn [event_hierarchy levels_from]. rewrite <- Hw.
    rewrite (next_level h source k Hf), (IH (S k) fuel) by lia. done.
Qed.

Lemma elem_of_levels_from h source k n e :
  e ∈ levels_from h source k n ↔
  e ∈ h ∧ ∃ j, level h source (event_id e) = Some j ∧ (k ≤ j < k + n)%nat.
Proof.
  revert k. induction n as [|n IH]; intros k; cbn [levels_from].
  - split; [intros H; by apply elem_of_nil in H|]. intros (_ & j & _ & ?). lia.
  - rewrite elem_of_app, elem_of_level_rows, IH. split.
    + intros [[Hl He] | (He & j & Hl & Hj)]; (split; [done|]).
      * exists k. split; [done|lia].
      * exists j. split; [done|lia].
    + intros (He & j & Hl & Hj). destruct (decide (j = k)) as [->|Hne].
      * by left.
      * right. split; [done|]. exists j. split; [done|lia].
Qed.

(** *** The answer of the query lists a tree *)

Lemma parents_before_app seen l1 l2 :
  parents_before seen (l1 ++ l2)
  = parents_before seen l1 && parents_before (seen ++ ids l1) l2.
Proof.
  revert seen. induction l1 as [|x l1 IH]; intros seen.
  - cbn. by rewrite app_nil_r.
  - cbn [app parents_before]. rewrite IH. unfold ids. rewrite fmap_cons.
    rewrite <- app_assoc. cbn [app]. by rewrite !andb_assoc.
Qed.

Lemma parents_before_intro seen l :
  NoDup (ids l) →
  (∀ e, e ∈ l → ∃ p, parent_event_id e = Some p ∧ p ∈ seen) →
  (∀ e, e ∈ l → event_id e ∉ seen) →
  (∀ e, e ∈ l → Js.truthy (Some (event_id e)) = true) →
  parents_before seen l = true.
Proof.
  revert seen. induction l as [|x l IH]; intros seen Hnd Hp Hfresh Ht; [done|].
  unfold ids in Hnd. rewrite fmap_cons in Hnd.
  apply NoDup_cons in Hnd as [Hx Hnd]. cbn [parents_before].
  destruct (Hp x) as (p & -> & Hin); [left|].
  rewrite (bool_decide_true _ Hin).
  rewrite bool_decide_false by (apply Hfresh; left).
  rewrite Ht by left. cbn [andb negb]. apply IH; [done| | |].
  - intros e He. destruct (Hp e) as (p' & Hp' & Hin'); [by right|].
    exists p'. split; [done|]. apply elem_of_app. by left.
  - intros e He [Hin' | Hin'%list_elem_of_singleton]%elem_of_app.
    + by apply (Hfresh e); [right|].
    + apply Hx. rewrite <- Hin'. by apply list_elem_of_fmap_2.
  - intros e He. apply Ht. by right.
Qed.

Lemma levels_listing h source n :
  forest h = true →
  ∀ k seen,
    (∀ v, v ∈ seen ↔ ∃ j, level h source v = Some j ∧ (j ≤ k)%nat) →
    parents_before seen (levels_from h source (S k) n) = true.
Proof.
  intros Hf. pose proof Hf as [Hnd Htr]%forest_ids.
  induction n as [|n IH]; intros k seen Hseen; [done|].
  cbn [levels_from]. rewrite parents_before_app. apply andb_true_iff. split.
  - apply parents_before_intro.
    + by apply NoDup_ids_filter.
    + intros e [Hl He]%elem_of_level_rows.
      rewrite (level_row h source e Hf He) in Hl. case_decide; [done|].
      destruct (parent_event_id e) as [p|]; [|done].
      destruct (level h source p) as [j|] eqn:Hj; [|done].
      injection Hl as ->. exists p. split; [done|]. apply Hseen. eauto.
    + intros e [Hl He]%elem_of_level_rows (j & Hj & Hle)%Hseen.
      rewrite Hl in Hj. injection Hj as <-. lia.
    + intros e [_ He]%elem_of_level_rows. apply Htr.
      by apply list_elem_of_fmap_2.
  - apply IH. intros v. rewrite elem_of_app, Hseen. split.
    + intros [(j & Hj & Hle) | (e & -> & [Hl _]%elem_of_level_rows)%list_elem_of_fmap].
      * exists j. split; [done|lia].
      * exists (S k). split; [done|lia].
    + intros (j & Hj & Hle). destruct (decide (j = S k)) as [->|Hne].
      * right.
        assert (v ∈ ids h) as (e & -> & He)%list_elem_of_fmap.
        { destruct (decide (v ∈ ids h)) as [|Hn]; [done|].
          rewrite (level_outside h source v Hn) in Hj. done. }
        apply list_elem_of_fmap_2. by apply elem_of_level_rows.
      * left. exists j. split; [done|lia].
Qed.

(** On a forest that holds the source, [getEventDescendants] answers,
    within a round of fuel for each row, with the rows that have a level,
    listed as a tree. *)
Lemma descendants_listing h source fuel :
  forest h = true → uuid_in source = source → source ∈ ids h →
  (length h ≤ fuel)%nat →
  ∃ events,
    getEventDescendants fuel h source = Some events
    ∧ tree_listing source events = true
    ∧ (length events ≤ length h)%nat
    ∧ ∀ e, e ∈ events ↔ e ∈ h ∧ is_Some (level h source (event_id e)).
Proof.
  intros Hf Hu Hs Hfuel. pose proof Hf as [Hnd Htr]%forest_ids.
  exists (levels_from h source 0 (length h)).
  assert (∀ e, e ∈ levels_from h source 0 (length h)
               ↔ e ∈ h ∧ is_Some (level h source (event_id e))) as Hin.
  { intros e. rewrite elem_of_levels_from. split.
    - intros (He & j & Hj & _). split; [done|]. by exists j.
    - intros (He & j & Hj). split; [done|]. exists j. split; [done|].
      apply level_bound in Hj. lia. }
  assert (level_rows h source 0 = filter (λ r, event_id r = source) h) as H0.
  { unfold level_rows. apply filter_ext_in. intros e He.
    rewrite (level_row h source e Hf He). case_decide; [done|].
    split; [|done]. destruct (parent_event_id e); [|done].
    by destruct (level h source s). }
  split; [|split; [|split; [|done]]].
  - unfold getEventDescendants. rewrite Hu, <- H0.
    by apply hierarchy_run.
  - apply list_elem_of_fmap in Hs as (root & Hid & Hroot). symmetry in Hid.
    destruct (length h) as [|n] eqn:Hlen.
    { destruct h; [by apply elem_of_nil in Hroot|done]. }
    cbn [levels_from]. rewrite H0.
    assert (filter (λ r, event_id r = source) h = [root]) as ->.
    { clear -Hnd Hroot Hid. induction h as [|x h IH].
      - by apply elem_of_nil in Hroot.
      - unfold ids in Hnd. rewrite fmap_cons in Hnd.
        apply NoDup_cons in Hnd as [Hx Hnd]. rewrite filter_cons.
        apply elem_of_cons in Hroot as [<- | Hroot].
        + rewrite decide_True by done. f_equal. apply filter_none.
          intros e He Heq. apply Hx. rewrite Hid, <- Heq.
          by apply list_elem_of_fmap_2.
        + rewrite decide_False; [by apply IH|].
          intros Heq. apply Hx. rewrite Heq, <- Hid.
          by apply list_elem_of_fmap_2. }
    cbn [app tree_listing].
    rewrite bool_decide_true by done. rewrite Htr by (rewrite <- Hid;
      by apply list_elem_of_fmap_2). cbn [andb].
    apply andb_true_iff. split.
    + destruct (parent_event_id root) as [p|] eqn:Hp; [|done].
      apply negb_true_iff, bool_decide_eq_false.
      change (root :: levels_from h source 1 n)
        with ([root] ++ levels_from h source 1 n).
      intros (e & -> & He)%list_elem_of_fmap.
      assert (is_Some (level h source (event_id e))) as [j Hj].
      { apply elem_of_app in He as [->%list_elem_of_singleton | He].
        - rewrite (level_row h source root Hf Hroot), decide_True; done.
        - apply elem_of_levels_from in He as (_ & j & Hj & _). by exists j. }
      rewrite (level_above_source h source root (event_id e)) in Hj; done.
    + apply levels_listing; [done|]. intros v. split.
      * intros ->%list_elem_of_singleton. exists 0%nat. split; [|lia].
        replace (level h source source)
          with (level h source (event_id root)) by (by rewrite Hid).
        rewrite (level_row h source root Hf Hroot).
        by rewrite decide_True.
      * intros (j & Hj & Hle). assert (j = 0%nat) as -> by lia.
        assert (v ∈ ids h) as (e & -> & He)%list_elem_of_fmap.
        { destruct (decide (v ∈ ids h)) as [|Hn]; [done|].
          rewrite (level_outside h source v Hn) in Hj. done. }
        rewrite (level_row h source e Hf He) in Hj.
        case_decide as Hes; [rewrite Hes; left|].
        destruct (parent_event_id e); [|done].
        by destruct (level h source s).
  - (* the rows of the answer are rows of the table, once each *)
    assert (NoDup (ids (levels_from h source 0 (length h)))) as Hnd'.
    { clear Hin H0. generalize 0%nat as k. generalize (length h) as n.
      induction n as [|n IH]; intros k; [apply NoDup_nil_2|].
      cbn [levels_from]. unfold ids. rewrite fmap_app. apply NoDup_app.
      split; [by apply NoDup_ids_filter|]. split; [|apply IH].
      intros v (e & -> & [Hl He]%elem_of_level_rows)%list_elem_of_fmap
        (e' & Heq & (He' & j & Hj & Hlt)%elem_of_levels_from)%list_elem_of_fmap.
      rewrite Heq, Hj in Hl. injection Hl as ->. lia. }
    assert (length (ids (levels_from h source 0 (length h)))
            ≤ length (ids h))%nat as Hle.
    { apply submseteq_length, NoDup_submseteq; [exact Hnd'|].
      intros v (e & -> & [He _]%Hin)%list_elem_of_fmap.
      by apply list_elem_of_fmap_2. }
    unfold ids in Hle. by rewrite !length_fmap in Hle.
Qed.
(** The path finder on an answer of [getEventDescendants] that lists a
    tree. *)
Lemma influence_path_of_listing fuel h events sourceEventId targetEventId :
  getEventDescendants fuel h sourceEventId = Some events →
  tree_listing sourceEventId events = true →
  (length events ≤ fuel)%nat →
  match tree_paths events !! targetEventId with
  | Some path =>
      findEventInfluencePath fuel h sourceEventId targetEventId
      = Some (inr (Influence.Path sourceEventId targetEventId
                     (node_of <$> path)
                     (Influence.Fin (total_duration path))
                     Influence.found_message))
      ∧ tree_path events sourceEventId targetEventId path
      ∧ ∀ path', tree_path events sourceEventId targetEventId path' →
                 path' = path
  | None =>
      (targetEventId ∉ ids events)
      ∧ (∀ path', ¬ tree_path events sourceEventId targetEventId path')
      ∧ findEventInfluencePath fuel h sourceEventId targetEventId
        = Some (inr (Influence.Path sourceEventId targetEventId []
                       (Influence.Fin 0) Influence.no_path_message))
  end.
Proof.
  intros Hq Hl Hfuel. unfold findEventInfluencePath. rewrite Hq.
  cbn [mbind option_bind].
  pose proof (of_events_on_tree fuel events sourceEventId targetEventId
                Hl Hfuel) as Hres.
  destruct (tree_paths events !! targetEventId) as [path|] eqn:Hpath.
  - split; [done|]. split; [by apply tree_paths_sound|].
    intros path' Hp'%(tree_paths_complete _ _ _ _ Hl). congruence.
  - destruct Hres as [Hn Hres]. split; [done|]. split; [|done].
    intros path' Hp'%(tree_paths_complete _ _ _ _ Hl). congruence.
Qed.


(** *** Paths in the store and in the answer of the query *)

Lemma tree_path_mono (events h : list Row) source v path :
  (∀ e, e ∈ events → e ∈ h) →
  tree_path events source v path → tree_path h source v path.
Proof.
  intros Hsub. induction 1 as [r Hr Heq | u path r Hpath IH Hr Hpar].
  - apply tree_path_source; auto.
  - apply (tree_path_child _ _ u); auto.
Qed.

Lemma tree_path_level h source events v path :
  forest h = true →
  (∀ e, e ∈ events ↔ e ∈ h ∧ is_Some (level h source (event_id e))) →
  tree_path h source v path →
  tree_path events source v path ∧ is_Some (level h source v).
Proof.
  intros Hf Hin. induction 1 as [r Hr Heq | u path r Hpath [IH Hu] Hr Hpar].
  - assert (is_Some (level h source (event_id r))) as Hl.
    { rewrite (level_row h source r Hf Hr), decide_True; done. }
    split; [|by rewrite Heq in Hl]. apply tree_path_source; [|done].
    by apply Hin.
  - assert (is_Some (level h source (event_id r))) as Hl.
    { rewrite (level_row h source r Hf Hr). case_decide; [done|].
      rewrite Hpar. destruct Hu as [j ->]. done. }
    split; [|done]. apply (tree_path_child _ _ u); [done| |done].
    by apply Hin.
Qed.

(** X23. In a store that is a forest and holds the source, the source
    given as the store holds it, with a round of fuel for each row: when a
    path of parent-to-child links leads from the source to the target,
    the path finder answers with that path, which is the only one, and
    with the sum of the durations of its events, that of the source
    included; when there is none, with the empty path, a total of 0 and
    the no-path message. One of the two is the case. *)
Theorem influence_path_on_tree fuel h sourceEventId targetEventId :
  forest h = true →
  uuid_in sourceEventId = sourceEventId →
  sourceEventId ∈ ids h →
  (length h ≤ fuel)%nat →
  (∀ path, tree_path h sourceEventId targetEventId path →
     findEventInfluencePath fuel h sourceEventId targetEventId
     = Some (inr (Influence.Path sourceEventId targetEventId
                    (node_of <$> path)
                    (Influence.Fin (total_duration path))
                    Influence.found_message))
     ∧ ∀ path', tree_path h sourceEventId targetEventId path' →
                path' = path)
  ∧ ((∀ path, ¬ tree_path h sourceEventId targetEventId path) →
     findEventInfluencePath fuel h sourceEventId targetEventId
     = Some (inr (Influence.Path sourceEventId targetEventId []
                    (Influence.Fin 0) Influence.no_path_message)))
  ∧ ((∃ path, tree_path h sourceEventId targetEventId path)
     ∨ ∀ path, ¬ tree_path h sourceEventId targetEventId path).
Proof.
  intros Hf Hu Hs Hfuel.
  destruct (descendants_listing h sourceEventId fuel Hf Hu Hs Hfuel)
    as (events & Hq & Hl & Hlen & Hin).
  assert (length events ≤ fuel)%nat as Hfuel' by lia.
  pose proof (influence_path_of_listing fuel h events sourceEventId
                targetEventId Hq Hl Hfuel') as Hres.
  assert (∀ path, tree_path h sourceEventId targetEventId path →
                  tree_paths events !! targetEventId = Some path) as Hdown.
  { intros path [Hp _]%(tree_path_level h sourceEventId events); [|done..].
    by apply (tree_paths_complete sourceEventId). }
  assert (∀ path, tree_path events sourceEventId targetEventId path →
                  tree_path h sourceEventId targetEventId path) as Hup.
  { intros path. apply tree_path_mono. intros e He. by apply Hin. }
  destruct (tree_paths events !! targetEventId) as [path0|] eqn:Hpath.
  - destruct Hres as (Hfound & Hp0 & _). split; [|split].
    + intros path Hp. apply Hdown in Hp as [= <-]. split; [done|].
      intros path' Hp'. apply Hdown in Hp'. congruence.
    + intros Hno. by destruct (Hno path0 (Hup path0 Hp0)).
    + left. eauto.
  - destruct Hres as (_ & _ & Hnone). split; [|split].
    + intros path Hp. apply Hdown in Hp. done.
    + done.
    + right. intros path Hp. apply Hdown in Hp. done.
Qed.

(** * The claims on concrete inputs *)

Section Examples.

Import Demo.

Local Abbreviation A := (line idA "NULL").
Local Abbreviation B := (line idB idA).
Local Abbreviation C := (line idC idB).
Local Abbreviation D := (line idD idC).

(** The file A, C (parent B), B (parent A): all three are committed,
    no error is recorded. *)
Lemma forward_reference_example :
  let d := ingest [A; C; B] [] [] in
  ids (historical_events d) = [idA; idB; idC]
  ∧ status (ingestion_job d) = COMPLETED
  ∧ processed_lines (ingestion_job d) = 3%nat
  ∧ error_lines (ingestion_job d) = 0%nat
  ∧ errors (ingestion_job d) = [].
Proof. vm_compute. repeat split. Qed.

Lemma promotion_two_levels_witness :
  let env := Demo.env [A; C; B] in
  let d := {| historical_events := []; staging_events := [];
              ingestion_job := createIngestionJob 0 "events.txt" |} in
  let s := after_lines Date_getTime column_check env "events.txt" d in
  let d' := processFile Date_getTime column_check env "events.txt" d in
  status (ingestion_job d') = COMPLETED
  ∧ historical_events d'
    = historical_events (db s) ++ first_part (db s) ++ second_part (db s).
Proof.
  cbn zeta. split; [vm_compute; reflexivity|].
  apply (promotion_two_levels Date_getTime column_check).
  vm_compute. reflexivity.
Defined.

(** C1 as stated fails. The file D (parent C), C (parent B), B (parent A),
    A: when the lines are read A is committed and D, C, B are staged; the
    deferred statement commits B and C. D stays staged and uncommitted in
    a job that ends [COMPLETED], although its parent C, and B and A above
    it, are all in the main store. *)
Lemma promotion_is_not_a_fixed_point :
  let d := ingest [D; C; B; A] [] [] in
  status (ingestion_job d) = COMPLETED
  ∧ ids (historical_events d) = [idA; idB; idC]
  ∧ (parent_event_id <$> filter (λ r, event_id r = idD) (staging_events d))
    = [Some idC]
  ∧ idD ∉ ids (historical_events d).
Proof.
  cbn zeta. split; [vm_compute; reflexivity|].
  split; [vm_compute; reflexivity|]. split; [vm_compute; reflexivity|].
  apply (bool_decide_unpack _). vm_compute. exact I.
Qed.

Lemma unresolved_staged_not_reported_witness :
  let d' := ingest [B; "junk"] [] [] in
  NoDup (ids ([] : list Row))
  ∧ status (ingestion_job d') = COMPLETED
  ∧ error_lines (ingestion_job d') = 1%nat
  ∧ ids (historical_events d') = []
  ∧ ids (staging_events d') = [idB].
Proof.
  cbn zeta.
  assert (NoDup (ids ([] : list Row))) as Hnd by apply NoDup_nil_2.
  assert (status (ingestion_job (ingest [B; "junk"] [] [])) = COMPLETED)
    as Hc by (vm_compute; reflexivity).
  destruct (unresolved_staged_not_reported Date_getTime column_check
              (Demo.env [B; "junk"]) 1699999999000 "events.txt" [] []
              Hnd Hc) as (_ & He & _).
  split; [exact Hnd|]. split; [exact Hc|].
  split; [unfold ingest; rewrite He|split]; vm_compute; reflexivity.
Defined.

(** C2 as stated fails. The file of the single line B (parent A): A never
    appears; the job ends [COMPLETED] with B staged and not committed, one
    processed line, and no error recorded. *)
Lemma orphan_is_not_reported :
  let d := ingest [B] [] [] in
  status (ingestion_job d) = COMPLETED
  ∧ ids (staging_events d) = [idB]
  ∧ historical_events d = []
  ∧ processed_lines (ingestion_job d) = 1%nat
  ∧ error_lines (ingestion_job d) = 0%nat
  ∧ errors (ingestion_job d) = [].
Proof. vm_compute. repeat split. Qed.

Lemma extra_delimiter_rejected_witness :
  let line := A +:+ "|more" in
  let s := loop_start {| historical_events := []; staging_events := [];
                         ingestion_job := createIngestionJob 0 "events.txt" |} in
  (7 < length (Js.split "|" line))%nat
  ∧ parseLine Date_getTime "events.txt" 1 line
    = inl (Error "Invalid number of fields. Expected 7, got 8.").
Proof.
  cbn zeta.
  assert (7 < length (Js.split "|" (A +:+ "|more")))%nat as H
    by (vm_compute; lia).
  split; [exact H|].
  destruct (extra_delimiter_rejected Date_getTime column_check "events.txt"
              (loop_start {| historical_events := []; staging_events := [];
                             ingestion_job :=
                               createIngestionJob 0 "events.txt" |})
              (A +:+ "|more") H) as [Hp _].
  exact Hp.
Defined.



Lemma clean_file_all_processed_witness :
  let j := ingestion_job (ingest [A; B; C] [] []) in
  status j = COMPLETED ∧ processed_lines j = 3%nat ∧ total_lines j = 3%nat
  ∧ error_lines j = 0%nat.
Proof.
  cbn zeta.
  destruct (clean_file_all_processed Date_getTime column_check
              (Demo.env [A; B; C]) 1699999999000 "events.txt" [] [])
    as (Hp & Ht & He & _ & Hst);
    [reflexivity|reflexivity|vm_compute; reflexivity|].
  destruct (Hst eq_refl) as [Hc _]. unfold ingest.
  split; [exact Hc|]. split; [by rewrite Hp, Ht|]. split; [exact Ht|exact He].
Defined.

Lemma commit_existing_id_is_noop_witness :
  let q := stored (ev idA None 0 (30 * minute)) in
  column_check q = None
  ∧ event_id (stored q) ∈ ids [q]
  ∧ insertHistorical column_check q [q] = inr [q].
Proof.
  cbn zeta.
  assert (column_check (stored (ev idA None 0 (30 * minute))) = None) as Hc
    by (vm_compute; reflexivity).
  assert (event_id (stored (stored (ev idA None 0 (30 * minute))))
          ∈ ids [stored (ev idA None 0 (30 * minute))]) as Hin
    by (apply (bool_decide_unpack _); vm_compute; exact I).
  split; [exact Hc|]. split; [exact Hin|].
  destruct (commit_existing_id_is_noop Date_getTime column_check _ _ Hc Hin)
    as [Hi _].
  exact Hi.
Defined.

Lemma completed_job_counts_every_line_witness :
  let j := ingestion_job (ingest [A; "junk"; C] [] []) in
  status j = COMPLETED
  ∧ (processed_lines j + error_lines j)%nat = total_lines j
  ∧ total_lines j = 3%nat.
Proof.
  cbn zeta.
  assert (status (ingestion_job (ingest [A; "junk"; C] [] [])) = COMPLETED)
    as Hc by (vm_compute; reflexivity).
  destruct (completed_job_counts_every_line Date_getTime column_check
              (Demo.env [A; "junk"; C]) 1699999999000 "events.txt" [] [] Hc)
    as (Hsum & Htot & _).
  split; [exact Hc|]. split; [exact Hsum|exact Htot].
Defined.

(** Rows stay in [staging_events] after they are promoted, and the
    deferred statement has no [ON CONFLICT] clause: after the job of the
    file A, C, B, the job of the clean file D ends [FAILED] on the
    duplicate key of C, with its counters as for a completed job. *)
Lemma second_job_fails_on_promoted_row :
  let d1 := ingest [A; C; B] [] [] in
  let d2 := ingest [line idD "NULL"] (historical_events d1)
              (staging_events d1) in
  ids (staging_events d1) = [idC]
  ∧ status (ingestion_job d2) = FAILED
  ∧ errors (ingestion_job d2)
    = ["Fatal Error: duplicate key value violates unique constraint historical_events_pkey"]
  ∧ processed_lines (ingestion_job d2) = 1%nat
  ∧ total_lines (ingestion_job d2) = 1%nat
  ∧ error_lines (ingestion_job d2) = 0%nat.
Proof. vm_compute. repeat split. Qed.

(** *** The insight service *)

Local Abbreviation eA := (ev idA None 0 (30 * minute)).
Local Abbreviation eB := (ev idB None (20 * minute) (50 * minute)).

(** A[00:00, 00:30] and B[00:20, 00:50]: one pair, ten minutes. *)
Lemma overlap_reported_once_iff_positive_witness :
  let h := [eA; eB] in
  let out := findOverlappingEvents h 0 (60 * minute) in
  NoDup (ids h)
  ∧ Forall (λ r, UUID_REGEX_test (event_id r) = true) h
  ∧ eA ∈ getEventsInRange h 0 (60 * minute)
  ∧ eB ∈ getEventsInRange h 0 (60 * minute)
  ∧ times_reported idA idB out = 1%nat
  ∧ overlap_duration_minutes <$> out = [10].
Proof.
  cbn zeta.
  assert (NoDup (ids [eA; eB])) as Hnd
    by (apply (bool_decide_unpack _); vm_compute; exact I).
  assert (Forall (λ r, UUID_REGEX_test (event_id r) = true) [eA; eB]) as Hbar
    by (repeat constructor).
  assert (eA ∈ getEventsInRange [eA; eB] 0 (60 * minute)) as HA
    by (apply (bool_decide_unpack _); vm_compute; exact I).
  assert (eB ∈ getEventsInRange [eA; eB] 0 (60 * minute)) as HB
    by (apply (bool_decide_unpack _); vm_compute; exact I).
  assert (event_id eA ≠ event_id eB) as Hne by discriminate.
  destruct (overlap_reported_once_iff_positive [eA; eB] 0 (60 * minute)
              eA eB Hnd Hbar HA HB Hne) as [Hn _].
  split; [exact Hnd|]. split; [exact Hbar|]. split; [exact HA|].
  split; [exact HB|]. split; [exact Hn|]. vm_compute. reflexivity.
Defined.

(** A[00:00, 00:10] and B[00:10, 00:20] touch: no pair. *)
Lemma boundary_touch_example :
  findOverlappingEvents
    [ev idA None 0 (10 * minute); ev idB None (10 * minute) (20 * minute)]
    0 (60 * minute) = [].
Proof. vm_compute. reflexivity. Qed.

(** A[0, +10m], B[+30m, +40m]: a gap of twenty minutes; one event: none. *)
Lemma gap_example :
  Gap.durationMinutes
    <$> Gap.largestGap
          (findTemporalGaps
             [ev idA None 0 (10 * minute);
              ev idB None (30 * minute) (40 * minute)] 0 (60 * minute))
  = Some 20
  ∧ Gap.largestGap
      (findTemporalGaps [ev idA None 0 (10 * minute)] 0 (60 * minute))
    = None.
Proof. vm_compute. split; reflexivity. Qed.

(** The example of the claim: A[0, +10m] and B[+30m, +40m] are the only
    consecutive pair, twenty minutes apart, and the answer is this pair. *)
Lemma largest_gap_from_a_minute_witness :
  let a := ev idA None 0 (10 * minute) in
  let b := ev idB None (30 * minute) (40 * minute) in
  let res := findTemporalGaps [a; b] 0 (60 * minute) in
  sorted_window [a; b] 0 (60 * minute)
    (getSortedEventsInRange [a; b] 0 (60 * minute))
  ∧ consecutive (getSortedEventsInRange [a; b] 0 (60 * minute)) = [(a, b)]
  ∧ gap_ms (a, b) = 20 * minute
  ∧ Gap.largestGap res = Some (Gap.between a b)
  ∧ Gap.durationMinutes (Gap.between a b) = 20.
Proof.
  cbn zeta.
  set (a := ev idA None 0 (10 * minute)).
  set (b := ev idB None (30 * minute) (40 * minute)).
  assert (sorted_window [a; b] 0 (60 * minute)
            (getSortedEventsInRange [a; b] 0 (60 * minute))) as Hw.
  { split; [vm_compute; reflexivity|].
    vm_compute. repeat constructor; discriminate. }
  assert (consecutive (getSortedEventsInRange [a; b] 0 (60 * minute))
          = [(a, b)]) as Hc by (vm_compute; reflexivity).
  assert (gap_ms (a, b) = 20 * minute) as Hg by (vm_compute; reflexivity).
  split; [exact Hw|]. split; [exact Hc|]. split; [exact Hg|].
  split; [|vm_compute; reflexivity].
  destruct (largest_gap_from_a_minute [a; b] 0 (60 * minute) _ Hw)
    as [_ Hlargest].
  rewrite Hc in Hlargest.
  destruct (Hlargest a b) as (_ & _ & Hthe).
  - left.
  - rewrite Hg. vm_compute. discriminate.
  - intros p ->%list_elem_of_singleton. lia.
  - intros p ->%list_elem_of_singleton. lia.
  - apply Hthe. by intros p ->%list_elem_of_singleton.
Defined.

Local Abbreviation gA := (ev idA None 0 0).
Local Abbreviation gB := (ev idB None 90000 90000).
Local Abbreviation gC := (ev idC None 170000 170000).

(** The comparison of the scan sets milliseconds against the gap kept so
    far floored to minutes. Three instants at 0 s, 90 s and 170 s: the
    gaps are 90 s and 80 s. The scan keeps the first gap as one minute,
    finds the second longer than one minute, and answers with the second
    pair, whose gap is not the largest. *)
Lemma largest_gap_is_not_returned :
  let res := findTemporalGaps [gA; gB; gC] 0 (60 * minute) in
  Gap.largestGap res = Some (Gap.between gB gC)
  ∧ consecutive (getSortedEventsInRange [gA; gB; gC] 0 (60 * minute))
    = [(gA, gB); (gB, gC)]
  ∧ gap_ms (gB, gC) = 80000
  ∧ gap_ms (gA, gB) = 90000.
Proof. vm_compute. repeat split. Qed.

(** C6 as stated fails. Two instants 30 s apart: the gap is strictly
    positive, the answer is [null]. *)
Lemma short_gap_is_not_reported :
  let res := findTemporalGaps [gA; ev idB None 30000 30000] 0 (60 * minute) in
  Gap.largestGap res = None
  ∧ Gap.message res = Gap.no_gap_message
  ∧ gap_ms (gA, ev idB None 30000 30000) = 30000.
Proof. vm_compute. repeat split. Qed.

Local Abbreviation tA := (ev idA None 0 (30 * minute)).
Local Abbreviation tB := (ev idB (Some idA) 0 (10 * minute)).
Local Abbreviation tC := (ev idC (Some idB) 0 (5 * minute)).
Local Abbreviation tD := (ev idD None 0 minute).

(** The tree A (30 min), B (10 min), C (5 min), and an unrelated D: the
    path from A to C is A, B, C with a total of 45; from A to A it is A
    with a total of 30, the source's own duration; there is none to D. *)
Lemma influence_path_on_tree_witness :
  let h := [tA; tB; tC; tD] in
  forest h = true
  ∧ uuid_in idA = idA
  ∧ idA ∈ ids h
  ∧ findEventInfluencePath 4 h idA idC
    = Some (inr (Influence.Path idA idC [node_of tA; node_of tB; node_of tC]
                   (Influence.Fin 45) Influence.found_message))
  ∧ findEventInfluencePath 4 h idA idA
    = Some (inr (Influence.Path idA idA [node_of tA] (Influence.Fin 30)
                   Influence.found_message))
  ∧ findEventInfluencePath 4 h idA idD
    = Some (inr (Influence.Path idA idD [] (Influence.Fin 0)
                   Influence.no_path_message)).
Proof.
  cbn zeta.
  assert (forest [tA; tB; tC; tD] = true) as Hf by (vm_compute; reflexivity).
  assert (uuid_in idA = idA) as Hu by (vm_compute; reflexivity).
  assert (idA ∈ ids [tA; tB; tC; tD]) as Hs
    by (apply (bool_decide_unpack _); vm_compute; exact I).
  assert (length [tA; tB; tC; tD] ≤ 4)%nat as Hfuel by (cbn; lia).
  assert (∀ x, x ∈ [tA; tB; tC; tD] → x = tA ∨ x = tB ∨ x = tC ∨ x = tD)
    as Hrows.
  { intros x Hx. repeat (apply elem_of_cons in Hx as [->|Hx]; [tauto|]).
    by apply elem_of_nil in Hx. }
  assert (tree_path [tA; tB; tC; tD] idA idA [tA]) as PA.
  { apply tree_path_source; [left|reflexivity]. }
  assert (tree_path [tA; tB; tC; tD] idA idC [tA; tB; tC]) as PC.
  { apply (tree_path_child _ _ idB [tA; tB] tC);
      [|right; right; left|reflexivity].
    apply (tree_path_child _ _ idA [tA] tB); [exact PA|right; left|reflexivity]. }
  assert (∀ t path, tree_path [tA; tB; tC; tD] idA t path → t ≠ idD) as PD'.
  { intros t path H. destruct H as [r Hr Hid | u p r Hp Hr Hpar].
    - discriminate.
    - destruct (Hrows r Hr) as [-> | [-> | [-> | ->]]]; discriminate. }
  assert (∀ path, ¬ tree_path [tA; tB; tC; tD] idA idD path) as PD.
  { intros path H. by apply (PD' idD path H). }
  destruct (influence_path_on_tree 4 [tA; tB; tC; tD] idA idC Hf Hu Hs Hfuel)
    as (HC & _ & _).
  destruct (influence_path_on_tree 4 [tA; tB; tC; tD] idA idA Hf Hu Hs Hfuel)
    as (HA & _ & _).
  destruct (influence_path_on_tree 4 [tA; tB; tC; tD] idA idD Hf Hu Hs Hfuel)
    as (_ & HD & _).
  split; [exact Hf|]. split; [exact Hu|]. split; [exact Hs|].
  split; [exact (proj1 (HC _ PC))|].
  split; [exact (proj1 (HA _ PA))|exact (HD PD)].
Defined.

End Examples.


(** * Further properties of the code *)

(** ** The line parser *)

Lemma split_not_nil (s : string) : Js.split "|" s ≠ [].
Proof.
  destruct s as [|a s]; cbn; [done|].
  destruct (Ascii.eqb a "|"); [done|]. by destruct (Js.split "|" s).
Qed.

Lemma join_split (s : string) : Js.join "|" (Js.split "|" s) = s.
Proof.
  induction s as [|a s IH]; [done|]. cbn [Js.split].
  destruct (Ascii.eqb a "|") eqn:Ha.
  - apply Ascii.eqb_eq in Ha as ->.
    pose proof (split_not_nil s) as Hne.
    destruct (Js.split "|" s) as [|p ps] eqn:Hs; [done|].
    change (Js.join "|" ("" :: p :: ps))
      with ("" +:+ "|" +:+ Js.join "|" (p :: ps)).
    by rewrite IH.
  - pose proof (split_not_nil s) as Hne.
    destruct (Js.split "|" s) as [|p ps] eqn:Hs; [done|].
    destruct ps as [|p' ps].
    + cbn in *. by rewrite IH.
    + change (Js.join "|" (String a p :: p' :: ps))
        with (String a p +:+ "|" +:+ Js.join "|" (p' :: ps)).
      change (Js.join "|" (p :: p' :: ps))
        with (p +:+ "|" +:+ Js.join "|" (p' :: ps)) in IH.
      by rewrite append_cons, IH.
Qed.

Lemma split_no_bar (s : string) : no_bar s = true → Js.split "|" s = [s].
Proof.
  induction s as [|a s IH]; [done|]. cbn.
  intros [Ha Hs]%andb_true_iff. apply negb_true_iff in Ha. rewrite Ha.
  by rewrite (IH Hs).
Qed.

Lemma split_field (a rest : string) :
  no_bar a = true →
  Js.split "|" (a +:+ "|" +:+ rest) = a :: Js.split "|" rest.
Proof.
  induction a as [|c a IH]; intros Ha.
  - by rewrite append_nil_l.
  - cbn in Ha. apply andb_true_iff in Ha as [Hc Ha].
    apply negb_true_iff in Hc. rewrite append_cons. cbn [Js.split].
    rewrite Hc, (IH Ha). done.
Qed.

Lemma no_bar_split (s : string) :
  Forall (λ p, no_bar p = true) (Js.split "|" s).
Proof.
  induction s as [|a s IH]; [by repeat constructor|]. cbn [Js.split].
  destruct (Ascii.eqb a "|") eqn:Ha; [by constructor|].
  destruct (Js.split "|" s) as [|p ps]; [by repeat constructor; cbn; rewrite Ha|].
  apply Forall_cons in IH as [Hp Hps]. constructor; [|done].
  cbn. by rewrite Ha, Hp.
Qed.

Section ParserFacts.

Variable Date_getTime : string -> option Z.

Abbreviation parseLine := (parseLine Date_getTime).

(** What an accepted line looks like: the seven fields, the checks they
    passed and the row built from them. *)
Lemma parseLine_inr filePath lineNumber line q :
  parseLine filePath lineNumber line = inr q →
  ∃ startDateIso endDateIso parentIdOrNull,
    Js.split "|" line
    = [event_id q; event_name q; startDateIso; endDateIso; parentIdOrNull;
       Metadata.researchValue (metadata q); description q]
    ∧ UUID_REGEX_test (event_id q) = true
    ∧ parent_event_id q
      = (if String.eqb (Js.toUpperCase parentIdOrNull) "NULL" then None
         else Some parentIdOrNull)
    ∧ (Js.truthy (parent_event_id q) = true →
       UUID_REGEX_test parentIdOrNull = true)
    ∧ Date_getTime startDateIso = Some (start_date q)
    ∧ Date_getTime endDateIso = Some (end_date q)
    ∧ start_date q ≤ end_date q
    ∧ duration_minutes q = (end_date q - start_date q + 30000) / 60000
    ∧ Metadata.originalSourceFile (metadata q) = filePath
    ∧ Metadata.lineNumber (metadata q) = lineNumber.
Proof.
  unfold parseLine. cbn zeta.
  destruct (length (Js.split "|" line) =? 7)%nat eqn:Hlen; [|done].
  apply Nat.eqb_eq in Hlen. cbn [negb].
  destruct (Js.split "|" line)
    as [|f1 [|f2 [|f3 [|f4 [|f5 [|f6 [|f7 [|f8 rest]]]]]]]]; try done.
  destruct (UUID_REGEX_test f1) eqn:Hid; [|done]. cbn [negb].
  destruct (Js.truthy _ && negb (UUID_REGEX_test f5)) eqn:Hpar; [done|].
  destruct (Date_getTime f3) as [startDate|] eqn:Hs; [|done].
  destruct (Date_getTime f4) as [endDate|] eqn:He; [|done].
  destruct (endDate <? startDate)%Z eqn:Hord; [done|].
  apply Z.ltb_ge in Hord. intros [= <-]. cbn.
  exists f3, f4, f5. repeat split; try done.
  intros Ht. rewrite Ht in Hpar. cbn in Hpar. by apply negb_false_iff in Hpar.
Qed.

(** X1. A line that the parser accepts is its seven fields joined by the
    delimiter, none of which holds the delimiter: the id, which reads as a
    UUID, the name, the two dates, which [Date] reads and of which the
    first is not after the second, the parent, the research value and the
    description. The parent of the row is [null] when the field reads
    NULL in any case, and the field otherwise, which then is a UUID or
    empty. The duration is the span in minutes, rounded: within half a
    minute of it, and not negative. *)
Theorem accepted_line_is_its_fields filePath lineNumber line q :
  parseLine filePath lineNumber line = inr q →
  ∃ startDateIso endDateIso parentIdOrNull,
    let fields :=
      [event_id q; event_name q; startDateIso; endDateIso; parentIdOrNull;
       Metadata.researchValue (metadata q); description q] in
    line = Js.join "|" fields
    ∧ Forall (λ f, no_bar f = true) fields
    ∧ UUID_REGEX_test (event_id q) = true
    ∧ Date_getTime startDateIso = Some (start_date q)
    ∧ Date_getTime endDateIso = Some (end_date q)
    ∧ start_date q ≤ end_date q
    ∧ (Js.toUpperCase parentIdOrNull = "NULL" → parent_event_id q = None)
    ∧ (Js.toUpperCase parentIdOrNull ≠ "NULL" →
       parent_event_id q = Some parentIdOrNull
       ∧ (parentIdOrNull = "" ∨ UUID_REGEX_test parentIdOrNull = true))
    ∧ 0 ≤ duration_minutes q
    ∧ 60000 * duration_minutes q - 30000 ≤ end_date q - start_date q
      < 60000 * duration_minutes q + 30000.
Proof.
  intros Hp.
  destruct (parseLine_inr _ _ _ _ Hp)
    as (s & e & p & Hsplit & Hid & Hpar & Hpu & Hs & He & Hord & Hdur & _).
  exists s, e, p. cbn zeta.
  split; [by rewrite <- Hsplit, join_split|].
  split; [rewrite <- Hsplit; apply no_bar_split|].
  do 4 (split; [done|]).
  split; [|split; [|split]].
  - intros Hnull. rewrite Hpar, Hnull. done.
  - intros Hnn. apply String.eqb_neq in Hnn. rewrite Hnn in Hpar.
    split; [done|]. destruct p as [|c p]; [by left|right].
    apply Hpu. by rewrite Hpar.
  - rewrite Hdur. apply Z.div_pos; lia.
  - rewrite Hdur.
    pose proof (Z.div_mod (end_date q - start_date q + 30000) 60000).
    pose proof (Z.mod_pos_bound (end_date q - start_date q + 30000) 60000).
    lia.
Qed.

(** X2. Seven fields joined by the delimiter are read back as they are. When
    none but the id holds the delimiter, the id reads as a UUID, the
    parent field reads NULL in some case, is empty or reads as a UUID, and
    the dates are read by [Date] with the first not after the second, the
    parser accepts the line and builds the row of these fields. *)
Theorem joined_fields_are_parsed filePath lineNumber eventId eventName
    startDateIso endDateIso parentIdOrNull researchValue description
    startDate endDate :
  Forall (λ f, no_bar f = true)
    [eventName; startDateIso; endDateIso; parentIdOrNull; researchValue;
     description] →
  UUID_REGEX_test eventId = true →
  Js.toUpperCase parentIdOrNull = "NULL" ∨ parentIdOrNull = ""
  ∨ UUID_REGEX_test parentIdOrNull = true →
  Date_getTime startDateIso = Some startDate →
  Date_getTime endDateIso = Some endDate →
  startDate ≤ endDate →
  parseLine filePath lineNumber
    (Js.join "|" [eventId; eventName; startDateIso; endDateIso;
                  parentIdOrNull; researchValue; description])
  = inr {| event_id := eventId;
           event_name := eventName;
           description := description;
           start_date := startDate;
           end_date := endDate;
           duration_minutes := (endDate - startDate + 30000) / 60000;
           parent_event_id :=
             (if String.eqb (Js.toUpperCase parentIdOrNull) "NULL" then None
              else Some parentIdOrNull);
           metadata :=
             {| Metadata.originalSourceFile := filePath;
                Metadata.lineNumber := lineNumber;
                Metadata.researchValue := researchValue |} |}.
Proof.
  intros Hbars Hid Hpar Hs He Hord.
  repeat (apply Forall_cons in Hbars as [? Hbars]).
  pose proof (UUID_no_bar _ Hid) as Hidbar.
  unfold parseLine. cbn [Js.join].
  rewrite !split_field, split_no_bar by done.
  cbn [length Nat.eqb negb]. rewrite Hid. cbn [negb].
  rewrite Hs, He.
  assert ((endDate <? startDate)%Z = false) as -> by (apply Z.ltb_ge; lia).
  destruct (String.eqb (Js.toUpperCase parentIdOrNull) "NULL") eqn:Hnull;
    [done|].
  destruct Hpar as [Hpar | [-> | Hpar]].
  - apply String.eqb_neq in Hnull. done.
  - done.
  - rewrite Hpar. by rewrite andb_false_r.
Qed.

End ParserFacts.

(** ** The ids of the store *)

Lemma lower_char_idem a : Js.lower_char (Js.lower_char a) = Js.lower_char a.
Proof. by destruct a as [[] [] [] [] [] [] [] []]. Qed.

Lemma is_hex_lower a : Js.is_hex (Js.lower_char a) = Js.is_hex a.
Proof. by destruct a as [[] [] [] [] [] [] [] []]. Qed.

Lemma toLowerCase_idem s : Js.toLowerCase (Js.toLowerCase s) = Js.toLowerCase s.
Proof. induction s as [|a s IH]; [done|]. cbn. by rewrite lower_char_idem, IH. Qed.

Lemma uuid_in_idem s : uuid_in (uuid_in s) = uuid_in s.
Proof. apply toLowerCase_idem. Qed.

Lemma hex_run_lower n s :
  Js.hex_run n (Js.toLowerCase s) = Js.toLowerCase <$> Js.hex_run n s.
Proof.
  revert s. induction n as [|n IH]; intros s; [done|].
  destruct s as [|a s]; [done|]. cbn. rewrite is_hex_lower.
  destruct (Js.is_hex a); [apply IH|done].
Qed.

Lemma dash_lower s : Js.dash (Js.toLowerCase s) = Js.toLowerCase <$> Js.dash s.
Proof.
  destruct s as [|a s]; [done|].
  by destruct a as [[] [] [] [] [] [] [] []].
Qed.

Lemma hex_groups_lower gs s :
  Js.hex_groups gs (Js.toLowerCase s) = Js.toLowerCase <$> Js.hex_groups gs s.
Proof.
  revert s. induction gs as [|g gs IH]; intros s; [done|].
  destruct gs as [|g' gs]; [apply hex_run_lower|].
  change (Js.hex_groups (g :: g' :: gs) ?x)
    with (match Js.hex_run g x with
          | Some r => match Js.dash r with
                      | Some r' => Js.hex_groups (g' :: gs) r'
                      | None => None
                      end
          | None => None
          end).
  rewrite hex_run_lower. destruct (Js.hex_run g s) as [r|]; [|done]. cbn.
  rewrite dash_lower. destruct (Js.dash r) as [r'|]; [|done]. cbn. apply IH.
Qed.

(** The text that the column type gives back for a UUID reads as a UUID. *)
Lemma UUID_lower s : UUID_REGEX_test (uuid_in s) = UUID_REGEX_test s.
Proof.
  unfold UUID_REGEX_test, uuid_in. rewrite hex_groups_lower.
  destruct (Js.hex_groups _ s) as [[|a r]|]; done.
Qed.

Lemma UUID_truthy s : UUID_REGEX_test s = true → Js.truthy (Some s) = true.
Proof. by destruct s. Qed.

(** ** What a job does to the two tables *)

Lemma forest_from_app seen l1 l2 :
  forest_from seen (l1 ++ l2)
  = forest_from seen l1 && forest_from (seen ++ ids l1) l2.
Proof.
  revert seen. induction l1 as [|x l1 IH]; intros seen.
  - cbn. by rewrite app_nil_r.
  - cbn [app forest_from]. rewrite IH. unfold ids. rewrite fmap_cons.
    rewrite <- app_assoc. cbn [app]. by rewrite !andb_assoc.
Qed.

Lemma forest_snoc l r :
  forest l = true →
  (∀ p, parent_event_id r = Some p → p ∈ ids l) →
  event_id r ∉ ids l → Js.truthy (Some (event_id r)) = true →
  forest (l ++ [r]) = true.
Proof.
  intros Hf Hp Hfresh Ht. unfold forest in *. rewrite forest_from_app, Hf.
  cbn [forest_from app andb]. rewrite Ht, (bool_decide_false _ Hfresh).
  destruct (parent_event_id r) as [p|]; [|done].
  by rewrite bool_decide_true by auto.
Qed.

Lemma insertRows_app rows1 rows2 h :
  insertRows (rows1 ++ rows2) h
  = match insertRows rows1 h with
    | inl e => inl e
    | inr h1 => insertRows rows2 h1
    end.
Proof.
  revert h. induction rows1 as [|r rows1 IH]; intros h; [done|].
  cbn. case_bool_decide; [done|]. apply IH.
Qed.

(** Rows whose parents are in the table and which the insert accepts
    extend a forest to a forest. *)
Lemma insertRows_forest rows h h' :
  forest h = true →
  (∀ r, r ∈ rows →
        Js.truthy (Some (event_id r)) = true
        ∧ ∀ p, parent_event_id r = Some p → p ∈ ids h) →
  insertRows rows h = inr h' → forest h' = true.
Proof.
  revert h. induction rows as [|r rows IH]; intros h Hf Hrows; cbn.
  - by intros [= <-].
  - case_bool_decide as Hin; [done|]. apply IH.
    + destruct (Hrows r) as [Ht Hp]; [left|]. by apply forest_snoc.
    + intros r' Hr'. destruct (Hrows r') as [Ht Hp]; [by right|].
      split; [done|]. intros p Hpp. unfold ids. rewrite fmap_app.
      apply elem_of_app. left. by apply Hp.
Qed.

Section StoreFacts.

Variable Date_getTime : string -> option Z.
Variable column_check : Row -> option string.

Abbreviation parseLine := (parseLine Date_getTime).
Abbreviation insertHistorical := (insertHistorical column_check).
Abbreviation processLine := (processLine Date_getTime column_check).
Abbreviation processLines := (processLines Date_getTime column_check).
Abbreviation after_lines := (after_lines Date_getTime column_check).
Abbreviation processFile := (processFile Date_getTime column_check).
Abbreviation startIngestionJob := (startIngestionJob Date_getTime column_check).

Lemma insertHistorical_inr q h h' :
  insertHistorical q h = inr h' →
  (h' = h ∧ event_id (stored q) ∈ ids h)
  ∨ (h' = h ++ [stored q] ∧ (event_id (stored q) ∉ ids h)
     ∧ ∀ p, parent_event_id (stored q) = Some p →
            p ∈ ids h ∨ p = event_id (stored q)).
Proof.
  unfold insertHistorical. destruct (column_check q); [done|].
  case_bool_decide as Hin; [intros [= <-]; by left|].
  destruct (fk_ok _ _) eqn:Hfk; [|done]. intros [= <-]. right.
  split; [done|]. split; [done|]. intros p Hp. unfold fk_ok in Hfk.
  rewrite Hp in Hfk. apply bool_decide_eq_true in Hfk. unfold ids in Hfk.
  rewrite fmap_app in Hfk.
  apply elem_of_app in Hfk as [?|?%list_elem_of_singleton]; auto.
Qed.

Lemma insertStaging_cases q st :
  insertStaging q st = st ∨ insertStaging q st = st ++ [stored q].
Proof. unfold insertStaging. case_bool_decide; auto. Qed.

(** One line: each table keeps its rows and gains at most the row of the
    line. *)
Lemma processLine_tables filePath s line :
  let s' := processLine filePath s line in
  (historical_events (db s') = historical_events (db s)
   ∨ ∃ q, parseLine filePath (S (lineNumber s)) line = inr q
          ∧ insertHistorical q (historical_events (db s))
            = inr (historical_events (db s) ++ [stored q])
          ∧ historical_events (db s')
            = historical_events (db s) ++ [stored q])
  ∧ (staging_events (db s') = staging_events (db s)
     ∨ ∃ q, parseLine filePath (S (lineNumber s)) line = inr q
            ∧ staging_events (db s') = staging_events (db s) ++ [stored q]).
Proof.
  destruct (processLine_cases Date_getTime column_check filePath s line)
    as [_ [H | [H | H]]].
  - destruct H as (_ & _ & Hst & _ & q & Hq & Hi). split; [|by left].
    destruct (insertHistorical_inr _ _ _ Hi) as [[Hh _] | [Hh _]];
      [by left|]. right. exists q. by rewrite <- Hh.
  - destruct H as (_ & _ & Hh & _ & q & Hq & _ & Hst). split; [by left|].
    rewrite Hst. destruct (insertStaging_cases q (staging_events (db s)));
      [by left|]. right. eauto.
  - destruct H as (_ & _ & Hh & Hst & _). split; by left.
Qed.

Lemma processLines_tables filePath s lines :
  let s' := processLines filePath s lines in
  (∃ more, historical_events (db s') = historical_events (db s) ++ more)
  ∧ (∃ staged, staging_events (db s') = staging_events (db s) ++ staged).
Proof.
  induction lines as [|line lines IH] using rev_ind.
  - split; exists []; by rewrite app_nil_r.
  - cbn zeta. rewrite (processLines_snoc Date_getTime column_check).
    destruct IH as [[more Hm] [staged Hs]].
    destruct (processLine_tables filePath (processLines filePath s lines) line)
      as [Hh Hst].
    split.
    + destruct Hh as [-> | (q & _ & _ & ->)]; rewrite Hm; [eauto|].
      exists (more ++ [stored q]). by rewrite app_assoc.
    + destruct Hst as [-> | (q & _ & ->)]; rewrite Hs; [eauto|].
      exists (staged ++ [stored q]). by rewrite app_assoc.
Qed.

(** X3. A job only adds rows: the events that the main store held are its
    first rows afterwards, unchanged, and so are the rows of the staging
    table, which no statement of the job deletes. *)
Theorem job_only_appends env filePath d :
  let d' := processFile env filePath d in
  (∃ more, historical_events d' = historical_events d ++ more)
  ∧ (∃ staged, staging_events d' = staging_events d ++ staged).
Proof.
  cbn zeta. unfold processFile.
  destruct (markProcessing_error env).
  { split; exists []; by rewrite app_nil_r. }
  pose proof (processLines_tables filePath
    (loop_start (set_job (markProcessing (ingestion_job d)) d))
    (stream_lines (fileStream env))) as [[more Hm] [staged Hs]].
  change (processLines filePath _ _) with (after_lines env filePath d) in Hm, Hs.
  cbn in Hm, Hs.
  destruct (stream_error (fileStream env)); [cbn; eauto|].
  destruct (deferredQuery _) as [e|h'] eqn:Hd; [cbn; eauto|].
  apply deferredQuery_inr in Hd. cbn. split; [|eauto].
  rewrite Hd, Hm. rewrite <- app_assoc. eauto.
Qed.

(** *** The main store stays a forest *)

Lemma stored_truthy filePath n line q :
  parseLine filePath n line = inr q →
  Js.truthy (Some (event_id (stored q))) = true.
Proof.
  intros (_ & _ & _ & _ & Hid & _)%parseLine_inr.
  apply UUID_truthy. cbn. by rewrite UUID_lower.
Qed.

Lemma processLines_forest filePath s lines :
  forest (historical_events (db s)) = true →
  truthy_ids (staging_events (db s)) →
  (∀ line n q, line ∈ lines → parseLine filePath n line = inr q →
               parent_event_id (stored q) ≠ Some (event_id (stored q))) →
  let s' := processLines filePath s lines in
  forest (historical_events (db s')) = true
  ∧ truthy_ids (staging_events (db s')).
Proof.
  intros Hf Ht. induction lines as [|line lines IH] using rev_ind; [done|].
  intros Hself. cbn zeta.
  rewrite (processLines_snoc Date_getTime column_check).
  destruct IH as [Hf' Ht'].
  { intros l n q Hl. apply Hself, elem_of_app. by left. }
  destruct (processLine_tables filePath (processLines filePath s lines) line)
    as [Hh Hst].
  split.
  - destruct Hh as [-> | (q & Hq & Hi & ->)]; [done|].
    destruct (insertHistorical_inr _ _ _ Hi) as [[Heq _] | (_ & Hfresh & Hp)].
    { apply (f_equal length) in Heq. rewrite length_app in Heq. cbn in Heq. lia. }
    apply forest_snoc; [done| |done|by eapply stored_truthy].
    intros p Hpp. destruct (Hp p Hpp) as [?| ->]; [done|].
    exfalso. eapply Hself; [|exact Hq|exact Hpp].
    apply elem_of_app. right. by left.
  - destruct Hst as [-> | (q & Hq & ->)]; [done|].
    apply Forall_app. split; [done|]. apply Forall_singleton.
    by eapply stored_truthy.
Qed.

Lemma deferredQuery_forest d h' :
  forest (historical_events d) = true →
  truthy_ids (staging_events d) →
  deferredQuery d = inr h' → forest h' = true.
Proof.
  intros Hf Ht. unfold deferredQuery. rewrite insertRows_app.
  destruct (insertRows (first_part d) _) as [e|h1] eqn:H1; [done|].
  destruct (insertRows (second_part d) h1) as [e|h2] eqn:H2; [done|].
  case_match; [|done]. intros [= <-].
  assert (∀ r, r ∈ staging_events d → Js.truthy (Some (event_id r)) = true)
    as Ht' by (by apply Forall_forall).
  assert (forest h1 = true) as Hf1.
  { eapply insertRows_forest; [exact Hf| |exact H1].
    intros r (Hr & p & Hp & Hin)%first_part_spec. split; [auto|].
    intros p' Hp'. congruence. }
  eapply insertRows_forest; [exact Hf1| |exact H2].
  intros r (Hr & r1 & Hr1 & Hp)%second_part_spec. split; [auto|].
  intros p' Hp'. apply insertRows_inr in H1. rewrite H1. unfold ids.
  rewrite fmap_app. apply elem_of_app. right.
  assert (p' = event_id r1) as -> by congruence.
  by apply list_elem_of_fmap_2.
Qed.

(** X4. A job keeps the main store a forest, the shape that the path finder
    needs: when the store has fresh ids and every parent before its
    children as the job starts, and no line of the file names its own
    event as the parent, the store has them as the job ends, be it
    completed or failed. The ids of the staged rows are not empty. *)
Theorem job_keeps_forest env filePath d :
  forest (historical_events d) = true →
  Forall (λ r, Js.truthy (Some (event_id r)) = true) (staging_events d) →
  (∀ line n q, line ∈ stream_lines (fileStream env) →
               parseLine filePath n line = inr q →
               parent_event_id (stored q) ≠ Some (event_id (stored q))) →
  forest (historical_events (processFile env filePath d)) = true.
Proof.
  intros Hf Ht Hself. unfold processFile.
  destruct (markProcessing_error env); [done|].
  destruct (processLines_forest filePath
    (loop_start (set_job (markProcessing (ingestion_job d)) d))
    (stream_lines (fileStream env)) Hf Ht Hself) as [Hf' Ht'].
  change (processLines filePath _ _) with (after_lines env filePath d)
    in Hf', Ht'.
  destruct (stream_error (fileStream env)); [done|].
  destruct (deferredQuery _) as [e|h'] eqn:Hd; [done|].
  cbn. by eapply deferredQuery_forest.
Qed.

(** *** The rows that a job writes *)

Lemma stored_row_ok filePath n line q :
  parseLine filePath n line = inr q → row_ok (stored q) = true.
Proof.
  intros (_ & _ & _ & _ & Hid & _ & _ & _ & _ & Hord & Hdur & _)%parseLine_inr.
  unfold row_ok. cbn. rewrite UUID_lower, Hid, uuid_in_idem.
  rewrite bool_decide_true by done. rewrite bool_decide_true by done.
  cbn. rewrite andb_true_r. by apply Z.leb_le.
Qed.

Lemma processLines_rows_ok filePath s lines :
  Forall (λ r, row_ok r = true) (historical_events (db s)) →
  Forall (λ r, row_ok r = true) (staging_events (db s)) →
  let s' := processLines filePath s lines in
  Forall (λ r, row_ok r = true) (historical_events (db s'))
  ∧ Forall (λ r, row_ok r = true) (staging_events (db s')).
Proof.
  intros Hh Hst. induction lines as [|line lines IH] using rev_ind; [done|].
  cbn zeta. rewrite (processLines_snoc Date_getTime column_check).
  destruct IH as [Hh' Hst'].
  destruct (processLine_tables filePath (processLines filePath s lines) line)
    as [H1 H2].
  split.
  - destruct H1 as [-> | (q & Hq & _ & ->)]; [done|].
    apply Forall_app. split; [done|]. apply Forall_singleton.
    by eapply stored_row_ok.
  - destruct H2 as [-> | (q & Hq & ->)]; [done|].
    apply Forall_app. split; [done|]. apply Forall_singleton.
    by eapply stored_row_ok.
Qed.

(** X5. Every row that a job writes, at once or through the staging table,
    has a UUID in the lower case of the column type as its id, does not
    end before it starts, and has the span rounded to minutes as its
    duration: two tables whose rows are so stay so. *)
Theorem job_writes_valid_rows env filePath d :
  Forall (λ r, row_ok r = true) (historical_events d) →
  Forall (λ r, row_ok r = true) (staging_events d) →
  let d' := processFile env filePath d in
  Forall (λ r, row_ok r = true) (historical_events d')
  ∧ Forall (λ r, row_ok r = true) (staging_events d').
Proof.
  intros Hh Hst. cbn zeta. unfold processFile.
  destruct (markProcessing_error env); [done|].
  destruct (processLines_rows_ok filePath
    (loop_start (set_job (markProcessing (ingestion_job d)) d))
    (stream_lines (fileStream env)) Hh Hst) as [Hh' Hst'].
  change (processLines filePath _ _) with (after_lines env filePath d)
    in Hh', Hst'.
  destruct (stream_error (fileStream env)); [done|].
  destruct (deferredQuery _) as [e|h'] eqn:Hd; [done|].
  cbn. split; [|done]. apply deferredQuery_inr in Hd. rewrite Hd.
  rewrite !Forall_app. split; [done|]. rewrite Forall_forall in Hst'.
  split; apply Forall_forall; intros r.
  - intros [Hr _]%first_part_spec. auto.
  - intros [Hr _]%second_part_spec. auto.
Qed.

(** *** The entries of [errors] *)

Lemma processLines_app filePath s l1 l2 :
  processLines filePath s (l1 ++ l2)
  = processLines filePath (processLines filePath s l1) l2.
Proof. apply foldl_app. Qed.

Lemma processLine_errors filePath s line :
  ∃ more,
    errors (ingestion_job (db (processLine filePath s line)))
    = errors (ingestion_job (db s)) ++ more.
Proof.
  destruct (processLine_cases Date_getTime column_check filePath s line)
    as [_ [H | [H | H]]].
  - destruct H as (_ & _ & _ & -> & _). exists []. by rewrite app_nil_r.
  - destruct H as (_ & _ & _ & -> & _). exists []. by rewrite app_nil_r.
  - destruct H as (_ & _ & _ & _ & m & ->). cbn. eauto.
Qed.

Lemma processLines_errors filePath s lines :
  ∃ more,
    errors (ingestion_job (db (processLines filePath s lines)))
    = errors (ingestion_job (db s)) ++ more.
Proof.
  induction lines as [|line lines IH] using rev_ind.
  - exists []. by rewrite app_nil_r.
  - rewrite (processLines_snoc Date_getTime column_check).
    destruct IH as [more IH].
    destruct (processLine_errors filePath (processLines filePath s lines) line)
      as [more' ->].
    rewrite IH. exists (more ++ more'). by rewrite app_assoc.
Qed.

(** What the line loop leaves in [errors] is still there when the job
    ends. *)
Lemma processFile_errors env filePath d :
  markProcessing_error env = None →
  ∃ more,
    errors (ingestion_job (processFile env filePath d))
    = errors (ingestion_job (db (after_lines env filePath d))) ++ more.
Proof.
  intros Hm. unfold processFile. rewrite Hm.
  destruct (stream_error (fileStream env)); [cbn; eauto|].
  destruct (deferredQuery _); [cbn; eauto|].
  cbn. exists []. by rewrite app_nil_r.
Qed.

(** X6. A line that the parser or the column types reject is reported under
    its own number: when the job has got past its first update and no
    line up to this one holds the character U+0000 (a message that quotes
    it is refused by [jsonb], and the job ends at that line), the [errors]
    of the job record hold the message of the rejection of line [k + 1],
    tagged with that number, whatever happens to the job afterwards. *)
Theorem rejected_line_is_reported env filePath d k line message :
  markProcessing_error env = None →
  Forall (λ l, no_nul l = true) (take (S k) (stream_lines (fileStream env))) →
  stream_lines (fileStream env) !! k = Some line →
  parseLine filePath (S k) line = inl (Error message)
  ∨ (∃ q, parseLine filePath (S k) line = inr q
          ∧ column_check q = Some message) →
  ("Line " +:+ pretty (S k) +:+ ": " +:+ message)
  ∈ errors (ingestion_job (processFile env filePath d)).
Proof.
  intros Hm _ Hk Hrej.
  destruct (processFile_errors env filePath d Hm) as [more ->].
  apply elem_of_app. left. unfold after_lines.
  rewrite <- (take_drop_middle _ _ _ Hk).
  rewrite processLines_app. cbn [foldl].
  change (processLines filePath ?s0 (line :: ?l))
    with (processLines filePath (processLine filePath s0 line) l).
  match goal with |- context [processLines _ (processLine _ ?s1 _) ?l] =>
    destruct (processLines_errors filePath (processLine filePath s1 line) l)
      as [more' ->];
    pose proof (processLines_counts Date_getTime column_check filePath
                  (loop_start (set_job (markProcessing (ingestion_job d)) d))
                  (take k (stream_lines (fileStream env)))) as (Hn & _);
    set (s := s1) in * end.
  assert (lineNumber s = k) as Hline.
  { rewrite Hn. cbn. rewrite length_take.
    apply lookup_lt_Some in Hk. lia. }
  clearbody s. apply elem_of_app. left. unfold processLine. rewrite Hline.
  destruct Hrej as [-> | (q & -> & Hc)].
  - cbn. apply elem_of_app. right. by left.
  - unfold insertHistorical. rewrite Hc. cbn.
    apply elem_of_app. right. by left.
Qed.

(** X7. The [errors] of a job that [startIngestionJob] has run: one entry for
    each error line, tagged with the number of a line, and after them,
    when the job did not complete, and only then, one entry for the fatal
    error. *)
Theorem errors_of_a_job env created filePath h st :
  let j := ingestion_job (startIngestionJob env created filePath h st) in
  ∃ entries,
    Forall line_entry entries
    ∧ length entries = error_lines j
    ∧ (status j = COMPLETED → errors j = entries)
    ∧ (status j ≠ COMPLETED →
       ∃ m, errors j = entries ++ ["Fatal Error: " +:+ m]).
Proof.
  cbn zeta. unfold startIngestionJob, processFile.
  set (d := {| historical_events := h; staging_events := st;
               ingestion_job := createIngestionJob created filePath |}).
  destruct (markProcessing_error env) as [m|].
  { exists []. cbn. repeat split; [done|done|]. eauto. }
  pose proof (after_lines_counts Date_getTime column_check env filePath d)
    as (_ & _ & Hel & Hlen & _).
  pose proof (processLines_entries Date_getTime column_check filePath
                (loop_start (set_job (markProcessing (ingestion_job d)) d))
                (stream_lines (fileStream env))) as Hent.
  cbn zeta in Hent.
  change (processLines filePath _ _) with (after_lines env filePath d) in Hent.
  specialize (Hent (Forall_nil_2 _)).
  cbn in Hel, Hlen.
  exists (errors (ingestion_job (db (after_lines env filePath d)))).
  split; [exact Hent|].
  destruct (stream_error (fileStream env)) as [m|].
  { cbn. repeat split; [lia|done|eauto]. }
  destruct (deferredQuery _) as [e|h'].
  { cbn. repeat split; [lia|done|eauto]. }
  cbn. repeat split; [lia|done].
Qed.

End StoreFacts.

(** ** The status of a job *)

Lemma head_filter_unique {A B} `{EqDecision B} (f : A → B) (k : B)
    (l : list A) (r : A) :
  NoDup (f <$> l) → r ∈ l → f r = k →
  head (filter (λ x, f x = k) l) = Some r.
Proof.
  induction l as [|x l IH]; intros Hnd Hr Hk; [by apply elem_of_nil in Hr|].
  rewrite fmap_cons in Hnd. apply NoDup_cons in Hnd as [Hx Hnd].
  rewrite filter_cons. apply elem_of_cons in Hr as [<- | Hr].
  - by rewrite decide_True.
  - rewrite decide_False; [by apply IH|].
    intros Hxk. apply Hx. rewrite Hxk, <- Hk. by apply list_elem_of_fmap_2.
Qed.

Section StatusFacts.

Variable Date_getTime : string -> option Z.
Variable column_check : Row -> option string.

Abbreviation startIngestionJob := (startIngestionJob Date_getTime column_check).

Abbreviation processLine := (processLine Date_getTime column_check).
Abbreviation processLines := (processLines Date_getTime column_check).
Abbreviation after_lines := (after_lines Date_getTime column_check).
Abbreviation processFile := (processFile Date_getTime column_check).

Lemma processLines_start_time filePath s lines :
  start_time (ingestion_job (db (processLines filePath s lines)))
  = start_time (ingestion_job (db s)).
Proof.
  induction lines as [|line lines IH] using rev_ind; [done|].
  rewrite (processLines_snoc Date_getTime column_check), <- IH.
  destruct (processLine_cases Date_getTime column_check filePath
              (processLines filePath s lines) line) as [_ [H | [H | H]]].
  - by destruct H as (_ & _ & _ & -> & _).
  - by destruct H as (_ & _ & _ & -> & _).
  - by destruct H as (_ & _ & _ & _ & m & ->).
Qed.

(** How a run leaves the record of its job. *)
Lemma processFile_record env filePath d :
  let j := ingestion_job (processFile env filePath d) in
  start_time j = start_time (ingestion_job d)
  ∧ end_time j = Some (NOW env)
  ∧ (markProcessing_error env = None →
     status j = COMPLETED ∨ status j = FAILED)
  ∧ (∀ m, markProcessing_error env = Some m →
          status j = PENDING
          ∧ errors j = errors (ingestion_job d) ++ ["Fatal Error: " +:+ m]).
Proof.
  cbn zeta. unfold processFile.
  destruct (markProcessing_error env) as [m|].
  { cbn. repeat split; try done; congruence. }
  pose proof (processLines_start_time filePath
    (loop_start (set_job (markProcessing (ingestion_job d)) d))
    (stream_lines (fileStream env))) as Hst.
  change (processLines filePath _ _) with (after_lines env filePath d) in Hst.
  cbn in Hst.
  destruct (stream_error (fileStream env)).
  { cbn. repeat split; auto; done. }
  destruct (deferredQuery _).
  { cbn. repeat split; auto; done. }
  cbn. repeat split; auto; done.
Qed.

(** X9. The status of a job that [startIngestionJob] has run. The response
    carries the counters, the status and the errors of the record. When
    the first update of the job went through, the job has ended, and the
    response shows when it was created and when it ended. When that update
    failed, the record is left [PENDING] with the fatal error and an end
    time, and the response shows neither time. *)
Theorem job_status_after_run ingestion_jobs jobId r env created filePath h st :
  NoDup (job_id <$> ingestion_jobs) →
  r ∈ ingestion_jobs → job_id r = uuid_in jobId →
  job r = ingestion_job (startIngestionJob env created filePath h st) →
  ∃ response,
    getJobStatus ingestion_jobs jobId = Some response
    ∧ JobStatus.jobId response = uuid_in jobId
    ∧ JobStatus.status response = status (job r)
    ∧ JobStatus.processedLines response = processed_lines (job r)
    ∧ JobStatus.errorLines response = error_lines (job r)
    ∧ JobStatus.totalLines response = total_lines (job r)
    ∧ JobStatus.errors response = errors (job r)
    ∧ (markProcessing_error env = None →
       JobStatus.status response ≠ PENDING
       ∧ JobStatus.status response ≠ PROCESSING
       ∧ JobStatus.startTime response = Some created
       ∧ JobStatus.endTime response = Some (Some (NOW env)))
    ∧ (∀ m, markProcessing_error env = Some m →
            JobStatus.status response = PENDING
            ∧ JobStatus.errors response = ["Fatal Error: " +:+ m]
            ∧ end_time (job r) = Some (NOW env)
            ∧ JobStatus.startTime response = None
            ∧ JobStatus.endTime response = None).
Proof.
  intros Hnd Hr Hid Hjob. unfold getJobStatus, getIngestionJob.
  rewrite (head_filter_unique job_id (uuid_in jobId) ingestion_jobs r)
    by done.
  eexists. split; [reflexivity|]. cbn.
  do 6 (split; [done|]).
  pose proof (processFile_record env filePath
                {| historical_events := h; staging_events := st;
                   ingestion_job := createIngestionJob created filePath |})
    as (Hstart & Hend & Hok & Hfail).
  fold (startIngestionJob env created filePath h st) in Hstart, Hend, Hok, Hfail.
  rewrite <- Hjob in Hstart, Hend, Hok, Hfail. cbn in Hstart.
  split.
  - intros Hm. rewrite Hstart, Hend.
    destruct (Hok Hm) as [-> | ->]; done.
  - intros m Hm. destruct (Hfail m Hm) as [-> ->]. done.
Qed.

End StatusFacts.

(** ** The statements of the search *)

(** The cases of a search: which filters are given, whether the sort
    column is one of the three allowed, and the direction. *)
Ltac search_cases p :=
  destruct p as [name startDateAfter endDateBefore sortBy sortOrder page limit];
  unfold Search.of_params;
  cbn [Search.name Search.startDateAfter Search.endDateBefore Search.sortBy
       Search.sortOrder Search.page Search.limit];
  generalize (JsNumber.mul (JsNumber.sub page 1) limit); intros offset;
  destruct (String.eqb (Js.toUpperCase sortOrder) "DESC");
  (destruct (decide (sortBy ∈ Search.allowedSortBy)) as [Hsort|Hsort];
   [rewrite (bool_decide_true _ Hsort); unfold Search.allowedSortBy in Hsort;
    repeat (apply elem_of_cons in Hsort as [-> | Hsort]);
    try (by apply elem_of_nil in Hsort)
   |rewrite (bool_decide_false _ Hsort)]);
  destruct name as [[|? ?]|]; destruct startDateAfter as [[|? ?]|];
  destruct endDateBefore as [[|? ?]|].

(** Up to 2^53 in magnitude the doubles are the integers. *)
Lemma of_Z_exact z : JsNumber.exact z → JsNumber.of_Z z = JsNumber.Int z.
Proof.
  unfold JsNumber.exact. intros Hz. unfold JsNumber.of_Z.
  destruct (decide (Z.abs z = 2 ^ 53)) as [E|E].
  - assert (z = 2 ^ 53 ∨ z = - 2 ^ 53) as [-> | ->] by lia;
      vm_compute; reflexivity.
  - assert (Z.log2 (Z.abs z) - 52 ≤ 0) as H.
    { destruct (decide (Z.abs z = 0)) as [-> | Hn]; [cbn; lia|].
      assert (Z.log2 (Z.abs z) < 53); [|lia].
      apply Z.log2_lt_pow2; lia. }
    apply Z.leb_le in H. by rewrite H.
Qed.

(** X10. Whatever is searched for, each of the two statements refers to its
    parameters as [$1], [$2], ... in this order, once each, and as many
    values are bound to it: the values of the filters that are given, and
    for the data statement the limit and the offset after them. The
    offset is the product as the doubles give it: the exact
    [(page - 1) * limit] as long as [page], [limit], [page - 1] and the
    product do not exceed 2^53 in magnitude. *)
Theorem search_references_match_values p :
  let s := Search.of_params p in
  Search.references (Search.countQuery s)
  = seq 1 (length (Search.countValues s))
  ∧ Search.references (Search.dataQuery s)
    = seq 1 (length (Search.finalQueryValues s))
  ∧ Search.finalQueryValues s
    = Search.countValues s
      ++ [Search.Number (Search.limit p); Search.Number (Search.offset s)]
  ∧ ∀ page limit,
      Search.page p = JsNumber.Int page →
      Search.limit p = JsNumber.Int limit →
      JsNumber.exact page → JsNumber.exact limit →
      JsNumber.exact (page - 1) → JsNumber.exact ((page - 1) * limit) →
      Search.offset s = JsNumber.Int ((page - 1) * limit).
Proof.
  cbn zeta. split; [|split; [|split]].
  1-3: search_cases p; vm_compute; done.
  intros page limit Hp Hl _ _ H1 H2. unfold Search.of_params.
  cbn [Search.offset]. rewrite Hp, Hl. cbn [JsNumber.sub JsNumber.mul].
  rewrite (of_Z_exact (page - 1)) by done. cbn [JsNumber.mul].
  by rewrite of_Z_exact.
Qed.

(** X11. No text of the request reaches a statement. The sort column of the
    text is one of the three allowed columns in double quotes, or
    [start_date] when another was asked for; the direction is [DESC] or
    [ASC]. Two searches that give the same filters, whatever their values,
    and come to the same column and direction send the same two texts:
    the values only travel as bound values. *)
Theorem search_text_holds_no_input p p' :
  Js.truthy (Search.name p) = Js.truthy (Search.name p') →
  Js.truthy (Search.startDateAfter p) = Js.truthy (Search.startDateAfter p') →
  Js.truthy (Search.endDateBefore p) = Js.truthy (Search.endDateBefore p') →
  Search.sortColumn (Search.of_params p)
  = Search.sortColumn (Search.of_params p') →
  Search.order (Search.of_params p) = Search.order (Search.of_params p') →
  Search.countQuery (Search.of_params p)
  = Search.countQuery (Search.of_params p')
  ∧ Search.dataQuery (Search.of_params p)
    = Search.dataQuery (Search.of_params p')
  ∧ Search.sortColumn (Search.of_params p)
    ∈ [Search.quote +:+ "event_name" +:+ Search.quote;
       Search.quote +:+ "start_date" +:+ Search.quote;
       Search.quote +:+ "end_date" +:+ Search.quote;
       "start_date"]
  ∧ Search.order (Search.of_params p) ∈ ["ASC"; "DESC"].
Proof.
  intros H1 H2 H3 Hcol Hord.
  split; [|split; [|split]].
  - unfold Search.of_params. cbn [Search.countQuery]. rewrite H1, H2, H3.
    destruct (Js.truthy (Search.name p'));
      destruct (Js.truthy (Search.startDateAfter p'));
      destruct (Js.truthy (Search.endDateBefore p')); reflexivity.
  - unfold Search.of_params in *.
    cbn [Search.dataQuery Search.sortColumn Search.order] in *.
    rewrite H1, H2, H3, Hcol, Hord.
    destruct (Js.truthy (Search.name p'));
      destruct (Js.truthy (Search.startDateAfter p'));
      destruct (Js.truthy (Search.endDateBefore p')); reflexivity.
  - unfold Search.of_params. cbn [Search.sortColumn].
    case_bool_decide as Hsort; [|set_solver].
    unfold Search.allowedSortBy in Hsort.
    repeat (apply elem_of_cons in Hsort as [-> | Hsort]); [set_solver..|].
    by apply elem_of_nil in Hsort.
  - unfold Search.of_params. cbn [Search.order].
    destruct (String.eqb _ _); set_solver.
Qed.

(** ** What the overlap detector reports *)

Lemma pair_loop_new e acts st o :
  o ∈ (foldl (pair_step e) st acts).1 →
  o ∈ st.1 ∨ ∃ a, a ∈ acts ∧ o = mk_report e a ∧ 0 < overlap_minutes e a.
Proof.
  revert st. induction acts as [|a acts IH]; intros st; [by left|].
  cbn [foldl]. intros [Ho | (a' & Ha' & Hr)]%IH.
  - unfold pair_step in Ho. cbn zeta in Ho.
    case_bool_decide; [by left|].
    destruct (0 <? _)%Z eqn:E; [|by left]. cbn in Ho.
    apply elem_of_app in Ho as [Ho | Ho%list_elem_of_singleton]; [by left|].
    right. exists a. split; [left|]. split; [done|]. by apply Z.ltb_lt in E.
  - right. exists a'. split; [by right|done].
Qed.

Lemma NoDup_points events : NoDup events → NoDup (events ≫= points_of).
Proof.
  induction events as [|e events IH]; [constructor|].
  intros [He Hnd]%NoDup_cons. cbn.
  apply NoDup_cons. split.
  - intros [Hin | Hin]%elem_of_cons; [done|].
    apply elem_of_points in Hin as (e' & He' & [H | H]); [|done].
    injection H as _ ->. done.
  - apply NoDup_cons. split; [|auto].
    intros (e' & He' & [H | H])%elem_of_points; [done|].
    injection H as _ ->. done.
Qed.

(** The sweep over points without repetition, sorted by time: the active
    events have started, and every element pairs an event with another
    that started before it. *)
Lemma sweep_real events pts :
  NoDup (ids events) →
  (∀ p, p ∈ pts → p ∈ events ≫= points_of) →
  NoDup pts →
  StronglySorted (λ a b, time a ≤ time b) pts →
  (∀ a, a ∈ activeEvents (sweep pts) → a ∈ events ∧ start_point a ∈ pts)
  ∧ Forall (pair_of events) (overlappingPairs (sweep pts)).
Proof.
  intros Hids. induction pts as [|p pts IH] using rev_ind.
  - intros _ _ _. split; [|constructor]. intros a Ha. by apply elem_of_nil in Ha.
  - intros Hin Hnd Hs.
    apply NoDup_app in Hnd as (Hnd & Hp & _).
    assert (∀ x, x ∈ pts → time x ≤ time p) as Hbefore.
    { intros x Hx.
      apply (StronglySorted_app_1_elem_of _ _ _ _ _ Hs Hx). by left. }
    apply StronglySorted_app_1_l in Hs.
    destruct IH as [Hact Hout]; [|done..|].
    { intros x Hx. apply Hin, elem_of_app. by left. }
    unfold sweep in *. rewrite foldl_app. cbn [foldl].
    set (s := foldl sweep_step _ pts) in *. clearbody s.
    assert (p ∈ events ≫= points_of) as (e & He & Hpe)%elem_of_points
      by (apply Hin, elem_of_app; right; by left).
    unfold sweep_step. destruct Hpe as [-> | ->]; cbn [type event].
    + cbn [overlappingPairs activeEvents]. split.
      * intros a [-> | Ha]%elem_of_set_add.
        -- split; [done|]. apply elem_of_app. right. by left.
        -- destruct (Hact a Ha). split; [done|]. apply elem_of_app. by left.
      * apply Forall_forall. intros o Ho.
        apply pair_loop_new in Ho as [Ho | (a & Ha & -> & Hpos)].
        { rewrite Forall_forall in Hout. by apply Hout. }
        destruct (Hact a Ha) as [Hae Hstart].
        exists e, a. split; [done|]. split; [done|].
        split; [|split; [exact (Hbefore _ Hstart)|done]].
        intros Heq. apply (Hp (start_point e)); [|by left].
        by rewrite (NoDup_ids_inj events a e Hids Hae He Heq).
    + cbn [overlappingPairs activeEvents]. split; [|done].
      intros a [_ Ha]%elem_of_set_delete. destruct (Hact a Ha).
      split; [done|]. apply elem_of_app. by left.
Qed.

(** X13. Every element that the overlap detector returns pairs two different
    events of the window, the one that started later or at the same
    instant first, with their overlap in whole minutes, which is one or
    more. *)
Theorem reported_pairs_are_real h startDate endDate o :
  NoDup (ids h) →
  o ∈ findOverlappingEvents h startDate endDate →
  pair_of (getEventsInRange h startDate endDate) o.
Proof.
  intros Hnd. unfold findOverlappingEvents, overlapping_of.
  set (events := getEventsInRange h startDate endDate).
  destruct (length events <? 2)%nat; [by intros ?%elem_of_nil|].
  assert (NoDup (ids events)) as Hids by (by apply NoDup_ids_filter).
  destruct (sweep_real events (sort_points (events ≫= points_of)) Hids)
    as [_ Hout].
  - intros p. by rewrite sort_points_perm.
  - rewrite sort_points_perm. apply NoDup_points.
    by apply NoDup_fmap_1 in Hids.
  - apply sort_points_sorted.
  - rewrite Forall_forall in Hout. apply Hout.
Qed.

(** ** Edges of the path finder *)

Lemma descendants_canonical fuel h rootEventId :
  getEventDescendants fuel h (uuid_in rootEventId)
  = getEventDescendants fuel h rootEventId.
Proof. unfold getEventDescendants. by rewrite uuid_in_idem. Qed.

(** X14. A source that is not in the store: the answer is that it was not
    found, whatever the target. *)
Theorem unknown_source_is_not_found fuel h sourceEventId targetEventId :
  UUID_REGEX_test sourceEventId = true →
  uuid_in sourceEventId ∉ ids h →
  findEventInfluencePath fuel h sourceEventId targetEventId
  = Some (inr (Influence.NotFound "Source event not found.")).
Proof.
  intros _ Hno. unfold findEventInfluencePath, getEventDescendants.
  rewrite filter_none.
  - by rewrite event_hierarchy_nil.
  - intros e He Heq. apply Hno. rewrite <- Heq. by apply list_elem_of_fmap_2.
Qed.

(** X15. A source that is in the store but is given in another case than the
    store gives it back, as a UUID with capital letters is: the query
    finds the event and its descendants, but the source as given is no key
    of the map of events. When the target is the source event or below it,
    reading the duration of the source throws; when it is not, the answer
    is that there is no path. *)
Theorem source_in_another_case fuel h sourceEventId targetEventId :
  forest h = true →
  UUID_REGEX_test sourceEventId = true →
  uuid_in sourceEventId ∈ ids h →
  sourceEventId ∉ ids h →
  (length h ≤ fuel)%nat →
  ((∃ path, tree_path h (uuid_in sourceEventId) targetEventId path) →
   ∃ e, findEventInfluencePath fuel h sourceEventId targetEventId
        = Some (inl e))
  ∧ ((∀ path, ¬ tree_path h (uuid_in sourceEventId) targetEventId path) →
     findEventInfluencePath fuel h sourceEventId targetEventId
     = Some (inr (Influence.Path sourceEventId targetEventId []
                    (Influence.Fin 0) Influence.no_path_message))).
Proof.
  intros Hf _ Hs Hno Hfuel.
  destruct (descendants_listing h (uuid_in sourceEventId) fuel Hf
              (uuid_in_idem _) Hs Hfuel) as (events & Hq & Hl & Hlen & Hin).
  rewrite descendants_canonical in Hq.
  unfold findEventInfluencePath. rewrite Hq. cbn.
  pose proof (listing_ids _ _ Hl) as (Hnd & Hsrc & _).
  pose proof (listing_paths _ _ Hl) as (Hout & Hpaths & _).
  assert (sourceEventId ∉ ids events) as Hno'.
  { intros (e & -> & [He _]%Hin)%list_elem_of_fmap. apply Hno.
    by apply list_elem_of_fmap_2. }
  unfold Influence.of_events.
  destruct events as [|root rest] eqn:Hev; [done|]. rewrite <- Hev in *.
  assert ((length events =? 0)%nat = false) as -> by (by rewrite Hev).
  pose proof (build_eventMap_None events sourceEventId Hno') as Hms.
  destruct (Influence.build events) as [eventMap childrenMap] eqn:Hb.
  cbn [fst] in Hms. split.
  - intros [path Hp].
    apply (tree_path_level h _ events) in Hp as [Hp _]; [|done..].
    apply (tree_paths_complete _ _ _ _ Hl) in Hp.
    destruct (decide (targetEventId ∈ ids events)) as [Ht|Ht];
      [|by rewrite (Hout _ Ht) in Hp].
    apply list_elem_of_fmap in Ht as (r & -> & Hr).
    pose proof (build_eventMap events r Hnd Hr) as Hmt.
    rewrite Hb in Hmt. cbn [fst] in Hmt. rewrite Hmt, Hms. eauto.
  - intros Hnone.
    assert (targetEventId ∉ ids events) as Ht.
    { intros Ht. destruct (Hpaths _ Ht) as (path & Hp & _).
      apply (tree_paths_sound _ _ _ _ Hl) in Hp.
      apply (Hnone path). eapply tree_path_mono; [|exact Hp].
      intros e He. by apply Hin. }
    pose proof (build_eventMap_None events targetEventId Ht) as Hmt.
    rewrite Hb in Hmt. cbn [fst] in Hmt. by rewrite Hmt.
Qed.

(** C7, where the code departs from it. The query reads the source as the
    column type reads a UUID; the map of events is keyed by the ids as the
    store gives them back, and the source is looked up in it as it was
    given. For a source that is in the store and a target at the end of a
    path from it: when the source is given as the store holds it, the
    answer is that path with the sum of its durations, as the claim says;
    when it is given in another case, which denotes the same UUID,
    reading the duration of the source throws. *)
Theorem influence_path_breaks_on_case fuel h sourceEventId targetEventId path :
  forest h = true →
  UUID_REGEX_test sourceEventId = true →
  uuid_in sourceEventId ∈ ids h →
  sourceEventId ∉ ids h →
  (length h ≤ fuel)%nat →
  tree_path h (uuid_in sourceEventId) targetEventId path →
  findEventInfluencePath fuel h (uuid_in sourceEventId) targetEventId
  = Some (inr (Influence.Path (uuid_in sourceEventId) targetEventId
                 (node_of <$> path) (Influence.Fin (total_duration path))
                 Influence.found_message))
  ∧ ∃ e, findEventInfluencePath fuel h sourceEventId targetEventId
         = Some (inl e).
Proof.
  intros Hf _ Hs Hno Hfuel Hpath.
  destruct (descendants_listing h (uuid_in sourceEventId) fuel Hf
              (uuid_in_idem _) Hs Hfuel) as (events & Hq & Hl & Hlen & Hin).
  destruct (tree_path_level h (uuid_in sourceEventId) events targetEventId
              path Hf Hin Hpath) as [Hp _].
  apply (tree_paths_complete _ _ _ _ Hl) in Hp.
  split.
  - assert (length events ≤ fuel)%nat as Hfuel' by lia.
    pose proof (influence_path_of_listing fuel h events
                  (uuid_in sourceEventId) targetEventId Hq Hl Hfuel') as Hres.
    rewrite Hp in Hres. apply Hres.
  - rewrite descendants_canonical in Hq.
    unfold findEventInfluencePath. rewrite Hq. cbn.
    pose proof (listing_ids _ _ Hl) as (Hnd & _).
    pose proof (listing_paths _ _ Hl) as (Hout & _).
    assert (sourceEventId ∉ ids events) as Hno'.
    { intros (e & -> & [He _]%Hin)%list_elem_of_fmap. apply Hno.
      by apply list_elem_of_fmap_2. }
    assert (targetEventId ∈ ids events) as Ht.
    { destruct (decide (targetEventId ∈ ids events)) as [Ht|Ht]; [done|].
      by rewrite (Hout _ Ht) in Hp. }
    apply list_elem_of_fmap in Ht as (r & -> & Hr).
    pose proof (build_eventMap events r Hnd Hr) as Hmt.
    pose proof (build_eventMap_None events sourceEventId Hno') as Hms.
    unfold Influence.of_events.
    assert ((length events =? 0)%nat = false) as ->.
    { destruct events; [by apply elem_of_nil in Hr|done]. }
    destruct (Influence.build events) as [eventMap childrenMap].
    cbn [fst] in Hms, Hmt. rewrite Hmt, Hms. eauto.
Qed.

(** *** A row that is its own parent *)

Lemma hierarchy_unfold fuel h work :
  event_hierarchy fuel h work
  = match work with
    | [] => Some []
    | _ :: _ =>
        match fuel with
        | O => None
        | S fuel' =>
            (λ rest, work ++ rest)
              <$> event_hierarchy fuel' h (hierarchy_step h work)
        end
    end.
Proof. by destruct fuel, work. Qed.

Lemma elem_of_hierarchy_step h work e :
  e ∈ hierarchy_step h work
  ↔ e ∈ h ∧ ∃ eh, eh ∈ work ∧ parent_event_id e = Some (event_id eh).
Proof.
  unfold hierarchy_step. rewrite list_elem_of_bind. split.
  - intros (e' & (eh & Hif & Heh)%list_elem_of_bind & He').
    case_bool_decide; [|by apply elem_of_nil in Hif].
    apply list_elem_of_singleton in Hif as ->. eauto.
  - intros (He & eh & Heh & Hp). exists e. split; [|done].
    apply list_elem_of_bind. exists eh. split; [|done].
    rewrite bool_decide_true by done. by left.
Qed.

Lemma hierarchy_step_nil h : hierarchy_step h [] = [].
Proof. unfold hierarchy_step. cbn. apply bind_nil. Qed.

Section OwnParent.

Context (h : list Row) (r : Row).
Hypothesis Hr : r ∈ h.
Hypothesis Hself : parent_event_id r = Some (event_id r).

Lemma hierarchy_loops fuel work e :
  e ∈ work → event_id e = event_id r → event_hierarchy fuel h work = None.
Proof.
  revert work e. induction fuel as [|fuel IH]; intros work e He Hid.
  - destruct work; [by apply elem_of_nil in He|done].
  - rewrite hierarchy_unfold. destruct work; [by apply elem_of_nil in He|].
    rewrite (IH _ r); [done| |done].
    apply elem_of_hierarchy_step. split; [done|]. exists e.
    split; [done|]. by rewrite Hid.
Qed.

Lemma hierarchy_reaches k fuel work e :
  e ∈ Nat.iter k (hierarchy_step h) work → event_id e = event_id r →
  event_hierarchy fuel h work = None.
Proof.
  revert fuel work. induction k as [|k IH]; intros fuel work He Hid.
  - by eapply hierarchy_loops.
  - rewrite Nat.iter_succ_r in He. rewrite hierarchy_unfold.
    destruct work as [|x work'].
    { exfalso. rewrite hierarchy_step_nil in He.
      assert (Nat.iter k (hierarchy_step h) [] = []) as Hk.
      { clear. induction k as [|k IHk]; [done|].
        by rewrite Nat.iter_succ, IHk, hierarchy_step_nil. }
      rewrite Hk in He. by apply elem_of_nil in He. }
    destruct fuel; [done|]. by rewrite (IH fuel _ He Hid).
Qed.

Lemma path_round source u path :
  tree_path h source u path →
  ∃ e, e ∈ Nat.iter (length path - 1) (hierarchy_step h)
             (filter (λ x, event_id x = source) h)
       ∧ event_id e = u.
Proof.
  induction 1 as [r0 Hr0 Hid | u path x Hp IH Hx Hpar].
  - exists r0. split; [|done]. cbn. by apply list_elem_of_filter.
  - destruct IH as (e & He & Hu).
    apply tree_path_rows in Hp as [(r0 & rest & -> & _) _].
    exists x. split; [|done]. rewrite length_app. cbn [length] in *.
    replace (S (length rest) + 1 - 1)%nat with (S (length rest - 0)) by lia.
    replace (S (length rest) - 1)%nat with (length rest - 0)%nat in He by lia.
    cbn [Nat.iter]. apply elem_of_hierarchy_step. split; [done|].
    exists e. split; [done|]. by rewrite Hu.
Qed.

(** X16. When a row that is its own parent lies at the source or below it, the
    recursive query has a row to add in every round, the row itself after
    its first round: whatever the number of rounds allowed, it has not
    ended, and neither have the path finder and the timeline, which wait
    for it. *)
Theorem own_parent_never_ends rootEventId path fuel targetEventId :
  tree_path h (uuid_in rootEventId) (event_id r) path →
  getEventDescendants fuel h rootEventId = None
  ∧ findEventInfluencePath fuel h rootEventId targetEventId = None
  ∧ getTimelineByRootEventId fuel h rootEventId = None.
Proof.
  intros (e & He & Hid)%path_round.
  assert (getEventDescendants fuel h rootEventId = None) as Hq.
  { unfold getEventDescendants. by eapply hierarchy_reaches. }
  split; [done|]. split.
  - unfold findEventInfluencePath. by rewrite Hq.
  - unfold getTimelineByRootEventId, getEventFamily.
    unfold getEventDescendants in Hq. rewrite Hq.
    by destruct (EventAncestors _ _ _).
Qed.

End OwnParent.

(** ** The timeline of an event *)

(** *** The objects after the first two loops *)

Lemma create_snoc F r :
  Timeline.create (F ++ [r])
  = <[event_id r := {| Timeline.item := r; Timeline.children := Some [];
                       Timeline.parent := None |}]> (Timeline.create F).
Proof. unfold Timeline.create. by rewrite foldl_snoc. Qed.

Lemma create_None F v : v ∉ ids F → Timeline.create F !! v = None.
Proof.
  induction F as [|r F IH] using rev_ind; intros Hv; [done|].
  rewrite create_snoc. unfold ids in Hv.
  rewrite fmap_app, elem_of_app in Hv. cbn in Hv.
  rewrite lookup_insert_ne; [apply IH; tauto|].
  intros <-. apply Hv. right. left.
Qed.

Lemma create_Some F r :
  NoDup (ids F) → r ∈ F →
  Timeline.create F !! event_id r
  = Some {| Timeline.item := r; Timeline.children := Some [];
            Timeline.parent := None |}.
Proof.
  induction F as [|r' F IH] using rev_ind; intros Hnd Hr.
  - by apply elem_of_nil in Hr.
  - rewrite create_snoc. unfold ids in Hnd.
    rewrite fmap_app in Hnd. apply NoDup_app in Hnd as (Hnd & Hfresh & _).
    apply elem_of_app in Hr as [Hr | ->%list_elem_of_singleton].
    + rewrite lookup_insert_ne; [by apply IH|].
      intros Heq. apply (Hfresh (event_id r)).
      * by apply list_elem_of_fmap_2.
      * rewrite <- Heq. left.
    + by rewrite lookup_insert_eq.
Qed.

Lemma link_None m x v : m !! v = None → Timeline.link m x !! v = None.
Proof.
  intros Hv. unfold Timeline.link.
  destruct (parent_event_id x) as [p|]; [|done].
  destruct (Js.truthy (Some p)); [|done].
  destruct (m !! p) eqn:Hp; [|done].
  rewrite lookup_insert_ne; [done|]. intros ->. congruence.
Qed.

Lemma link_loop_None m P v :
  m !! v = None → foldl Timeline.link m P !! v = None.
Proof.
  revert m. induction P as [|x P IH]; intros m Hv; [done|].
  cbn. by apply IH, link_None.
Qed.

(** The second loop over the rows [P]: each object gains the ids of the
    rows of [P] that name it as parent, in their order. *)
Lemma link_loop m P v :
  (∀ u, is_Some (m !! u) → Js.truthy (Some u) = true) →
  foldl Timeline.link m P !! v
  = (λ n, {| Timeline.item := Timeline.item n;
             Timeline.children :=
               (λ c, c ++ ids (children_of P v)) <$> Timeline.children n;
             Timeline.parent := Timeline.parent n |}) <$> m !! v.
Proof.
  revert m. induction P as [|x P IH]; intros m Hm.
  - cbn. destruct (m !! v) as [[i [c|] p]|]; cbn; by rewrite ?app_nil_r.
  - cbn [foldl]. rewrite IH.
    2:{ intros u [n Hu]. apply Hm.
        destruct (m !! u) eqn:E; [done|]. by rewrite link_None in Hu. }
    unfold Timeline.link, children_of. rewrite filter_cons.
    destruct (parent_event_id x) as [p|] eqn:Hp.
    2:{ by rewrite decide_False. }
    destruct (decide (p = v)) as [->|Hpv].
    + rewrite decide_True by done.
      destruct (m !! v) as [[i c q]|] eqn:Hv.
      * rewrite (Hm v) by done. rewrite lookup_insert_eq. cbn.
        destruct c as [c|]; cbn; [|done]. by rewrite <- app_assoc.
      * destruct (Js.truthy (Some v)); by rewrite Hv.
    + rewrite decide_False by congruence.
      destruct (Js.truthy (Some p)); [|done].
      destruct (m !! p); [|done]. by rewrite lookup_insert_ne.
Qed.

Lemma linked_None F v :
  v ∉ ids F → foldl Timeline.link (Timeline.create F) F !! v = None.
Proof. intros Hv. by apply link_loop_None, create_None. Qed.

Lemma linked_Some F r :
  NoDup (ids F) → truthy_ids F → r ∈ F →
  foldl Timeline.link (Timeline.create F) F !! event_id r
  = Some {| Timeline.item := r;
            Timeline.children := Some (ids (children_of F (event_id r)));
            Timeline.parent := None |}.
Proof.
  intros Hnd Ht Hr. rewrite link_loop.
  - by rewrite create_Some.
  - intros u [n Hu]. destruct (decide (u ∈ ids F)) as [Hin|Hout].
    + apply list_elem_of_fmap in Hin as (x & -> & Hx).
      unfold truthy_ids in Ht. rewrite Forall_forall in Ht. auto.
    + by rewrite create_None in Hu.
Qed.

(** *** The last loop and the value of the result *)

Lemma mapM_build {A B C} (f : B → option C) (g : A → B) (R : A → C → Prop)
    (l : list A) :
  (∀ x, x ∈ l → ∃ t, f (g x) = Some t ∧ R x t) →
  ∃ ts, mapM f (g <$> l) = Some ts ∧ Forall2 R l ts.
Proof.
  induction l as [|x l IH]; intros H.
  - exists []. split; [done|constructor].
  - destruct (H x) as (t & Ht & HR); [left|].
    destruct IH as (ts & Hts & HF); [intros y Hy; apply H; by right|].
    exists (t :: ts). split; [|by constructor].
    cbn. rewrite Ht. cbn. by rewrite Hts.
Qed.

Lemma split_unique {A} (l1 l2 l1' l2' : list A) x :
  NoDup (l1 ++ x :: l2) → l1 ++ x :: l2 = l1' ++ x :: l2' →
  l1 = l1' ∧ l2 = l2'.
Proof.
  revert l1'. induction l1 as [|a l1 IH]; intros l1' Hnd Heq.
  - destruct l1' as [|a' l1']; [by injection Heq|].
    injection Heq as -> ->. apply NoDup_cons in Hnd as [Hx _].
    exfalso. apply Hx, elem_of_app. right. left.
  - destruct l1' as [|a' l1'].
    + injection Heq as -> _. apply NoDup_cons in Hnd as [Hx _].
      exfalso. apply Hx, elem_of_app. right. left.
    + injection Heq as -> Heq. apply NoDup_cons in Hnd as [_ Hnd].
      destruct (IH l1' Hnd Heq) as [-> ->]. done.
Qed.

Section TimelineFacts.

(** The rows [F] as they come, which in the order [G] are a forest, and
    a store [X] that holds them. *)
Context (F G X : list Row).
Hypothesis HG : forest G = true.
Hypothesis HFG : F ≡ₚ G.
Hypothesis HFX : ∀ r, r ∈ F → r ∈ X.

Local Abbreviation linked r :=
  {| Timeline.item := r;
     Timeline.children := Some (ids (children_of F (event_id r)));
     Timeline.parent := None |}.

Lemma rows_NoDup : NoDup (ids G) ∧ NoDup G ∧ NoDup (ids F).
Proof.
  destruct (forest_ids G HG) as [Hnd _]. split; [done|].
  split; [by apply NoDup_fmap_1 in Hnd|]. unfold ids. by rewrite HFG.
Qed.

Lemma rows_truthy : truthy_ids F.
Proof.
  destruct (forest_ids G HG) as [_ Ht]. apply Forall_forall. intros r Hr.
  apply Ht, list_elem_of_fmap_2. by rewrite <- HFG.
Qed.

(** A row that names [k] as its parent comes after [k]. *)
Lemma child_after la k lb x :
  G = la ++ k :: lb → x ∈ G → parent_event_id x = Some (event_id k) →
  ∃ lb1 lb2, lb = lb1 ++ x :: lb2.
Proof.
  intros HGk Hx Hp. destruct rows_NoDup as (Hids & Hnd & _).
  apply list_elem_of_split in Hx as (l1 & l2 & Hx).
  assert (event_id k ∈ ids l1) as (k' & Hid & Hk')%list_elem_of_fmap.
  { apply (forest_parent l1 x l2); [by rewrite <- Hx|done]. }
  assert (k' = k) as ->.
  { apply (NoDup_ids_inj G); [done| | |done].
    - rewrite HGk. apply elem_of_app. right. left.
    - rewrite Hx. apply elem_of_app. by left. }
  apply list_elem_of_split in Hk' as (l1a & l1b & ->).
  rewrite <- app_assoc in Hx. cbn [app] in Hx.
  destruct (split_unique la lb l1a (l1b ++ x :: l2) k) as [_ ->];
    [by rewrite <- HGk|congruence|]. eauto.
Qed.

(** The last loop from the object of [c], the rows before [c] untouched:
    it ends, changes no object but that of [c] and those of rows before
    it, and leaves above [c] the chain of its ancestors. *)
Lemma climb_spec n :
  ∀ la c lb fuel m kids,
    G = la ++ c :: lb → (length la ≤ n)%nat → (length la ≤ fuel)%nat →
    (∀ a, a ∈ la → m !! event_id a = Some (linked a)) →
    m !! event_id c
    = Some {| Timeline.item := c; Timeline.children := kids;
              Timeline.parent := None |} →
    ∃ m' up above,
      Timeline.climb fuel m (event_id c) (parent_event_id c) = Some m'
      ∧ (∀ v, v ∉ ids la → v ≠ event_id c → m' !! v = m !! v)
      ∧ m' !! event_id c
        = Some {| Timeline.item := c; Timeline.children := kids;
                  Timeline.parent := up |}
      ∧ chain X (parent_event_id c) above
      ∧ ∀ f, (length la ≤ f)%nat →
             Timeline.from_ref (Timeline.render f m') up = Some above.
Proof.
  destruct rows_NoDup as (Hids & Hnd & _).
  destruct (forest_ids G HG) as [_ Htr].
  induction n as [|n IH]; intros la c lb fuel m kids HGc Hn Hfuel Hla Hc.
  - destruct la; [|cbn in Hn; lia].
    destruct (parent_event_id c) as [p|] eqn:Hp.
    { apply (forest_parent [] c lb) in Hp; [|by rewrite <- HGc].
      by apply elem_of_nil in Hp. }
    exists m, None, None. destruct fuel; cbn; repeat split; try done;
      constructor.
  - destruct (parent_event_id c) as [p|] eqn:Hp.
    2:{ exists m, None, None. destruct fuel; cbn; repeat split; try done;
          constructor. }
    assert (p ∈ ids la) as (rp & -> & Hrp)%list_elem_of_fmap.
    { apply (forest_parent la c lb); [by rewrite <- HGc|done]. }
    apply list_elem_of_split in Hrp as (la1 & la2 & ->).
    rewrite <- app_assoc in HGc. cbn [app] in HGc.
    rewrite length_app in Hn, Hfuel. cbn [length] in Hn, Hfuel.
    destruct fuel as [|fuel]; [lia|].
    assert (Js.truthy (Some (event_id rp)) = true) as Htp.
    { apply Htr, list_elem_of_fmap_2. rewrite HGc.
      apply elem_of_app. right. left. }
    assert (event_id rp ≠ event_id c) as Hne.
    { intros Heq. rewrite HGc in Hids. unfold ids in Hids.
      rewrite fmap_app, !fmap_cons, fmap_app, fmap_cons in Hids.
      apply NoDup_app in Hids as (_ & _ & Hids).
      apply NoDup_cons in Hids as [Hids _]. apply Hids.
      rewrite Heq. apply elem_of_app. right. left. }
    assert (∀ a, a ∈ la1 → event_id a ≠ event_id rp ∧ event_id a ≠ event_id c)
      as Hla1.
    { intros a Ha. rewrite HGc in Hids. unfold ids in Hids.
      rewrite fmap_app in Hids. apply NoDup_app in Hids as (_ & Hids & _).
      specialize (Hids (event_id a) (list_elem_of_fmap_2 _ _ _ Ha)).
      rewrite !fmap_cons, fmap_app, fmap_cons in Hids.
      split; intros Heq; apply Hids; rewrite Heq.
      - left.
      - right. apply elem_of_app. right. left. }
    set (m2 := alter (λ c0, {| Timeline.item := Timeline.item c0;
                               Timeline.children := Timeline.children c0;
                               Timeline.parent := Some (event_id rp) |})
                 (event_id c)
                 (<[event_id rp := {| Timeline.item := rp;
                                      Timeline.children := None;
                                      Timeline.parent := None |}]> m)).
    assert (m2 !! event_id rp
            = Some {| Timeline.item := rp; Timeline.children := None;
                      Timeline.parent := None |}) as Hm2p.
    { unfold m2. rewrite lookup_alter_ne by done. by rewrite lookup_insert_eq. }
    assert (m2 !! event_id c
            = Some {| Timeline.item := c; Timeline.children := kids;
                      Timeline.parent := Some (event_id rp) |}) as Hm2c.
    { unfold m2. rewrite lookup_alter_eq, lookup_insert_ne by done.
      by rewrite Hc. }
    assert (∀ v, v ≠ event_id rp → v ≠ event_id c → m2 !! v = m !! v) as Hm2.
    { intros v H1 H2. unfold m2.
      rewrite lookup_alter_ne, lookup_insert_ne by done. done. }
    destruct (IH la1 rp (la2 ++ c :: lb) fuel m2 None HGc)
      as (m' & up' & above' & Hclimb & Hframe & Hm'p & Hchain & Hrender);
      [lia|lia| |done|].
    { intros a Ha. destruct (Hla1 a Ha). rewrite Hm2 by done.
      apply Hla, elem_of_app. by left. }
    exists m', (Some (event_id rp)),
      (Some (Timeline.Tree rp None above')).
    split; [|split; [|split; [|split]]].
    + cbn [Timeline.climb]. rewrite Htp.
      rewrite (Hla rp) by (apply elem_of_app; right; left).
      cbn [Timeline.item Timeline.parent]. exact Hclimb.
    + intros v Hv Hvc. unfold ids in Hv.
      rewrite fmap_app, fmap_cons, elem_of_app, elem_of_cons in Hv.
      rewrite Hframe; [apply Hm2| |]; tauto.
    + rewrite Hframe; [done| |done].
      intros (a & Heq & Ha)%list_elem_of_fmap.
      destruct (Hla1 a Ha). congruence.
    + apply chain_up; [|done]. apply HFX. rewrite HFG, HGc.
      apply elem_of_app. right. left.
    + intros f Hf. rewrite length_app in Hf. cbn [length] in Hf.
      destruct f as [|f]; [lia|]. cbn [Timeline.from_ref Timeline.render].
      rewrite Hm'p. cbn. rewrite Hrender by lia. done.
Qed.

(** The objects of the children of [k], the rows after [k] untouched:
    their values are the trees below them. *)
Lemma kids_render n :
  ∀ la k lb m f,
    G = la ++ k :: lb → (length lb ≤ n)%nat → (length lb ≤ f)%nat →
    (∀ b, b ∈ lb → m !! event_id b = Some (linked b)) →
    (∀ b, b ∈ k :: lb →
          children_of F (event_id b) ≡ₚ children_of X (event_id b)) →
    ∃ ts,
      mapM (Timeline.render f m) (ids (children_of F (event_id k))) = Some ts
      ∧ Forall2 (subtree X) (children_of F (event_id k)) ts.
Proof.
  induction n as [|n IH]; intros la k lb m f HGk Hn Hf Hlb Hperm;
    apply mapM_build; intros x [Hpar Hx]%list_elem_of_filter;
    rewrite HFG in Hx;
    destruct (child_after la k lb x HGk Hx Hpar) as (lb1 & lb2 & ->);
    rewrite length_app in Hn, Hf; cbn [length] in Hn, Hf; [lia|].
  destruct f as [|f]; [lia|].
  destruct (IH (la ++ k :: lb1) x lb2 m f) as (ts & Hts & HF2);
    [by rewrite <- app_assoc|lia|lia| |
     |].
  { intros b Hb. apply Hlb, elem_of_app. right. by right. }
  { intros b Hb. apply Hperm. right. apply elem_of_app. by right. }
  exists (Timeline.Tree x (Some ts) None). split.
  - cbn [Timeline.render].
    rewrite (Hlb x) by (apply elem_of_app; right; left).
    cbn. rewrite Hts. done.
  - apply (subtree_node X x (children_of F (event_id x))); [|done].
    apply Hperm. right. apply elem_of_app. right. left.
Qed.

(** The three loops on the rows [F], for the row [root]. *)
Lemma timeline_rows fuel root l l' :
  G = l ++ root :: l' → (length F ≤ fuel)%nat →
  (∀ b, b ∈ root :: l' →
        children_of F (event_id b) ≡ₚ children_of X (event_id b)) →
  ∃ nodeMap ts above,
    Timeline.of_rows fuel F (event_id root) = Some (Some nodeMap)
    ∧ Timeline.render (S (length F)) nodeMap (event_id root)
      = Some (Timeline.Tree root (Some ts) above)
    ∧ subtree X root (Timeline.Tree root (Some ts) None)
    ∧ chain X (parent_event_id root) above.
Proof.
  intros HGr Hfuel Hperm. destruct rows_NoDup as (Hids & Hnd & HidsF).
  pose proof rows_truthy as Htr.
  assert (length F = length G) as Hlen by (by rewrite HFG).
  assert (length G = length l + S (length l'))%nat as HlenG.
  { rewrite HGr, length_app. done. }
  assert (∀ r, r ∈ G → r ∈ F) as HGF by (intros r; by rewrite HFG).
  assert (∀ r, r ∈ G →
               foldl Timeline.link (Timeline.create F) F !! event_id r
               = Some (linked r)) as Hlinked.
  { intros r Hr. apply linked_Some; auto. }
  destruct (climb_spec (length l) l root l' fuel
              (foldl Timeline.link (Timeline.create F) F)
              (Some (ids (children_of F (event_id root)))) HGr)
    as (m' & up & above & Hclimb & Hframe & Hroot & Hchain & Hrender);
    [lia|lia| | |].
  { intros a Ha. apply Hlinked. rewrite HGr. apply elem_of_app. by left. }
  { apply Hlinked. rewrite HGr. apply elem_of_app. right. left. }
  destruct (kids_render (length l') l root l' m' (length F) HGr)
    as (ts & Hts & HF2); [lia|lia| |done|].
  { intros b Hb.
    assert (b ∈ G) as HbG by (rewrite HGr; apply elem_of_app; right; by right).
    rewrite Hframe; [by apply Hlinked| |].
    - intros (a & Heq & Ha)%list_elem_of_fmap.
      assert (a = b) as ->.
      { apply (NoDup_ids_inj G); [done| | |done]; [done|].
        rewrite HGr. apply elem_of_app. by left. }
      rewrite HGr in Hnd. apply NoDup_app in Hnd as (_ & Hnd & _).
      apply (Hnd b Ha). by right.
    - intros Heq.
      assert (b = root) as ->.
      { apply (NoDup_ids_inj G); [done| |done|done].
        rewrite HGr. apply elem_of_app. right. left. }
      rewrite HGr in Hnd. apply NoDup_app in Hnd as (_ & _ & Hnd).
      apply NoDup_cons in Hnd as [Hnd _]. done. }
  exists m', ts, above. split; [|split; [|split; [|done]]].
  - unfold Timeline.of_rows.
    assert ((length F =? 0)%nat = false) as -> by (apply Nat.eqb_neq; lia).
    cbn zeta. rewrite (Hlinked root)
      by (rewrite HGr; apply elem_of_app; right; left).
    cbn [Timeline.item]. by rewrite Hclimb.
  - cbn [Timeline.render]. rewrite Hroot. cbn. rewrite Hts. cbn.
    rewrite Hrender by lia. done.
  - apply (subtree_node X root (children_of F (event_id root))); [|done].
    apply Hperm. left.
Qed.

End TimelineFacts.

(** X17. Whatever the order in which the rows of a forest come, the timeline
    of one of them is an object whose value is the row with the trees
    below its children, and with the chain of its ancestors above it,
    each without [children]. *)
Theorem timeline_of_rows fuel flatList G root :
  forest G = true → flatList ≡ₚ G → root ∈ flatList →
  (length flatList ≤ fuel)%nat →
  ∃ nodeMap ts above,
    Timeline.of_rows fuel flatList (event_id root) = Some (Some nodeMap)
    ∧ Timeline.render (S (length flatList)) nodeMap (event_id root)
      = Some (Timeline.Tree root (Some ts) above)
    ∧ subtree G root (Timeline.Tree root (Some ts) None)
    ∧ chain G (parent_event_id root) above.
Proof.
  intros HG HFG Hroot Hfuel.
  assert (root ∈ G) as (l & l' & HGr)%list_elem_of_split by (by rewrite <- HFG).
  apply (timeline_rows flatList G G HG HFG) with (l := l) (l' := l');
    [|done|done|].
  - intros r. by rewrite HFG.
  - intros b _. unfold children_of. by rewrite HFG.
Qed.

(** *** The family of an event *)

Lemma ancestors_unfold fuel h work :
  EventAncestors fuel h work
  = match work with
    | [] => Some []
    | _ :: _ =>
        match fuel with
        | O => None
        | S fuel' =>
            (λ rest, work ++ rest)
              <$> EventAncestors fuel' h (ancestors_step h work)
        end
    end.
Proof. by destruct fuel, work. Qed.

Lemma filter_id_unique h r :
  NoDup (ids h) → r ∈ h → filter (λ e, event_id e = event_id r) h = [r].
Proof.
  intros Hnd Hr. induction h as [|x h IH]; [by apply elem_of_nil in Hr|].
  unfold ids in Hnd. rewrite fmap_cons in Hnd.
  apply NoDup_cons in Hnd as [Hx Hnd]. rewrite filter_cons.
  apply elem_of_cons in Hr as [<- | Hr].
  - rewrite decide_True by done. f_equal. apply filter_none.
    intros e He Heq. apply Hx. rewrite <- Heq. by apply list_elem_of_fmap_2.
  - rewrite decide_False; [by apply IH|].
    intros Heq. apply Hx. rewrite Heq. by apply list_elem_of_fmap_2.
Qed.

(** The parent of a single row, as the recursive term finds it. *)
Lemma ancestors_step_single h r :
  NoDup (ids h) →
  ancestors_step h [r]
  = match parent_event_id r with
    | Some p => filter (λ e, event_id e = p) h
    | None => []
    end.
Proof.
  intros Hnd. unfold ancestors_step.
  rewrite (bind_filter (λ e, parent_event_id r = Some (event_id e))).
  2:{ intros e He. cbn. rewrite app_nil_r.
      case_bool_decide as H1; case_decide as H2; done. }
  destruct (parent_event_id r) as [p|] eqn:Hp.
  - apply filter_ext_in. intros e He. split; congruence.
  - apply filter_none. intros e He. done.
Qed.

(** The rows from [r] up: the query ends within a round for each row
    before [r], and gives [r] and its ancestors, which come before it. *)
Lemma ancestors_run h n :
  forest h = true →
  ∀ la r lb fuel,
    h = la ++ r :: lb → (length la ≤ n)%nat → (length la < fuel)%nat →
    ∃ anc,
      EventAncestors fuel h [r] = Some anc
      ∧ r ∈ anc
      ∧ (∀ e, e ∈ anc → e = r ∨ e ∈ la)
      ∧ (∀ e p, e ∈ anc → parent_event_id e = Some p →
                ∃ rp, rp ∈ anc ∧ event_id rp = p)
      ∧ (∀ e, e ∈ anc ↔
              e ∈ h ∧ ∃ path, tree_path h (event_id e) (event_id r) path).
Proof.
  intros Hf. destruct (forest_ids h Hf) as [Hnd _].
  induction n as [|n IH]; intros la r lb fuel Hh Hn Hfuel.
  all: destruct fuel as [|fuel]; [lia|].
  all: rewrite ancestors_unfold, (ancestors_step_single h r Hnd).
  all: assert (r ∈ h) as Hr by (rewrite Hh; apply elem_of_app; right; left).
  all: assert (∀ e, e ∈ h →
                 (∃ path, tree_path h (event_id e) (event_id r) path) →
                 e = r ∨ ∃ u path, parent_event_id r = Some u
                                   ∧ tree_path h (event_id e) u path) as Hinv.
  all: try (intros e He [path Hp];
            inversion Hp as [r0 Hr0 Hid Heq | u path' x Hp' Hx Hpar Heq];
            [left; by apply (NoDup_ids_inj h)|right];
            assert (x = r) as -> by (by apply (NoDup_ids_inj h)); eauto).
  all: destruct (parent_event_id r) as [p|] eqn:Hp.
  all: try (rewrite ancestors_unfold; cbn; exists [r]; split; [done|];
            split; [left|]; split;
            [intros e ->%list_elem_of_singleton; by left|]; split;
            [intros e p' ->%list_elem_of_singleton; congruence|];
            intros e; rewrite list_elem_of_singleton; split;
            [intros ->; split; [done|]; exists [r]; by constructor
            |intros [He Hpath]; destruct (Hinv e He Hpath)
               as [?|(u & path & [=] & _)]; done]).
  - destruct la; [|cbn in Hn; lia].
    apply (forest_parent [] r lb) in Hp; [|by rewrite <- Hh].
    by apply elem_of_nil in Hp.
  - assert (p ∈ ids la) as (rp & -> & Hrp)%list_elem_of_fmap.
    { apply (forest_parent la r lb); [by rewrite <- Hh|done]. }
    apply list_elem_of_split in Hrp as (la1 & la2 & ->).
    rewrite <- app_assoc in Hh. cbn [app] in Hh.
    rewrite length_app in Hn, Hfuel. cbn [length] in Hn, Hfuel.
    assert (rp ∈ h) as Hrph by (rewrite Hh; apply elem_of_app; right; left).
    rewrite (filter_id_unique h rp Hnd Hrph).
    destruct (IH la1 rp (la2 ++ r :: lb) fuel Hh)
      as (anc & Hq & Hin & Hbefore & Hclosed & Hchar); [lia|lia|].
    rewrite Hq. cbn. exists (r :: anc). split; [done|]. split; [left|].
    split; [|split].
    + intros e [->|He]%elem_of_cons; [by left|]. right.
      destruct (Hbefore e He) as [->|Hl].
      * apply elem_of_app. right. left.
      * apply elem_of_app. by left.
    + intros e p' [->|He]%elem_of_cons Hp'.
      * exists rp. split; [by right|congruence].
      * destruct (Hclosed e p' He Hp') as (rp' & ? & ?). exists rp'.
        split; [by right|done].
    + intros e. rewrite elem_of_cons, Hchar. split.
      * intros [-> | [He [path Hpath]]].
        -- split; [done|]. exists [r]. by constructor.
        -- split; [done|]. exists (path ++ [r]).
           by apply (tree_path_child _ _ (event_id rp)).
      * intros [He Hpath].
        destruct (Hinv e He Hpath) as [?|(u & path & [= <-] & Hu)];
          [by left|]. right. eauto.
Qed.

Lemma forest_row_parent h r p :
  forest h = true → r ∈ h → parent_event_id r = Some p →
  ∃ rp, rp ∈ h ∧ event_id rp = p.
Proof.
  intros Hf (l1 & l2 & ->)%list_elem_of_split Hp.
  apply (forest_parent l1 r l2 p Hf) in Hp.
  apply list_elem_of_fmap in Hp as (rp & -> & Hrp).
  exists rp. split; [|done]. apply elem_of_app. by left.
Qed.

(** The rows of a forest that a predicate keeps are a forest when the
    predicate holds of the parent of every row of which it holds. *)
Lemma forest_filter (P : Row → Prop) `{∀ r, Decision (P r)} h :
  forest h = true →
  (∀ r rp, r ∈ h → rp ∈ h → P r → parent_event_id r = Some (event_id rp) →
           P rp) →
  forest (filter P h) = true.
Proof.
  intros Hf. revert h Hf.
  apply (forest_ind (λ h, (∀ r rp, r ∈ h → rp ∈ h → P r →
                                   parent_event_id r = Some (event_id rp) →
                                   P rp) →
                          forest (filter P h) = true)); [done|].
  intros l r IH Hf Hp Hfresh Ht Hclosed. rewrite filter_app.
  assert (forest (filter P l) = true) as Hfl.
  { apply IH. intros r' rp Hr' Hrp. apply Hclosed; apply elem_of_app; by left. }
  rewrite filter_cons, filter_nil. case_decide as HPr; [|by rewrite app_nil_r].
  apply forest_snoc; [done| | |done].
  - intros p Hpp. specialize (Hp p Hpp).
    apply list_elem_of_fmap in Hp as (rp & -> & Hrp).
    apply list_elem_of_fmap_2, list_elem_of_filter. split; [|done].
    apply (Hclosed r rp); [|apply elem_of_app; by left|done|done].
    apply elem_of_app. right. left.
  - intros (x & Hid & [_ Hx]%list_elem_of_filter)%list_elem_of_fmap.
    apply Hfresh. rewrite Hid. by apply list_elem_of_fmap_2.
Qed.

(** The two recursive queries on a forest, from a row of it. *)
Lemma family_rows fuel h root h1 h2 :
  forest h = true → h = h1 ++ root :: h2 →
  uuid_in (event_id root) = event_id root → (length h ≤ fuel)%nat →
  ∃ anc events,
    getEventFamily fuel h (event_id root) = Some (remove_dups (anc ++ events))
    ∧ root ∈ anc
    ∧ (∀ e, e ∈ anc → e = root ∨ e ∈ h1)
    ∧ (∀ e p, e ∈ anc → parent_event_id e = Some p →
              ∃ rp, rp ∈ anc ∧ event_id rp = p)
    ∧ (∀ e, e ∈ anc ↔
            e ∈ h ∧ ∃ path, tree_path h (event_id e) (event_id root) path)
    ∧ tree_listing (event_id root) events = true
    ∧ (∀ e, e ∈ events ↔
            e ∈ h ∧ is_Some (level h (event_id root) (event_id e))).
Proof.
  intros Hf Hh Hu Hfuel. destruct (forest_ids h Hf) as [Hnd _].
  assert (root ∈ h) as Hroot by (rewrite Hh; apply elem_of_app; right; left).
  destruct (ancestors_run h (length h1) Hf h1 root h2 fuel Hh)
    as (anc & Hqa & Ha1 & Ha2 & Ha3 & Ha4); [lia| |].
  { rewrite Hh, length_app in Hfuel. cbn in Hfuel. lia. }
  destruct (descendants_listing h (event_id root) fuel Hf Hu)
    as (events & Hqd & Hl & _ & Hin); [by apply list_elem_of_fmap_2|done|].
  exists anc, events. split; [|done].
  unfold getEventFamily. rewrite Hu, (filter_id_unique h root Hnd Hroot).
  rewrite Hqa. cbn. unfold getEventDescendants in Hqd.
  rewrite Hu, (filter_id_unique h root Hnd Hroot) in Hqd. by rewrite Hqd.
Qed.

(** The rows of a listing are the rows to which a path leads. *)
Lemma level_path h source events e :
  forest h = true → tree_listing source events = true →
  (∀ e, e ∈ events ↔ e ∈ h ∧ is_Some (level h source (event_id e))) →
  e ∈ h →
  is_Some (level h source (event_id e))
  ↔ ∃ path, tree_path h source (event_id e) path.
Proof.
  intros Hf Hl Hin He. split.
  - intros Hlev. assert (e ∈ events) as Hev by (by apply Hin).
    destruct (listing_paths _ _ Hl) as (_ & Hpaths & _).
    destruct (Hpaths (event_id e)) as (path & Hp & _);
      [by apply list_elem_of_fmap_2|].
    exists path. apply (tree_path_mono events); [intros x Hx; by apply Hin|].
    by apply (tree_paths_sound source).
  - intros [path Hp]. by apply (tree_path_level h source events) in Hp as [_ ?].
Qed.

(** X18. On a store that is a forest and holds the event, [getEventFamily]
    ends within a round of fuel for each row and gives, once each, the
    rows from which a path leads down to the event and the rows to which
    a path leads down from it, the row of the event among them. *)
Theorem family_of_an_event fuel h eventId :
  forest h = true → uuid_in eventId = eventId → eventId ∈ ids h →
  (length h ≤ fuel)%nat →
  ∃ flatList,
    getEventFamily fuel h eventId = Some flatList
    ∧ NoDup flatList
    ∧ ∀ e, e ∈ flatList ↔
           e ∈ h ∧ ((∃ path, tree_path h (event_id e) eventId path)
                    ∨ (∃ path, tree_path h eventId (event_id e) path)).
Proof.
  intros Hf Hu (root & -> & Hroot)%list_elem_of_fmap Hfuel.
  pose proof Hroot as (h1 & h2 & Hh)%list_elem_of_split.
  destruct (family_rows fuel h root h1 h2 Hf Hh Hu Hfuel)
    as (anc & events & Hq & _ & _ & _ & Hanc & Hl & Hin).
  exists (remove_dups (anc ++ events)). split; [done|].
  split; [apply NoDup_remove_dups|].
  intros e. rewrite elem_of_remove_dups, elem_of_app, Hanc, Hin. split.
  - intros [[He Hp] | [He Hlev]]; (split; [done|]); [by left|right].
    by apply (level_path h _ events e Hf Hl Hin He).
  - intros [He [Hp | Hp]]; [by left|right]. split; [done|].
    by apply (level_path h _ events e Hf Hl Hin He).
Qed.

(** *** The timeline on a store *)

(** X19. The timeline of an event of a store that is a forest, the id given as
    the store gives it back and a round of fuel for each row: the answer
    is an object whose value is the row of the event, with the trees
    below its children in the store, and above it the chain of its
    ancestors up to one that has no parent, each without [children]. *)
Theorem timeline_of_an_event fuel h rootEventId root :
  forest h = true → root ∈ h → event_id root = rootEventId →
  uuid_in rootEventId = rootEventId → (length h ≤ fuel)%nat →
  ∃ flatList nodeMap ts above,
    getEventFamily fuel h rootEventId = Some flatList
    ∧ getTimelineByRootEventId fuel h rootEventId = Some (Some nodeMap)
    ∧ Timeline.render (S (length flatList)) nodeMap rootEventId
      = Some (Timeline.Tree root (Some ts) above)
    ∧ subtree h root (Timeline.Tree root (Some ts) None)
    ∧ chain h (parent_event_id root) above.
Proof.
  intros Hf Hroot <- Hu Hfuel.
  pose proof Hroot as (h1 & h2 & Hh)%list_elem_of_split.
  destruct (forest_ids h Hf) as [Hids _].
  assert (NoDup h) as Hnd by (by apply NoDup_fmap_1 in Hids).
  destruct (family_rows fuel h root h1 h2 Hf Hh Hu Hfuel)
    as (anc & events & Hq & Ha1 & Ha2 & Ha3 & Ha4 & Hl & Hin).
  set (F := remove_dups (anc ++ events)) in *.
  assert (∀ e, e ∈ F ↔ e ∈ anc ∨ e ∈ events) as HF.
  { intros e. unfold F. by rewrite elem_of_remove_dups, elem_of_app. }
  assert (∀ e, e ∈ F → e ∈ h) as HFh.
  { intros e [He%Ha4 | He%Hin]%HF; tauto. }
  assert (root ∈ events) as Hre.
  { apply Hin. split; [done|].
    rewrite (level_row h _ root Hf Hroot), decide_True; done. }
  (* the children of a row of the listing are rows of the listing *)
  assert (∀ b x, b ∈ events → x ∈ h →
                 parent_event_id x = Some (event_id b) → x ∈ events) as Hdown.
  { intros b x [_ [j Hj]]%Hin Hx Hp. apply Hin. split; [done|].
    rewrite (level_row h _ x Hf Hx). case_decide; [done|].
    by rewrite Hp, Hj. }
  assert (forest (filter (λ r, r ∈ F) h) = true) as HG.
  { apply forest_filter; [done|]. intros r rp Hr Hrp [Hra | Hre']%HF Hp.
    - apply HF. left. destruct (Ha3 r _ Hra Hp) as (rp' & Hrp' & Hid).
      assert (rp' = rp) as <-; [|done].
      apply (NoDup_ids_inj h); [done|done| |done]. by apply Ha4 in Hrp' as [? _].
    - apply Hin in Hre' as [_ [j Hj]].
      rewrite (level_row h _ r Hf Hr) in Hj. case_decide as Hid.
      + assert (r = root) as -> by (by apply (NoDup_ids_inj h)).
        apply HF. left. destruct (Ha3 root _ Ha1 Hp) as (rp' & Hrp' & Hid').
        assert (rp' = rp) as <-; [|done].
        apply (NoDup_ids_inj h); [done|done| |done].
        by apply Ha4 in Hrp' as [? _].
      + rewrite Hp in Hj. apply HF. right. apply Hin. split; [done|].
        destruct (level h (event_id root) (event_id rp)); [done|].
        by cbn in Hj. }
  assert (F ≡ₚ filter (λ r, r ∈ F) h) as HFG.
  { apply NoDup_Permutation; [apply NoDup_remove_dups|by apply NoDup_filter|].
    intros e. rewrite list_elem_of_filter. split; [auto|tauto]. }
  assert (filter (λ r, r ∈ F) h
          = filter (λ r, r ∈ F) h1 ++ root :: filter (λ r, r ∈ F) h2) as HGr.
  { rewrite Hh at 1. rewrite filter_app, filter_cons.
    rewrite decide_True; [done|]. apply HF. by left. }
  assert ((length F ≤ fuel)%nat) as HlenF.
  { rewrite HFG. etrans; [apply length_filter|done]. }
  destruct (timeline_rows F (filter (λ r, r ∈ F) h) h HG HFG HFh fuel root
              (filter (λ r, r ∈ F) h1) (filter (λ r, r ∈ F) h2) HGr HlenF)
    as (nodeMap & ts & above & Hres & Hrender & Hsub & Hchain).
  { intros b Hb.
    assert (b ∈ events) as Hbe.
    { apply elem_of_cons in Hb as [-> | [HbF Hb2]%list_elem_of_filter];
        [done|].
      apply HF in HbF as [Hba | ?]; [|done]. exfalso.
      rewrite Hh in Hnd. apply NoDup_app in Hnd as (_ & Hnd1 & Hnd2).
      apply NoDup_cons in Hnd2 as [Hnd2 _].
      destruct (Ha2 b Hba) as [-> | Hb1]; [done|].
      apply (Hnd1 b Hb1). by right. }
    unfold children_of. apply NoDup_Permutation.
    - apply NoDup_filter, NoDup_remove_dups.
    - by apply NoDup_filter.
    - intros x. rewrite !list_elem_of_filter. split.
      + intros [Hp Hx]. auto.
      + intros [Hp Hx]. split; [done|]. apply HF. right.
        by apply (Hdown b). }
  exists F, nodeMap, ts, above. split; [done|].
  split; [|done]. unfold getTimelineByRootEventId. by rewrite Hq.
Qed.

Lemma family_canonical fuel h eventId :
  getEventFamily fuel h (uuid_in eventId) = getEventFamily fuel h eventId.
Proof. unfold getEventFamily. by rewrite uuid_in_idem. Qed.

(** X20. An id that is not in the store as it is written has no timeline: the
    answer is [null], also when the store holds the event under the id in
    another case, as for a UUID given with capital letters. *)
Theorem timeline_of_unknown_id fuel h rootEventId :
  forest h = true → UUID_REGEX_test rootEventId = true →
  rootEventId ∉ ids h → (length h ≤ fuel)%nat →
  getTimelineByRootEventId fuel h rootEventId = Some None.
Proof.
  intros Hf _ Hno Hfuel. unfold getTimelineByRootEventId.
  destruct (decide (uuid_in rootEventId ∈ ids h)) as [Hin|Hout].
  - apply list_elem_of_fmap in Hin as (root & Hid & Hroot).
    pose proof Hroot as (h1 & h2 & Hh)%list_elem_of_split.
    destruct (family_rows fuel h root h1 h2 Hf Hh) as
      (anc & events & Hq & Ha1 & _ & _ & Ha4 & _ & Hin);
      [by rewrite <- Hid, uuid_in_idem|done|].
    rewrite <- Hid, family_canonical in Hq. rewrite Hq. cbn.
    unfold Timeline.of_rows.
    destruct (remove_dups (anc ++ events)) as [|x F] eqn:HF.
    { exfalso. assert (root ∈ remove_dups (anc ++ events)) as Hr
        by (apply elem_of_remove_dups, elem_of_app; by left).
      rewrite HF in Hr. by apply elem_of_nil in Hr. }
    rewrite <- HF. assert ((length (remove_dups (anc ++ events)) =? 0)%nat
                           = false) as -> by (by rewrite HF).
    cbn zeta. rewrite linked_None; [done|].
    intros (e & -> & He)%list_elem_of_fmap. apply Hno.
    apply list_elem_of_fmap_2.
    apply elem_of_remove_dups, elem_of_app in He as [He%Ha4 | He%Hin]; tauto.
  - unfold getEventFamily. rewrite filter_none.
    + by rewrite ancestors_unfold, event_hierarchy_nil.
    + intros e He Heq. apply Hout. rewrite <- Heq.
      by apply list_elem_of_fmap_2.
Qed.

(** ** Reading a file a second time *)

Lemma deferredQuery_no_staging d :
  staging_events d = [] → deferredQuery d = inr (historical_events d).
Proof.
  intros Hs. unfold deferredQuery, second_part, first_part, join_left.
  rewrite Hs. done.
Qed.

Section Replay.

Variable Date_getTime : string -> option Z.
Variable column_check : Row -> option string.

Abbreviation parseLine := (parseLine Date_getTime).
Abbreviation insertHistorical := (insertHistorical column_check).
Abbreviation processLine := (processLine Date_getTime column_check).
Abbreviation processLines := (processLines Date_getTime column_check).
Abbreviation after_lines := (after_lines Date_getTime column_check).
Abbreviation processFile := (processFile Date_getTime column_check).
Abbreviation startIngestionJob := (startIngestionJob Date_getTime column_check).
Abbreviation clean_line := (clean_line Date_getTime column_check).
Abbreviation clean_file := (clean_file Date_getTime column_check).

(** After a clean file, the main store holds the event of every line. *)
Lemma clean_file_ids filePath lines :
  ∀ s, clean_file filePath s lines = true →
  ∀ k line, lines !! k = Some line →
    ∃ q, parseLine filePath (S (lineNumber s + k)) line = inr q
         ∧ column_check q = None
         ∧ event_id (stored q)
           ∈ ids (historical_events (db (processLines filePath s lines))).
Proof.
  induction lines as [|l lines IH]; intros s Hc k line Hk; [done|].
  cbn [clean_file] in Hc. apply andb_true_iff in Hc as [Hl Hc].
  rewrite (processLines_cons Date_getTime column_check).
  destruct (processLine_cases Date_getTime column_check filePath s l)
    as [Hn _].
  destruct k as [|k].
  - injection Hk as ->. rewrite Nat.add_0_r.
    destruct (clean_line_commits Date_getTime column_check _ _ _ Hl)
      as (q & h' & Hq & Hi).
    exists q. split; [done|]. split.
    { unfold clean_line in Hl. rewrite Hq in Hl.
      by destruct (column_check q). }
    destruct (processLines_tables Date_getTime column_check filePath
                (processLine filePath s line) lines) as [[more ->] _].
    unfold ids. rewrite fmap_app. apply elem_of_app. left.
    assert (historical_events (db (processLine filePath s line)) = h') as ->.
    { unfold processLine. rewrite Hq, Hi. done. }
    destruct (insertHistorical_inr column_check _ _ _ Hi)
      as [[-> Hin] | [-> _]]; [done|].
    rewrite fmap_app. apply elem_of_app. right. left.
  - destruct (IH _ Hc k line Hk) as (q & Hq & Hcc & Hin).
    exists q. rewrite Hn in Hq.
    replace (S (lineNumber s + S k)) with (S (S (lineNumber s) + k)) by lia.
    done.
Qed.

(** Lines whose events the main store holds: nothing is written, every
    line is counted as processed. *)
Lemma replay filePath lines :
  ∀ s,
    (∀ k line, lines !! k = Some line →
       ∃ q, parseLine filePath (S (lineNumber s + k)) line = inr q
            ∧ column_check q = None
            ∧ event_id (stored q) ∈ ids (historical_events (db s))) →
    let s' := processLines filePath s lines in
    historical_events (db s') = historical_events (db s)
    ∧ staging_events (db s') = staging_events (db s)
    ∧ localSuccessCount s' = (localSuccessCount s + length lines)%nat
    ∧ lineNumber s' = (lineNumber s + length lines)%nat
    ∧ error_lines (ingestion_job (db s')) = error_lines (ingestion_job (db s))
    ∧ errors (ingestion_job (db s')) = errors (ingestion_job (db s)).
Proof.
  induction lines as [|l lines IH]; intros s Hall; cbn zeta.
  - cbn. repeat split; lia.
  - rewrite (processLines_cons Date_getTime column_check).
    destruct (Hall 0%nat l eq_refl) as (q & Hq & Hcc & Hin).
    rewrite Nat.add_0_r in Hq.
    assert (insertHistorical q (historical_events (db s))
            = inr (historical_events (db s))) as Hi.
    { unfold insertHistorical. rewrite Hcc. by rewrite bool_decide_true. }
    set (s1 := processLine filePath s l).
    assert (historical_events (db s1) = historical_events (db s)
            ∧ staging_events (db s1) = staging_events (db s)
            ∧ localSuccessCount s1 = S (localSuccessCount s)
            ∧ lineNumber s1 = S (lineNumber s)
            ∧ error_lines (ingestion_job (db s1))
              = error_lines (ingestion_job (db s))
            ∧ errors (ingestion_job (db s1)) = errors (ingestion_job (db s)))
      as (E1 & E2 & E3 & E4 & E5 & E6).
    { unfold s1, processLine. rewrite Hq, Hi. done. }
    destruct (IH s1) as (F1 & F2 & F3 & F4 & F5 & F6).
    { intros k line Hk. destruct (Hall (S k) line Hk) as (q' & Hq' & Hcc' & Hin').
      exists q'. rewrite E4, E1.
      replace (S (S (lineNumber s) + k)) with (S (lineNumber s + S k)) by lia.
      done. }
    rewrite F1, F2, F3, F4, F5, F6, E1, E2, E3, E4, E5, E6. cbn.
    repeat split; lia.
Qed.

Lemma insertRows_duplicate rows h r :
  r ∈ rows → event_id r ∈ ids h → insertRows rows h = inl unique_violation.
Proof.
  revert h. induction rows as [|x rows IH]; intros h Hr Hin.
  - by apply elem_of_nil in Hr.
  - cbn. case_bool_decide as Hx; [done|].
    apply elem_of_cons in Hr as [-> | Hr]; [done|].
    apply IH; [done|]. unfold ids. rewrite fmap_app. apply elem_of_app.
    by left.
Qed.

(** C8, where the code departs from it. The rows that the deferred
    statement promotes stay in [staging_events], and that statement has no
    [ON CONFLICT] clause, unlike the insert of the line loop. So when the
    staging table holds a row that is in the main store already and whose
    parent is there too, as an earlier job leaves it, the job of a clean
    file does not complete: every line is read and counted as processed,
    none as an error, and then the deferred statement fails on the
    duplicate key and the job ends [FAILED] with that fatal error. *)
Theorem clean_file_fails_on_promoted_row env created filePath h st r p :
  markProcessing_error env = None →
  stream_error (fileStream env) = None →
  clean_file filePath
    (loop_start
       {| historical_events := h; staging_events := st;
          ingestion_job :=
            markProcessing (createIngestionJob created filePath) |})
    (stream_lines (fileStream env)) = true →
  r ∈ st → event_id r ∈ ids h →
  parent_event_id r = Some p → p ∈ ids h →
  let j := ingestion_job (startIngestionJob env created filePath h st) in
  status j = FAILED
  ∧ errors j = ["Fatal Error: " +:+ error_message unique_violation]
  ∧ processed_lines j = length (stream_lines (fileStream env))
  ∧ total_lines j = length (stream_lines (fileStream env))
  ∧ error_lines j = 0%nat.
Proof.
  intros Hm He Hc Hr Hid Hp Hpin. cbn zeta.
  unfold startIngestionJob, processFile.
  rewrite Hm, He, !(after_lines_eq Date_getTime column_check).
  set (s0 := loop_start
               {| historical_events := h; staging_events := st;
                  ingestion_job :=
                    markProcessing (createIngestionJob created filePath) |})
    in *.
  pose proof (processLines_tables Date_getTime column_check filePath s0
                (stream_lines (fileStream env))) as [[more Hmore] _].
  cbn zeta in Hmore.
  apply (clean_file_run Date_getTime column_check) in Hc; [|done..].
  cbn zeta in Hc.
  destruct Hc as (Hs & _ & Hn & Hst & Hpl & Htl & Herr & Hers).
  cbn [s0 loop_start db historical_events staging_events ingestion_job
       localSuccessCount lineNumber] in Hmore, Hs, Hn, Hst, Herr, Hers.
  match goal with |- context [deferredQuery ?d] =>
    assert (deferredQuery d = inl unique_violation) as -> end.
  { unfold deferredQuery. rewrite (insertRows_duplicate _ _ r); [done| |].
    - apply elem_of_app. left. apply first_part_spec. rewrite Hst.
      split; [done|]. exists p. split; [done|]. rewrite Hmore.
      unfold ids. rewrite fmap_app. apply elem_of_app. by left.
    - rewrite Hmore. unfold ids. rewrite fmap_app. apply elem_of_app.
      by left. }
  cbn. rewrite Hers, Hpl, Htl, Hs, Hn, Herr. done.
Qed.

(** X21. Reading a clean file a second time changes nothing. When a file
    whose lines are all accepted and name no parent that is not yet
    committed has been read into a store with an empty staging table, the
    job completes; a second job on the same lines then leaves the main
    store as it is and the staging table empty, and completes with every
    line counted as processed and none as an error. *)
Theorem second_reading_changes_nothing env env' created created' filePath h :
  markProcessing_error env = None → stream_error (fileStream env) = None →
  markProcessing_error env' = None → stream_error (fileStream env') = None →
  stream_lines (fileStream env') = stream_lines (fileStream env) →
  clean_file filePath
    (loop_start
       {| historical_events := h; staging_events := [];
          ingestion_job :=
            markProcessing (createIngestionJob created filePath) |})
    (stream_lines (fileStream env)) = true →
  let d1 := startIngestionJob env created filePath h [] in
  let d2 := startIngestionJob env' created' filePath
              (historical_events d1) (staging_events d1) in
  status (ingestion_job d1) = COMPLETED
  ∧ historical_events d2 = historical_events d1
  ∧ staging_events d2 = []
  ∧ status (ingestion_job d2) = COMPLETED
  ∧ processed_lines (ingestion_job d2)
    = length (stream_lines (fileStream env))
  ∧ total_lines (ingestion_job d2) = length (stream_lines (fileStream env))
  ∧ error_lines (ingestion_job d2) = 0%nat
  ∧ errors (ingestion_job d2) = [].
Proof.
  intros Hm He Hm' He' Hlines Hclean. cbn zeta.
  set (s0 := loop_start
               {| historical_events := h; staging_events := [];
                  ingestion_job :=
                    markProcessing (createIngestionJob created filePath) |})
    in *.
  set (lines := stream_lines (fileStream env)) in *.
  (* the first job *)
  destruct (clean_file_run Date_getTime column_check filePath s0 lines Hclean
              eq_refl eq_refl) as (_ & _ & _ & Hst1 & _).
  pose proof (clean_file_ids filePath lines s0 Hclean) as Hids.
  cbn zeta in Hst1. set (s1 := processLines filePath s0 lines) in *.
  assert (startIngestionJob env created filePath h []
          = {| historical_events := historical_events (db s1);
               staging_events := [];
               ingestion_job :=
                 finalUpdateQuery (NOW env) (lineNumber s1)
                   (localSuccessCount s1) (ingestion_job (db s1)) |}) as Hd1.
  { unfold startIngestionJob, processFile. rewrite Hm, He.
    change (after_lines env filePath _) with s1.
    rewrite (deferredQuery_no_staging (db s1)) by done. by rewrite Hst1. }
  rewrite Hd1. cbn [historical_events staging_events ingestion_job].
  split; [done|].
  (* the second job *)
  set (t0 := loop_start
               {| historical_events := historical_events (db s1);
                  staging_events := [];
                  ingestion_job :=
                    markProcessing (createIngestionJob created' filePath) |}).
  destruct (replay filePath lines t0)
    as (R1 & R2 & R3 & R4 & R5 & R6).
  { intros k line Hk. destruct (Hids k line Hk) as (q & Hq & Hcc & Hin).
    exists q. done. }
  set (t1 := processLines filePath t0 lines) in *.
  assert (startIngestionJob env' created' filePath
            (historical_events (db s1)) []
          = {| historical_events := historical_events (db s1);
               staging_events := [];
               ingestion_job :=
                 finalUpdateQuery (NOW env') (lineNumber t1)
                   (localSuccessCount t1) (ingestion_job (db t1)) |}) as ->.
  { unfold startIngestionJob, processFile. rewrite Hm', He'.
    unfold after_lines. rewrite Hlines.
    change (processLines filePath _ lines) with t1.
    rewrite (deferredQuery_no_staging (db t1)) by done.
    by rewrite R1, R2. }
  cbn. rewrite R3, R4, R5, R6. done.
Qed.

End Replay.

(** ** The key of a pair *)

(** X22. The key under which the overlap detector remembers a pair does not
    depend on the order of the two ids, and two pairs of UUIDs have the
    same key only when they are the same pair. *)
Theorem pair_key_identifies_the_pair a b c d :
  UUID_REGEX_test a = true → UUID_REGEX_test b = true →
  UUID_REGEX_test c = true → UUID_REGEX_test d = true →
  pairKey a b = pairKey c d ↔ (a = c ∧ b = d) ∨ (a = d ∧ b = c).
Proof.
  intros Ha Hb Hc Hd. split.
  - apply pairKey_inj; by apply UUID_no_bar.
  - intros [[-> ->] | [-> ->]]; [done|apply pairKey_comm].
Qed.

(** * The further properties on concrete inputs *)

Section MoreExamples.

Import Demo.

Local Abbreviation A := (line idA "NULL").
Local Abbreviation B := (line idB idA).
Local Abbreviation C := (line idC idB).

Local Abbreviation tA := (ev idA None 0 (30 * minute)).
Local Abbreviation tB := (ev idB (Some idA) 0 (10 * minute)).
Local Abbreviation tC := (ev idC (Some idB) 0 (5 * minute)).
Local Abbreviation tD := (ev idD None 0 minute).

Local Abbreviation empty :=
  {| historical_events := []; staging_events := [];
     ingestion_job := createIngestionJob 0 "events.txt" |}.

(** *** The parser *)

Lemma accepted_line_is_its_fields_witness :
  let q := {| event_id := idB; event_name := "Event"; description := "text";
              start_date := 1672531200000; end_date := 1672533000000;
              duration_minutes := 30; parent_event_id := Some idA;
              metadata := {| Metadata.originalSourceFile := "events.txt";
                             Metadata.lineNumber := 7;
                             Metadata.researchValue := "RV" |} |} in
  parseLine Date_getTime "events.txt" 7 B = inr q
  ∧ ∃ startDateIso endDateIso parentIdOrNull,
      B = Js.join "|" [idB; "Event"; startDateIso; endDateIso; parentIdOrNull;
                       "RV"; "text"]
      ∧ Date_getTime startDateIso = Some 1672531200000
      ∧ Date_getTime endDateIso = Some 1672533000000.
Proof.
  cbn zeta.
  assert (parseLine Date_getTime "events.txt" 7 B
          = inr {| event_id := idB; event_name := "Event";
                   description := "text";
                   start_date := 1672531200000; end_date := 1672533000000;
                   duration_minutes := 30; parent_event_id := Some idA;
                   metadata := {| Metadata.originalSourceFile := "events.txt";
                                  Metadata.lineNumber := 7;
                                  Metadata.researchValue := "RV" |} |}) as Hp
    by (vm_compute; reflexivity).
  split; [exact Hp|].
  destruct (accepted_line_is_its_fields Date_getTime _ _ _ _ Hp)
    as (s & e & p & Hline & _ & _ & Hs & He & _).
  exists s, e, p. split; [exact Hline|]. split; [exact Hs|exact He].
Defined.

Lemma joined_fields_are_parsed_witness :
  Forall (λ f, no_bar f = true)
    ["Event"; "2023-01-01T00:00:00Z"; "2023-01-01T00:30:00Z"; "null"; "RV";
     "text"]
  ∧ UUID_REGEX_test idA = true
  ∧ Date_getTime "2023-01-01T00:00:00Z" = Some 1672531200000
  ∧ Date_getTime "2023-01-01T00:30:00Z" = Some 1672533000000
  ∧ parseLine Date_getTime "events.txt" 3
      (Js.join "|" [idA; "Event"; "2023-01-01T00:00:00Z";
                    "2023-01-01T00:30:00Z"; "null"; "RV"; "text"])
    = inr {| event_id := idA; event_name := "Event"; description := "text";
             start_date := 1672531200000; end_date := 1672533000000;
             duration_minutes := (1672533000000 - 1672531200000 + 30000) / 60000;
             parent_event_id :=
               (if String.eqb (Js.toUpperCase "null") "NULL" then None
                else Some "null");
             metadata := {| Metadata.originalSourceFile := "events.txt";
                            Metadata.lineNumber := 3;
                            Metadata.researchValue := "RV" |} |}.
Proof.
  assert (Forall (λ f, no_bar f = true)
            ["Event"; "2023-01-01T00:00:00Z"; "2023-01-01T00:30:00Z"; "null";
             "RV"; "text"]) as Hbars by (repeat constructor).
  assert (UUID_REGEX_test idA = true) as Hid by (vm_compute; reflexivity).
  assert (Date_getTime "2023-01-01T00:00:00Z" = Some 1672531200000) as Hs
    by (vm_compute; reflexivity).
  assert (Date_getTime "2023-01-01T00:30:00Z" = Some 1672533000000) as He
    by (vm_compute; reflexivity).
  split; [exact Hbars|]. split; [exact Hid|]. split; [exact Hs|].
  split; [exact He|].
  apply (joined_fields_are_parsed Date_getTime "events.txt" 3 idA "Event"
           "2023-01-01T00:00:00Z" "2023-01-01T00:30:00Z" "null" "RV" "text"
           1672531200000 1672533000000 Hbars Hid);
    [left; vm_compute; reflexivity|exact Hs|exact He|lia].
Defined.

(** *** The two tables *)

Lemma job_keeps_forest_witness :
  forest (historical_events empty) = true
  ∧ forest (historical_events
              (processFile Date_getTime column_check (Demo.env [A; C; B])
                 "events.txt" empty)) = true.
Proof.
  assert (forest (historical_events empty) = true) as Hf by reflexivity.
  split; [exact Hf|].
  apply (job_keeps_forest Date_getTime column_check (Demo.env [A; C; B])
           "events.txt" empty Hf).
  - constructor.
  - intros l n q Hl Hq. cbn in Hl.
    repeat (apply elem_of_cons in Hl as [-> | Hl]);
      [..|by apply elem_of_nil in Hl];
      vm_compute in Hq; injection Hq as <-; intros Heq; vm_compute in Heq;
      discriminate Heq.
Defined.

Lemma job_writes_valid_rows_witness :
  let d' := processFile Date_getTime column_check (Demo.env [A; C; B])
              "events.txt" empty in
  Forall (λ r, row_ok r = true) (historical_events d')
  ∧ ids (historical_events d') = [idA; idB; idC].
Proof.
  cbn zeta.
  destruct (job_writes_valid_rows Date_getTime column_check
              (Demo.env [A; C; B]) "events.txt" empty) as [Hh _];
    [constructor|constructor|].
  split; [exact Hh|]. vm_compute. reflexivity.
Defined.

(** *** The entries of [errors] *)

Lemma rejected_line_is_reported_witness :
  parseLine Date_getTime "events.txt" 2 "junk"
  = inl (Error "Invalid number of fields. Expected 7, got 1.")
  ∧ "Line 2: Invalid number of fields. Expected 7, got 1."
    ∈ errors (ingestion_job
                (processFile Date_getTime column_check
                   (Demo.env [A; "junk"; C]) "events.txt" empty)).
Proof.
  assert (parseLine Date_getTime "events.txt" 2 "junk"
          = inl (Error "Invalid number of fields. Expected 7, got 1.")) as Hp
    by (vm_compute; reflexivity).
  split; [exact Hp|].
  apply (rejected_line_is_reported Date_getTime column_check
           (Demo.env [A; "junk"; C]) "events.txt" empty 1 "junk"
           "Invalid number of fields. Expected 7, got 1.");
    [reflexivity|repeat constructor|reflexivity|left; exact Hp].
Defined.

(** *** The status of a job *)

Lemma job_status_after_run_witness :
  let r := {| job_id := idA; job := ingestion_job (ingest [A; "junk"] [] []) |} in
  NoDup (job_id <$> [r])
  ∧ ∃ response,
      getJobStatus [r] "AAAAAAAA-AAAA-AAAA-AAAA-AAAAAAAAAAAA" = Some response
      ∧ JobStatus.jobId response = idA
      ∧ JobStatus.endTime response = Some (Some 1700000000000).
Proof.
  cbn zeta.
  set (r := {| job_id := idA; job := ingestion_job (ingest [A; "junk"] [] []) |}).
  assert (NoDup (job_id <$> [r])) as Hnd by (apply NoDup_singleton).
  split; [exact Hnd|].
  destruct (job_status_after_run Date_getTime column_check [r]
              "AAAAAAAA-AAAA-AAAA-AAAA-AAAAAAAAAAAA" r (Demo.env [A; "junk"])
              1699999999000 "events.txt" [] [] Hnd)
    as (response & Hresp & Hid & _ & _ & _ & _ & _ & Hok & _);
    [left|vm_compute; reflexivity|reflexivity|].
  exists response. split; [exact Hresp|]. split; [exact Hid|].
  destruct (Hok eq_refl) as (_ & _ & _ & Hend). exact Hend.
Defined.

(** *** The statements of the search *)

Lemma search_text_holds_no_input_witness :
  let p := {| Search.name := Some "war"; Search.startDateAfter := None;
              Search.endDateBefore := Some "2024-01-01";
              Search.sortBy := "event_name"; Search.sortOrder := "desc";
              Search.page := JsNumber.Int 1;
              Search.limit := JsNumber.Int 10 |} in
  let p' := {| Search.name := Some "x' OR 1 = 1 --";
               Search.startDateAfter := Some "";
               Search.endDateBefore := Some "never";
               Search.sortBy := "event_name"; Search.sortOrder := "DESC";
               Search.page := JsNumber.Int 3;
               Search.limit := JsNumber.Int 50 |} in
  Search.dataQuery (Search.of_params p) = Search.dataQuery (Search.of_params p')
  ∧ Search.references (Search.dataQuery (Search.of_params p')) = [1; 2; 3; 4]%nat.
Proof.
  cbn zeta.
  match goal with |- Search.dataQuery (Search.of_params ?p) = Search.dataQuery (Search.of_params ?p') ∧ _ =>
    destruct (search_text_holds_no_input p p') as (_ & Hd & _)
  end; [reflexivity..|].
  split; [exact Hd|]. vm_compute. reflexivity.
Defined.

(** The third page of ten rows: three values are bound to the data
    statement, the filter, the limit and the offset 20. *)
Lemma search_references_match_values_witness :
  let p := {| Search.name := Some "war"; Search.startDateAfter := None;
              Search.endDateBefore := None;
              Search.sortBy := "end_date"; Search.sortOrder := "asc";
              Search.page := JsNumber.Int 3;
              Search.limit := JsNumber.Int 10 |} in
  Search.references (Search.dataQuery (Search.of_params p)) = [1; 2; 3]%nat
  ∧ Search.finalQueryValues (Search.of_params p)
    = [Search.Text "%war%"; Search.Number (JsNumber.Int 10);
       Search.Number (JsNumber.Int 20)].
Proof.
  cbn zeta.
  match goal with |- Search.references (Search.dataQuery (Search.of_params ?p)) = _ ∧ _ =>
    destruct (search_references_match_values p) as (_ & Hrefs & Hvals & Hoff)
  end.
  split; [rewrite Hrefs; vm_compute; reflexivity|].
  rewrite Hvals, (Hoff 3 10);
    [vm_compute; reflexivity|reflexivity|reflexivity
    |vm_compute; discriminate..].
Defined.

(** Beyond 2^53 the offset that is bound is the nearest double, not the
    exact product: page 94906268 with 94906267 rows a page. *)
Lemma offset_is_a_double :
  let p := {| Search.name := None; Search.startDateAfter := None;
              Search.endDateBefore := None;
              Search.sortBy := "start_date"; Search.sortOrder := "asc";
              Search.page := JsNumber.Int 94906268;
              Search.limit := JsNumber.Int 94906267 |} in
  Search.offset (Search.of_params p) = JsNumber.Int 9007199515875288
  ∧ (94906268 - 1) * 94906267 = 9007199515875289.
Proof. vm_compute. split; reflexivity. Qed.

(** *** The overlap detector *)

Local Abbreviation eA := (ev idA None 0 (30 * minute)).
Local Abbreviation eB := (ev idB None (20 * minute) (50 * minute)).

Lemma reported_pairs_are_real_witness :
  NoDup (ids [eA; eB])
  ∧ findOverlappingEvents [eA; eB] 0 (60 * minute) = [mk_report eB eA]
  ∧ pair_of (getEventsInRange [eA; eB] 0 (60 * minute)) (mk_report eB eA).
Proof.
  assert (NoDup (ids [eA; eB])) as Hnd
    by (apply (bool_decide_unpack _); vm_compute; exact I).
  assert (findOverlappingEvents [eA; eB] 0 (60 * minute) = [mk_report eB eA])
    as Hout by (vm_compute; reflexivity).
  split; [exact Hnd|]. split; [exact Hout|].
  apply (reported_pairs_are_real [eA; eB] 0 (60 * minute) _ Hnd).
  rewrite Hout. left.
Defined.

(** *** The path finder *)

Lemma unknown_source_is_not_found_witness :
  UUID_REGEX_test idB = true
  ∧ (uuid_in idB ∉ ids [tA])
  ∧ findEventInfluencePath 0 [tA] idB idA
    = Some (inr (Influence.NotFound "Source event not found.")).
Proof.
  assert (UUID_REGEX_test idB = true) as Hu by (vm_compute; reflexivity).
  assert (uuid_in idB ∉ ids [tA]) as Hno
    by (apply (bool_decide_unpack _); vm_compute; exact I).
  split; [exact Hu|]. split; [exact Hno|].
  exact (unknown_source_is_not_found 0 [tA] idB idA Hu Hno).
Defined.

Lemma source_in_another_case_witness :
  let source := "AAAAAAAA-AAAA-AAAA-AAAA-AAAAAAAAAAAA" in
  forest [tA; tB] = true
  ∧ UUID_REGEX_test source = true
  ∧ uuid_in source ∈ ids [tA; tB]
  ∧ (source ∉ ids [tA; tB])
  ∧ (∃ e, findEventInfluencePath 2 [tA; tB] source idB = Some (inl e))
  ∧ findEventInfluencePath 2 [tA; tB] idA idB
    = Some (inr (Influence.Path idA idB [node_of tA; node_of tB]
                   (Influence.Fin 40) Influence.found_message)).
Proof.
  cbn zeta.
  assert (forest [tA; tB] = true) as Hf by (vm_compute; reflexivity).
  assert (UUID_REGEX_test "AAAAAAAA-AAAA-AAAA-AAAA-AAAAAAAAAAAA" = true) as Hu
    by (vm_compute; reflexivity).
  assert (uuid_in "AAAAAAAA-AAAA-AAAA-AAAA-AAAAAAAAAAAA" ∈ ids [tA; tB]) as Hin
    by (apply (bool_decide_unpack _); vm_compute; exact I).
  assert ("AAAAAAAA-AAAA-AAAA-AAAA-AAAAAAAAAAAA" ∉ ids [tA; tB]) as Hno
    by (apply (bool_decide_unpack _); vm_compute; exact I).
  assert (length [tA; tB] ≤ 2)%nat as Hfuel by (cbn; lia).
  destruct (source_in_another_case 2 [tA; tB]
              "AAAAAAAA-AAAA-AAAA-AAAA-AAAAAAAAAAAA" idB Hf Hu Hin Hno Hfuel)
    as [Hthrow _].
  split; [exact Hf|]. split; [exact Hu|]. split; [exact Hin|].
  split; [exact Hno|]. split; [|vm_compute; reflexivity].
  apply Hthrow. exists [tA; tB].
  apply (tree_path_child _ _ idA [tA] tB); [|right; left|reflexivity].
  apply tree_path_source; [left|reflexivity].
Defined.

(** The tree A (30 min), B (10 min), C (5 min) of the claim: from A as
    the store holds it the path to C is A, B, C with a total of 45; from
    the same UUID in capital letters the path finder throws. *)
Lemma influence_path_breaks_on_case_witness :
  let source := "AAAAAAAA-AAAA-AAAA-AAAA-AAAAAAAAAAAA" in
  let h := [tA; tB; tC] in
  forest h = true
  ∧ UUID_REGEX_test source = true
  ∧ uuid_in source = idA
  ∧ (source ∉ ids h)
  ∧ findEventInfluencePath 3 h idA idC
    = Some (inr (Influence.Path idA idC [node_of tA; node_of tB; node_of tC]
                   (Influence.Fin 45) Influence.found_message))
  ∧ ∃ e, findEventInfluencePath 3 h source idC = Some (inl e).
Proof.
  cbn zeta.
  assert (forest [tA; tB; tC] = true) as Hf by (vm_compute; reflexivity).
  assert (UUID_REGEX_test "AAAAAAAA-AAAA-AAAA-AAAA-AAAAAAAAAAAA" = true) as Hu
    by (vm_compute; reflexivity).
  assert (uuid_in "AAAAAAAA-AAAA-AAAA-AAAA-AAAAAAAAAAAA" = idA) as Hid
    by (vm_compute; reflexivity).
  assert (uuid_in "AAAAAAAA-AAAA-AAAA-AAAA-AAAAAAAAAAAA"
          ∈ ids [tA; tB; tC]) as Hin
    by (apply (bool_decide_unpack _); vm_compute; exact I).
  assert ("AAAAAAAA-AAAA-AAAA-AAAA-AAAAAAAAAAAA" ∉ ids [tA; tB; tC])
    as Hno by (apply (bool_decide_unpack _); vm_compute; exact I).
  assert (length [tA; tB; tC] ≤ 3)%nat as Hfuel by (cbn; lia).
  assert (tree_path [tA; tB; tC] idA idC [tA; tB; tC]) as PC.
  { apply (tree_path_child _ _ idB [tA; tB] tC);
      [|right; right; left|reflexivity].
    apply (tree_path_child _ _ idA [tA] tB); [|right; left|reflexivity].
    apply tree_path_source; [left|reflexivity]. }
  destruct (influence_path_breaks_on_case 3 [tA; tB; tC]
              "AAAAAAAA-AAAA-AAAA-AAAA-AAAAAAAAAAAA" idC [tA; tB; tC]
              Hf Hu Hin Hno Hfuel PC) as [Hfound Hthrow].
  split; [exact Hf|]. split; [exact Hu|]. split; [exact Hid|].
  split; [exact Hno|]. split; [exact Hfound|exact Hthrow].
Defined.

Lemma own_parent_never_ends_witness :
  let h := historical_events (ingest [line idA idA; B] [] []) in
  let r := {| event_id := idA; event_name := "Event"; description := "text";
              start_date := 1672531200000; end_date := 1672533000000;
              duration_minutes := 30; parent_event_id := Some idA;
              metadata := {| Metadata.originalSourceFile := "events.txt";
                             Metadata.lineNumber := 1;
                             Metadata.researchValue := "RV" |} |} in
  ids h = [idA; idB]
  ∧ parent_event_id r = Some (event_id r)
  ∧ getEventDescendants 1000 h idA = None
  ∧ findEventInfluencePath 1000 h idA idB = None
  ∧ getTimelineByRootEventId 1000 h idA = None.
Proof.
  cbn zeta.
  set (h := historical_events (ingest [line idA idA; B] [] [])).
  set (r := {| event_id := idA; event_name := "Event"; description := "text";
              start_date := 1672531200000; end_date := 1672533000000;
              duration_minutes := 30; parent_event_id := Some idA;
              metadata := {| Metadata.originalSourceFile := "events.txt";
                             Metadata.lineNumber := 1;
                             Metadata.researchValue := "RV" |} |}).
  assert (ids h = [idA; idB]) as Hids by (vm_compute; reflexivity).
  assert (parent_event_id r = Some (event_id r)) as Hself by reflexivity.
  assert (r ∈ h) as Hr.
  { assert (head h = Some r) as Hh by (vm_compute; reflexivity).
    destruct h as [|x h']; [discriminate|]. injection Hh as ->. left. }
  assert (tree_path h (uuid_in idA) (event_id r) [r]) as Hp.
  { apply tree_path_source; [exact Hr|reflexivity]. }
  split; [exact Hids|]. split; [exact Hself|].
  exact (own_parent_never_ends h r Hr Hself idA [r] 1000 idB Hp).
Defined.

(** *** The timeline *)

Lemma timeline_of_rows_witness :
  forest [tA; tB; tC] = true
  ∧ [tC; tA; tB] ≡ₚ [tA; tB; tC]
  ∧ ∃ nodeMap,
      Timeline.of_rows 3 [tC; tA; tB] idB = Some (Some nodeMap)
      ∧ Timeline.render 4 nodeMap idB
        = Some (Timeline.Tree tB
                  (Some [Timeline.Tree tC (Some []) None])
                  (Some (Timeline.Tree tA None None))).
Proof.
  assert (forest [tA; tB; tC] = true) as Hf by (vm_compute; reflexivity).
  assert ([tC; tA; tB] ≡ₚ [tA; tB; tC]) as Hp
    by (apply (Permutation_cons_append [tA; tB] tC)).
  split; [exact Hf|]. split; [exact Hp|].
  destruct (timeline_of_rows 3 [tC; tA; tB] [tA; tB; tC] tB Hf Hp)
    as (nodeMap & ts & above & Hres & Hrender & _);
    [right; right; left|cbn; lia|].
  exists nodeMap. split; [exact Hres|].
  assert (Timeline.of_rows 3 [tC; tA; tB] idB
          ≫= (λ o, o ≫= λ m, Timeline.render 4 m idB)
          = Some (Timeline.Tree tB
                    (Some [Timeline.Tree tC (Some []) None])
                    (Some (Timeline.Tree tA None None)))) as Hval
    by (vm_compute; reflexivity).
  change (event_id tB) with idB in Hres. rewrite Hres in Hval. exact Hval.
Defined.

Lemma family_of_an_event_witness :
  let h := [tA; tB; tC; tD] in
  forest h = true
  ∧ uuid_in idB = idB
  ∧ idB ∈ ids h
  ∧ ∃ flatList,
      getEventFamily 4 h idB = Some flatList
      ∧ NoDup flatList
      ∧ (tA ∈ flatList) ∧ (tC ∈ flatList).
Proof.
  cbn zeta.
  assert (forest [tA; tB; tC; tD] = true) as Hf by (vm_compute; reflexivity).
  assert (uuid_in idB = idB) as Hu by (vm_compute; reflexivity).
  assert (idB ∈ ids [tA; tB; tC; tD]) as Hin
    by (apply (bool_decide_unpack _); vm_compute; exact I).
  assert (length [tA; tB; tC; tD] ≤ 4)%nat as Hfuel by (cbn; lia).
  destruct (family_of_an_event 4 [tA; tB; tC; tD] idB Hf Hu Hin Hfuel)
    as (flatList & Hq & Hnd & Hchar).
  split; [exact Hf|]. split; [exact Hu|]. split; [exact Hin|].
  exists flatList. split; [exact Hq|]. split; [exact Hnd|].
  assert (tree_path [tA; tB; tC; tD] idA idB [tA; tB]) as HA.
  { apply (tree_path_child _ _ idA [tA] tB); [|right; left|reflexivity].
    apply tree_path_source; [left|reflexivity]. }
  assert (tree_path [tA; tB; tC; tD] idB idC [tB; tC]) as HC.
  { apply (tree_path_child _ _ idB [tB] tC); [|right; right; left|reflexivity].
    apply tree_path_source; [right; left|reflexivity]. }
  split; apply Hchar.
  - split; [left|]. left. exists [tA; tB]. exact HA.
  - split; [right; right; left|]. right. exists [tB; tC]. exact HC.
Defined.

Lemma timeline_of_an_event_witness :
  let h := [tA; tB; tC; tD] in
  forest h = true
  ∧ tB ∈ h
  ∧ uuid_in idB = idB
  ∧ ∃ nodeMap,
      getTimelineByRootEventId 4 h idB = Some (Some nodeMap)
      ∧ Timeline.render 4 nodeMap idB
        = Some (Timeline.Tree tB
                  (Some [Timeline.Tree tC (Some []) None])
                  (Some (Timeline.Tree tA None None))).
Proof.
  cbn zeta.
  assert (forest [tA; tB; tC; tD] = true) as Hf by (vm_compute; reflexivity).
  assert (tB ∈ [tA; tB; tC; tD]) as Hin by (right; left).
  assert (uuid_in idB = idB) as Hu by (vm_compute; reflexivity).
  assert (length [tA; tB; tC; tD] ≤ 4)%nat as Hfuel by (cbn; lia).
  destruct (timeline_of_an_event 4 [tA; tB; tC; tD] idB tB Hf Hin eq_refl Hu
              Hfuel)
    as (flatList & nodeMap & ts & above & _ & Hres & _).
  split; [exact Hf|]. split; [exact Hin|]. split; [exact Hu|].
  exists nodeMap. split; [exact Hres|].
  assert (getTimelineByRootEventId 4 [tA; tB; tC; tD] idB
          ≫= (λ o, o ≫= λ m, Timeline.render 4 m idB)
          = Some (Timeline.Tree tB
                    (Some [Timeline.Tree tC (Some []) None])
                    (Some (Timeline.Tree tA None None)))) as Hval
    by (vm_compute; reflexivity).
  rewrite Hres in Hval. exact Hval.
Defined.

Lemma timeline_of_unknown_id_witness :
  let h := [tA; tB; tC; tD] in
  let rootEventId := "BBBBBBBB-BBBB-BBBB-BBBB-BBBBBBBBBBBB" in
  forest h = true
  ∧ UUID_REGEX_test rootEventId = true
  ∧ (rootEventId ∉ ids h)
  ∧ uuid_in rootEventId ∈ ids h
  ∧ getTimelineByRootEventId 4 h rootEventId = Some None.
Proof.
  cbn zeta.
  assert (forest [tA; tB; tC; tD] = true) as Hf by (vm_compute; reflexivity).
  assert (UUID_REGEX_test "BBBBBBBB-BBBB-BBBB-BBBB-BBBBBBBBBBBB" = true) as Hu
    by (vm_compute; reflexivity).
  assert ("BBBBBBBB-BBBB-BBBB-BBBB-BBBBBBBBBBBB" ∉ ids [tA; tB; tC; tD]) as Hno
    by (apply (bool_decide_unpack _); vm_compute; exact I).
  assert (uuid_in "BBBBBBBB-BBBB-BBBB-BBBB-BBBBBBBBBBBB" ∈ ids [tA; tB; tC; tD])
    as Hin by (apply (bool_decide_unpack _); vm_compute; exact I).
  assert (length [tA; tB; tC; tD] ≤ 4)%nat as Hfuel by (cbn; lia).
  split; [exact Hf|]. split; [exact Hu|]. split; [exact Hno|].
  split; [exact Hin|].
  exact (timeline_of_unknown_id 4 [tA; tB; tC; tD]
           "BBBBBBBB-BBBB-BBBB-BBBB-BBBBBBBBBBBB" Hf Hu Hno Hfuel).
Defined.

(** *** More of the jobs *)

(** After the job of the file A, C, B the row of C, promoted by that job,
    is still in [staging_events]: the job of the clean one-line file D
    then ends [FAILED], its line counted as processed. *)
Lemma clean_file_fails_on_promoted_row_witness :
  let d1 := ingest [A; C; B] [] [] in
  let d2 := ingest [line idD "NULL"] (historical_events d1)
              (staging_events d1) in
  status (ingestion_job d1) = COMPLETED
  ∧ ids (staging_events d1) = [idC]
  ∧ status (ingestion_job d2) = FAILED
  ∧ processed_lines (ingestion_job d2) = 1%nat
  ∧ error_lines (ingestion_job d2) = 0%nat.
Proof.
  cbn zeta.
  set (r := {| event_id := idC; event_name := "Event"; description := "text";
               start_date := 1672531200000; end_date := 1672533000000;
               duration_minutes := 30; parent_event_id := Some idB;
               metadata :=
                 {| Metadata.originalSourceFile := "events.txt";
                    Metadata.lineNumber := 2;
                    Metadata.researchValue := "RV" |} |}).
  destruct (clean_file_fails_on_promoted_row Date_getTime column_check
              (Demo.env [line idD "NULL"]) 1699999999000 "events.txt"
              (historical_events (ingest [A; C; B] [] []))
              (staging_events (ingest [A; C; B] [] [])) r idB)
    as (Hst & _ & Hp & _ & He).
  - reflexivity.
  - reflexivity.
  - vm_compute; reflexivity.
  - apply (bool_decide_unpack _); vm_compute; exact I.
  - apply (bool_decide_unpack _); vm_compute; exact I.
  - reflexivity.
  - apply (bool_decide_unpack _); vm_compute; exact I.
  - split; [vm_compute; reflexivity|]. split; [vm_compute; reflexivity|].
    split; [exact Hst|]. split; [exact Hp|exact He].
Defined.

Lemma second_reading_changes_nothing_witness :
  let d1 := ingest [A; B; C] [] [] in
  let d2 := ingest [A; B; C] (historical_events d1) (staging_events d1) in
  ids (historical_events d1) = [idA; idB; idC]
  ∧ status (ingestion_job d1) = COMPLETED
  ∧ historical_events d2 = historical_events d1
  ∧ status (ingestion_job d2) = COMPLETED
  ∧ processed_lines (ingestion_job d2) = 3%nat.
Proof.
  cbn zeta.
  destruct (second_reading_changes_nothing Date_getTime column_check
              (Demo.env [A; B; C]) (Demo.env [A; B; C])
              1699999999000 1699999999000 "events.txt" [])
    as (H1 & H2 & _ & H4 & H5 & _);
    [reflexivity|reflexivity|reflexivity|reflexivity|reflexivity
    |vm_compute; reflexivity|].
  split; [vm_compute; reflexivity|]. split; [exact H1|].
  split; [exact H2|]. split; [exact H4|exact H5].
Defined.

Lemma pair_key_identifies_the_pair_witness :
  UUID_REGEX_test idA = true ∧ UUID_REGEX_test idB = true
  ∧ pairKey idA idB = pairKey idB idA
  ∧ pairKey idA idB ≠ pairKey idA idC.
Proof.
  assert (UUID_REGEX_test idA = true) as HA by (vm_compute; reflexivity).
  assert (UUID_REGEX_test idB = true) as HB by (vm_compute; reflexivity).
  assert (UUID_REGEX_test idC = true) as HC by (vm_compute; reflexivity).
  split; [exact HA|]. split; [exact HB|]. split.
  - apply (pair_key_identifies_the_pair idA idB idB idA HA HB HB HA).
    right. split; reflexivity.
  - intros Heq.
    apply (pair_key_identifies_the_pair idA idB idA idC HA HB HA HC) in Heq.
    destruct Heq as [[_ Heq] | [Heq _]]; discriminate Heq.
Defined.

End MoreExamples.
